(** * S.T.O.R.M: the sharded LRU store of [STORM_Backend/src/store.{h,cpp}]

    A shallow embedding of [class Store] and a verification of its
    capacity, consistency, eviction-order, batch and routing properties.

    Modelling choices.
    - [std::unordered_map<std::string, Entry>] is a [gmap string Entry].
    - [std::list<std::string>] is a list of nodes; every node carries an
      identity (its address) next to the key it holds, so that the
      [std::list<std::string>::iterator] kept in an [Entry] can be embedded
      as what it is, a reference to one node.  The front of the list is the
      most recently used end, as in the source.
    - Undefined behaviour of the C++ code ([back()] or [pop_back()] on an
      empty list, [splice]/[erase] through an iterator that denotes no node
      of the list, [% 0] in [shardIndex]) is the result [None].
    - The code is modelled sequentially: a shard operation runs with the
      shard's mutex held, and the mutex itself carries no data.
    - [size_t] quantities (capacity, sizes, hash values, shard indices) are
      natural numbers; the only arithmetic the code performs on them is a
      comparison and a remainder, neither of which can wrap. *)

From Stdlib Require Import Ascii.
From stdpp Require Import gmap strings list fin_maps fin_sets pretty.


(** A loop over a sequence whose body may have undefined behaviour: the
    loop stops at the first iteration that has. *)
Fixpoint foldM {S A : Type} (body : S → A → option S) (s : S) (l : list A)
  : option S :=
  match l with
  | [] => Some s
  | a :: l' => s' ← body s a; foldM body s' l'
  end.

(** ** The recency list: [std::list<std::string>] with node identities *)

Module Recency.

Definition node := nat.

(** An iterator denotes a node, or is the past-the-end iterator [None]. *)
Definition iterator := option node.

Definition t := list (node * string).

Definition nodes (l : t) : list node := l.*1.
Definition keys (l : t) : list string := l.*2.

(** [begin()] *)
Definition begin (l : t) : iterator := fst <$> head l.

(** [back()]: undefined on the empty list. *)
Definition back (l : t) : option string := snd <$> last l.

(** [pop_back()]: undefined on the empty list. *)
Definition pop_back (l : t) : option t :=
  match l with
  | [] => None
  | _ :: _ => Some (removelast l)
  end.

(** A node allocated by [push_front] is distinct from every node that is
    currently linked in the list. *)
Definition fresh_node (l : t) : node := S (max_list (nodes l)).

(** [push_front(key)] *)
Definition push_front (key : string) (l : t) : t := (fresh_node l, key) :: l.

(** Unlink the node [n]: its key and the list without it. *)
Fixpoint unlink (n : node) (l : t) : option (string * t) :=
  match l with
  | [] => None
  | (m, k) :: l' =>
      if decide (m = n) then Some (k, l')
      else '(k', r) ← unlink n l'; Some (k', (m, k) :: r)
  end.

(** [l.splice(l.begin(), l, it)]: relink the node of [it] at the front.
    The node keeps its identity, so iterators stay valid. *)
Definition splice_begin (l : t) (it : iterator) : option t :=
  n ← it; '(k, r) ← unlink n l; Some ((n, k) :: r).

(** [l.erase(it)] *)
Definition erase (l : t) (it : iterator) : option t :=
  n ← it; '(_, r) ← unlink n l; Some r.

End Recency.

(** ** [struct Entry], [struct Shard] *)

Record Entry := mkEntry {
  value : string;
  recencyIt : Recency.iterator
}.

Record Shard := mkShard {
  store : gmap string Entry;
  recencyList : Recency.t;
  capacity : nat
}.

Global Instance Entry_eq_dec : EqDecision Entry.
Proof. solve_decision. Defined.

Global Instance Shard_eq_dec : EqDecision Shard.
Proof. solve_decision. Defined.

(** A freshly constructed shard: [std::make_unique<Shard>()] followed by
    the assignment of [capacity]. *)
Definition newShard (shard_capacity : nat) : Shard := mkShard ∅ [] shard_capacity.

(** [unordered_map::emplace]: inserts only if the key is absent. *)
Definition emplace (key : string) (e : Entry) (m : gmap string Entry)
  : gmap string Entry :=
  match m !! key with
  | Some _ => m
  | None => <[key := e]> m
  end.

(** ** Per-shard operations *)

(** The eviction block of [putInShard] (store.cpp, lines 106-110). *)
Definition evictIfFull (shard : Shard) : option Shard :=
  if decide (capacity shard ≤ size (store shard)) then
    lru_key ← Recency.back (recencyList shard);
    l ← Recency.pop_back (recencyList shard);
    Some (mkShard (delete lru_key (store shard)) l (capacity shard))
  else Some shard.

Definition putInShard (shard : Shard) (key val : string) : option (bool * Shard) :=
  match store shard !! key with
  | Some entry =>
      l ← Recency.splice_begin (recencyList shard) (recencyIt entry);
      Some (true,
            mkShard (<[key := mkEntry val (Recency.begin l)]> (store shard))
                    l (capacity shard))
  | None =>
      shard1 ← evictIfFull shard;
      let l := Recency.push_front key (recencyList shard1) in
      Some (true,
            mkShard (emplace key (mkEntry val (Recency.begin l)) (store shard1))
                    l (capacity shard1))
  end.

(** [getFromShard]: the third component of the result is the content of the
    caller's output parameter after the call; [out] is its content before. *)
Definition getFromShard (shard : Shard) (key out : string)
  : option (bool * Shard * string) :=
  match store shard !! key with
  | None => Some (false, shard, out)
  | Some entry =>
      l ← Recency.splice_begin (recencyList shard) (recencyIt entry);
      Some (true,
            mkShard (<[key := mkEntry (value entry) (Recency.begin l)]> (store shard))
                    l (capacity shard),
            value entry)
  end.

Definition delFromShard (shard : Shard) (key : string) : option (bool * Shard) :=
  match store shard !! key with
  | None => Some (false, shard)
  | Some entry =>
      l ← Recency.erase (recencyList shard) (recencyIt entry);
      Some (true, mkShard (delete key (store shard)) l (capacity shard))
  end.

(** The body of the loop of [Store::clear] for one shard. *)
Definition clearShard (shard : Shard) : Shard := mkShard ∅ [] (capacity shard).

(** The inner loop of [Store::putMany]: the pairs of one batch, in order. *)
Definition putBatch (shard : Shard) (batch : list (string * string)) : option Shard :=
  foldM (λ sh kv, r ← putInShard sh kv.1 kv.2; Some r.2) shard batch.

(** ** [class Store] *)

Record Store := mkStore { shards : list Shard }.

(** [Store::Store(shard_capacity, total_shards)] *)
Definition newStore (shard_capacity total_shards : nat) : Store :=
  mkStore (replicate total_shards (newShard shard_capacity)).

Section WithHash.

(** [std::hash<std::string>{}]: a function of the key alone. *)
Variable hash : string → nat.

(** [shardIndex]: the remainder is undefined when there is no shard. *)
Definition shardIndex (st : Store) (key : string) : option nat :=
  if decide (length (shards st) = 0) then None
  else Some (hash key mod length (shards st)).

Definition put (st : Store) (key val : string) : option (bool * Store) :=
  i ← shardIndex st key;
  target_shard ← shards st !! i;
  r ← putInShard target_shard key val;
  Some (r.1, mkStore (<[i := r.2]> (shards st))).

Definition get (st : Store) (key out : string) : option (bool * Store * string) :=
  i ← shardIndex st key;
  target_shard ← shards st !! i;
  r ← getFromShard target_shard key out;
  Some (r.1.1, mkStore (<[i := r.1.2]> (shards st)), r.2).

Definition del (st : Store) (key : string) : option (bool * Store) :=
  i ← shardIndex st key;
  target_shard ← shards st !! i;
  r ← delFromShard target_shard key;
  Some (r.1, mkStore (<[i := r.2]> (shards st))).

(** First loop of [putMany]: [shard_batches[shardIndex(k)].push_back(kv)]. *)
Definition assignBatches (st : Store) (key_value_pairs : list (string * string))
  : option (list (list (string * string))) :=
  foldM (λ shard_batches kv,
           i ← shardIndex st kv.1;
           b ← shard_batches !! i;
           Some (<[i := b ++ [kv]]> shard_batches))
        (replicate (length (shards st)) []) key_value_pairs.

(** One iteration of the second loop of [putMany]. *)
Definition putManyShard (shard_batches : list (list (string * string)))
    (st : Store) (shard_index : nat) : option Store :=
  batch ← shard_batches !! shard_index;
  match batch with
  | [] => Some st
  | _ :: _ =>
      target_shard ← shards st !! shard_index;
      sh ← putBatch target_shard batch;
      Some (mkStore (<[shard_index := sh]> (shards st)))
  end.

Definition putMany (st : Store) (key_value_pairs : list (string * string))
  : option Store :=
  shard_batches ← assignBatches st key_value_pairs;
  foldM (putManyShard shard_batches) st (seq 0 (length (shards st))).

(** The pairs applied one at a time through [put], in order. *)
Definition putEach (st : Store) (key_value_pairs : list (string * string))
  : option Store :=
  foldM (λ s kv, r ← put s kv.1 kv.2; Some r.2) st key_value_pairs.

End WithHash.

(** [Store::clear] *)
Definition clear (st : Store) : Store := mkStore (clearShard <$> shards st).

(** ** Observations, invariants and operation sequences *)

(** The recency sequence of a shard: its keys, most recently used first. *)
Definition recencyKeys (sh : Shard) : list string := Recency.keys (recencyList sh).

(** The value the index of a shard holds for a key. *)
Definition valueOf (sh : Shard) (key : string) : option string :=
  value <$> store sh !! key.

(** The iterator of an entry denotes a node of the list that holds [key]. *)
Definition entryLinked (l : Recency.t) (key : string) (e : Entry) : Prop :=
  match recencyIt e with
  | Some n => (n, key) ∈ l
  | None => False
  end.

(** Representation invariant of a shard: the nodes of the recency list are
    distinct and hold distinct keys, every entry of the index refers to the
    node that holds its key, and every key of the list is in the index. *)
Definition wf_shard (sh : Shard) : Prop :=
  NoDup (Recency.nodes (recencyList sh)) ∧
  NoDup (Recency.keys (recencyList sh)) ∧
  map_Forall (entryLinked (recencyList sh)) (store sh) ∧
  Forall (λ nk, is_Some (store sh !! nk.2)) (recencyList sh).

Definition wf_store (st : Store) : Prop :=
  shards st ≠ [] ∧ Forall wf_shard (shards st).

(** Every shard was constructed with a positive capacity. *)
Definition positiveCapacity (st : Store) : Prop :=
  Forall (λ sh, 1 ≤ capacity sh) (shards st).

Global Instance entryLinked_dec l key e : Decision (entryLinked l key e).
Proof. unfold entryLinked. destruct (recencyIt e); apply _. Defined.

Global Instance wf_shard_dec sh : Decision (wf_shard sh).
Proof. unfold wf_shard. apply _. Defined.

Global Instance wf_store_dec st : Decision (wf_store st).
Proof. unfold wf_store. apply _. Defined.

Global Instance positiveCapacity_dec st : Decision (positiveCapacity st).
Proof. unfold positiveCapacity. apply _. Defined.

(** The invariant carried along a run of a shard built with capacity [C]. *)
Definition shardInv (C : nat) (sh : Shard) : Prop :=
  wf_shard sh ∧ capacity sh = C ∧ size (store sh) ≤ C.

(** The invariant of a store whose shards were built with a positive capacity. *)
Definition storeInv (st : Store) : Prop := wf_store st ∧ positiveCapacity st.

Global Instance storeInv_dec st : Decision (storeInv st).
Proof. unfold storeInv. apply _. Defined.

(** Moving a key to the most recently used end of a key sequence. *)
Definition touch (key : string) (ks : list string) : list string :=
  key :: filter (λ k, k ≠ key) ks.

(** The operations of a shard, and a run of a sequence of them. *)
Inductive ShardOp :=
| OpPut (key val : string)
| OpGet (key : string)
| OpDel (key : string)
| OpClear.

Definition stepShard (sh : Shard) (op : ShardOp) : option Shard :=
  match op with
  | OpPut key val => r ← putInShard sh key val; Some r.2
  | OpGet key => r ← getFromShard sh key ""; Some r.1.2
  | OpDel key => r ← delFromShard sh key; Some r.2
  | OpClear => Some (clearShard sh)
  end.

Definition runShard (sh : Shard) (ops : list ShardOp) : option Shard :=
  foldM stepShard sh ops.

(** The public operations of the store, and a run of a sequence of them. *)
Inductive StoreOp :=
| SPut (key val : string)
| SGet (key : string)
| SDel (key : string)
| SPutMany (key_value_pairs : list (string * string))
| SClear.

Definition stepStore (hash : string → nat) (st : Store) (op : StoreOp) : option Store :=
  match op with
  | SPut key val => r ← put hash st key val; Some r.2
  | SGet key => r ← get hash st key ""; Some r.1.2
  | SDel key => r ← del hash st key; Some r.2
  | SPutMany kvs => putMany hash st kvs
  | SClear => Some (clear st)
  end.

Definition runStore (hash : string → nat) (st : Store) (ops : list StoreOp) : option Store :=
  foldM (stepStore hash) st ops.

(** The shard that owns a key. *)
Definition shardOf (hash : string → nat) (st : Store) (key : string) : option Shard :=
  i ← shardIndex hash st key; shards st !! i.

(** The key is present in the store: the index of its shard holds it. *)
Definition contains (hash : string → nat) (st : Store) (key : string) : Prop :=
  match shardOf hash st key with
  | Some sh => is_Some (store sh !! key)
  | None => False
  end.

Global Instance contains_dec hash st key : Decision (contains hash st key).
Proof. unfold contains. destruct (shardOf hash st key); apply _. Defined.

(** Some shard of the store holds the key. *)
Definition holds (st : Store) (key : string) : Prop :=
  Exists (λ sh, is_Some (store sh !! key)) (shards st).

Global Instance holds_dec st key : Decision (holds st key).
Proof. unfold holds. apply _. Defined.

(** Every key of the store is held by the shard it is routed to. *)
Definition routed (hash : string → nat) (st : Store) : Prop :=
  Forall (λ ish : nat * Shard,
            map_Forall (λ k _, hash k mod length (shards st) = ish.1) (store ish.2))
         (imap pair (shards st)).

Global Instance routed_dec hash st : Decision (routed hash st).
Proof. unfold routed. apply _. Defined.

(** The invariant of the stores built from a new store whose shards have
    capacity [C]. *)
Definition builtInv (hash : string → nat) (C : nat) (st : Store) : Prop :=
  wf_store st ∧ routed hash st ∧ Forall (λ sh, capacity sh = C) (shards st).

(** The stores that the public operations can build from a new store. *)
Definition reachable (hash : string → nat) (shard_capacity total_shards : nat)
    (st : Store) : Prop :=
  ∃ ops, runStore hash (newStore shard_capacity total_shards) ops = Some st.

(** What a caller of [getFromShard] observes: the result and the content of
    its output parameter after the call. *)
Definition observeGet (sh : Shard) (key out : string) : option (bool * string) :=
  r ← getFromShard sh key out; Some (r.1.1, r.2).

(** The pairs of a batch that [putMany] assigns to the shard [i] of [n]. *)
Definition batchOf (hash : string → nat) (n i : nat)
    (key_value_pairs : list (string * string)) : list (string * string) :=
  filter (λ kv, hash kv.1 mod n = i) key_value_pairs.

(** A function applied to every shard with its index, from index [k] on;
    undefined as soon as it is undefined on one shard. *)
Fixpoint mapShardsFrom (f : nat → Shard → option Shard) (k : nat) (l : list Shard)
  : option (list Shard) :=
  match l with
  | [] => Some []
  | sh :: l' => sh' ← f k sh; r ← mapShardsFrom f (S k) l'; Some (sh' :: r)
  end.

(** A concrete hash function, used to run the store on examples. *)
Definition lengthHash (s : string) : nat := String.length s.

(** The LRU tests of [tests/test_store.cpp]; each returns what its
    [EXPECT_*] lines observe, in order: the result of a [get] and the content
    of [retrievedValue] after it. *)

(** [TEST(StoreTest, EvictLeastRecentlyUsed)] *)
Definition test_EvictLeastRecentlyUsed (hash : string → nat)
  : option (list (bool * string)) :=
  let testStore := newStore 2 1 in
  p1 ← put hash testStore "A" "1";
  p2 ← put hash p1.2 "B" "2";
  p3 ← put hash p2.2 "C" "3";
  g1 ← get hash p3.2 "A" "";
  g2 ← get hash g1.1.2 "B" g1.2;
  g3 ← get hash g2.1.2 "C" g2.2;
  Some [(g1.1.1, g1.2); (g2.1.1, g2.2); (g3.1.1, g3.2)].

(** [TEST(StoreTest, RecencyUpdatesOnGet)] *)
Definition test_RecencyUpdatesOnGet (hash : string → nat)
  : option (list (bool * string)) :=
  let testStore := newStore 2 1 in
  p1 ← put hash testStore "A" "1";
  p2 ← put hash p1.2 "B" "2";
  g0 ← get hash p2.2 "A" "";
  p3 ← put hash g0.1.2 "C" "3";
  g1 ← get hash p3.2 "A" g0.2;
  g2 ← get hash g1.1.2 "B" g1.2;
  g3 ← get hash g2.1.2 "C" g2.2;
  Some [(g0.1.1, g0.2); (g1.1.1, g1.2); (g2.1.1, g2.2); (g3.1.1, g3.2)].

(** [TEST(StoreTest, RecencyUpdatesOnPut)] *)
Definition test_RecencyUpdatesOnPut (hash : string → nat)
  : option (list (bool * string)) :=
  let testStore := newStore 2 1 in
  p1 ← put hash testStore "A" "1";
  p2 ← put hash p1.2 "B" "2";
  p3 ← put hash p2.2 "A" "10";
  p4 ← put hash p3.2 "C" "3";
  g1 ← get hash p4.2 "A" "";
  g2 ← get hash g1.1.2 "B" g1.2;
  g3 ← get hash g2.1.2 "C" g2.2;
  Some [(g1.1.1, g1.2); (g2.1.1, g2.2); (g3.1.1, g3.2)].

(** A store of three shards of capacity 2 that holds A, BB and C. *)
Definition exampleStore : Store :=
  default (newStore 2 3)
          (putEach lengthHash (newStore 2 3) [("A", "1"); ("BB", "2"); ("C", "3")]).

(** ** Further observations of the store *)

(** What the index of the owner shard holds for a key: the value that
    [get] reports. *)
Definition lookupStore (hash : string → nat) (st : Store) (key : string)
  : option string :=
  sh ← shardOf hash st key; valueOf sh key.

(** The number of keys of the store, all shards together. *)
Definition totalKeys (st : Store) : nat :=
  sum_list ((λ sh, size (store sh)) <$> shards st).

(** The key is at the most recently used end of the shard, with value [v]. *)
Definition atFront (sh : Shard) (key v : string) : Prop :=
  ∃ n rest, recencyList sh = (n, key) :: rest ∧
            store sh !! key = Some (mkEntry v (Some n)).

(** No shard holds more keys than its capacity. *)
Definition withinCapacity (st : Store) : Prop :=
  Forall (λ sh, size (store sh) ≤ capacity sh) (shards st).

Global Instance withinCapacity_dec st : Decision (withinCapacity st).
Proof. unfold withinCapacity. apply _. Defined.

(** A shard operation is a put. *)
Definition isPut (op : ShardOp) : bool :=
  match op with OpPut _ _ => true | _ => false end.

(** ** Text written to standard output *)

(** The double quote character and the newline character. *)
Definition dq : string := String "034"%char "".
Definition nl : string := String "010"%char "".

(** A string between double quotes. *)
Definition quoted (s : string) : string := dq +:+ s +:+ dq.

(** ** [Store::list] (store.cpp) *)

(** The inner loop of [Store::list]: one line per node of the recency list.
    [store.at(key)] throws [std::out_of_range] when the index lacks the key;
    the exception is the result [None]. *)
Fixpoint listEntries (index : gmap string Entry) (l : Recency.t) : option string :=
  match l with
  | [] => Some ""
  | (_, key) :: l' =>
      entry ← index !! key;
      rest ← listEntries index l';
      Some ("  " +:+ quoted key +:+ ": " +:+ quoted (value entry) +:+
            (match l' with [] => "" | _ :: _ => "," end) +:+ nl +:+ rest)
  end.

(** The body of the outer loop of [Store::list] for one shard. *)
Definition listShard (shard_index : nat) (shard : Shard) : option string :=
  body ← listEntries (store shard) (recencyList shard);
  Some ("{ " +:+ quoted ("shard_" +:+ pretty shard_index) +:+ ": {" +:+ nl +:+
        body +:+ "} }" +:+ nl).

Fixpoint listFrom (shard_index : nat) (l : list Shard) : option string :=
  match l with
  | [] => Some ""
  | shard :: l' =>
      block ← listShard shard_index shard;
      rest ← listFrom (S shard_index) l';
      Some (block +:+ rest)
  end.

(** [Store::list]: the text it writes. *)
Definition Store_list (st : Store) : option string := listFrom 0 (shards st).

(** The lines of a shard as [Store::list] is meant to show them: the keys of
    the recency sequence, each with the value of the index. *)
Fixpoint renderEntries (kvs : list (string * string)) : string :=
  match kvs with
  | [] => ""
  | (key, v) :: kvs' =>
      "  " +:+ quoted key +:+ ": " +:+ quoted v +:+
      (match kvs' with [] => "" | _ :: _ => "," end) +:+ nl +:+ renderEntries kvs'
  end.

(** The pairs of a shard, most recently used first. *)
Definition shardPairs (sh : Shard) : list (string * string) :=
  (λ k, (k, default "" (valueOf sh k))) <$> recencyKeys sh.

(** The block of a shard and the text of a whole store, from the pairs. *)
Definition blockOf (shard_index : nat) (kvs : list (string * string)) : string :=
  "{ " +:+ quoted ("shard_" +:+ pretty shard_index) +:+ ": {" +:+ nl +:+
  renderEntries kvs +:+ "} }" +:+ nl.

Fixpoint renderFrom (shard_index : nat) (contents : list (list (string * string)))
  : string :=
  match contents with
  | [] => ""
  | kvs :: rest => blockOf shard_index kvs +:+ renderFrom (S shard_index) rest
  end.

(** ** An LRU cache as a list *)

(** The cache the shard is meant to be: its pairs, most recently used
    first, with the three operations done on the list itself. *)
Fixpoint assoc (key : string) (ps : list (string * string)) : option string :=
  match ps with
  | [] => None
  | (k, v) :: ps' => if decide (k = key) then Some v else assoc key ps'
  end.

Definition without (key : string) (ps : list (string * string))
  : list (string * string) :=
  filter (λ p, p.1 ≠ key) ps.

Definition lruPut (C : nat) (key val : string) (ps : list (string * string))
  : list (string * string) :=
  match assoc key ps with
  | Some _ => (key, val) :: without key ps
  | None =>
      if decide (C ≤ length ps) then (key, val) :: removelast ps
      else (key, val) :: ps
  end.

Definition lruGet (key : string) (ps : list (string * string))
  : option string * list (string * string) :=
  match assoc key ps with
  | Some v => (Some v, (key, v) :: without key ps)
  | None => (None, ps)
  end.

Definition lruDel (key : string) (ps : list (string * string))
  : bool * list (string * string) :=
  (bool_decide (is_Some (assoc key ps)), without key ps).

Definition lruStep (C : nat) (ps : list (string * string)) (op : ShardOp)
  : list (string * string) :=
  match op with
  | OpPut key val => lruPut C key val ps
  | OpGet key => (lruGet key ps).2
  | OpDel key => (lruDel key ps).2
  | OpClear => []
  end.

Definition lruRun (C : nat) (ops : list ShardOp) : list (string * string) :=
  foldl (lruStep C) [] ops.

(** ** [class KVStore] (kv_store.{h,cpp}) *)

Module KVStore.

Record t := mk { store_ : gmap string string }.

Definition empty : t := mk ∅.

(** [KVStore::put]: the result, the store and the line written. *)
Definition put (s : t) (key val : string) : bool * t * string :=
  (true, mk (<[key := val]> (store_ s)), "Successfully wrote key: " +:+ key +:+ nl).

(** [KVStore::get]: [value] is the content of the string the pointer
    refers to, or [None] for a null pointer, which is dereferenced only when
    the key is found. *)
Definition get (s : t) (key : string) (value : option string)
  : option (bool * option string * string) :=
  match store_ s !! key with
  | Some v =>
      match value with
      | Some _ => Some (true, Some v, "Successfully read key: " +:+ key +:+ nl)
      | None => None
      end
  | None => Some (false, value, "Key not found: " +:+ key +:+ nl)
  end.

(** [KVStore::del] *)
Definition del (s : t) (key : string) : bool * t * string :=
  let success := bool_decide (is_Some (store_ s !! key)) in
  (success, mk (delete key (store_ s)),
   (if success then "Successfully deleted key: "
    else "Key not found for deletion: ") +:+ key +:+ nl).

End KVStore.

(** ** The two stores side by side *)

(** The single-key operations that both stores offer. *)
Inductive KeyOp :=
| KPut (key val : string)
| KGet (key : string)
| KDel (key : string).

(** What a caller observes of one operation: its result and, for a get, the
    content of a fresh output string after the call. *)
Definition runKeyOpKV (s : KVStore.t) (op : KeyOp) : KVStore.t * (bool * string) :=
  match op with
  | KPut key val => let r := KVStore.put s key val in (r.1.2, (r.1.1, ""))
  | KGet key =>
      match KVStore.get s key (Some "") with
      | Some r => (s, (r.1.1, default "" r.1.2))
      | None => (s, (false, ""))
      end
  | KDel key => let r := KVStore.del s key in (r.1.2, (r.1.1, ""))
  end.

Fixpoint runKeyOpsKV (s : KVStore.t) (ops : list KeyOp) : list (bool * string) :=
  match ops with
  | [] => []
  | op :: ops' => let r := runKeyOpKV s op in r.2 :: runKeyOpsKV r.1 ops'
  end.

Definition runKeyOp (hash : string → nat) (st : Store) (op : KeyOp)
  : option (Store * (bool * string)) :=
  match op with
  | KPut key val => r ← put hash st key val; Some (r.2, (r.1, ""))
  | KGet key => r ← get hash st key ""; Some (r.1.2, (r.1.1, r.2))
  | KDel key => r ← del hash st key; Some (r.2, (r.1, ""))
  end.

Fixpoint runKeyOps (hash : string → nat) (st : Store) (ops : list KeyOp)
  : option (list (bool * string)) :=
  match ops with
  | [] => Some []
  | op :: ops' =>
      r ← runKeyOp hash st op;
      rest ← runKeyOps hash r.1 ops';
      Some (r.2 :: rest)
  end.

(** The keys that a sequence of operations puts. *)
Definition putKeys (ops : list KeyOp) : gset string :=
  list_to_set (omap (λ op, match op with KPut key _ => Some key | _ => None end) ops).

(** ** The command-line front end (server.cpp) *)

(** [std::isspace] in the C locale, which the program never changes: space,
    tab, newline, vertical tab, form feed and carriage return. *)
Definition isspace (c : ascii) : bool := Ascii.is_space c.

(** The characters from the first one that is not white space on:
    [std::find_if(first, last, !isspace)] and what follows it. *)
Fixpoint skipSpaces (l : list ascii) : list ascii :=
  match l with
  | [] => []
  | c :: l' => if isspace c then skipSpaces l' else l
  end.

(** [TrimWhitespace]: erase the leading white space, then, searching from
    the end, the trailing white space. *)
Definition TrimWhitespace (inputString : string) : string :=
  let trimmedString := skipSpaces (String.list_ascii_of_string inputString) in
  let trimmedString := reverse (skipSpaces (reverse trimmedString)) in
  String.string_of_list_ascii trimmedString.

(** White space only. *)
Definition blank (l : list ascii) : Prop := Forall (λ c, isspace c = true) l.

(** [TrimWhitespace] on the characters of the string. *)
Definition trimChars (l : list ascii) : list ascii :=
  reverse (skipSpaces (reverse (skipSpaces l))).

(** A word: not empty, no white space. *)
Definition isWord (s : string) : Prop :=
  s ≠ "" ∧ Forall (λ c, isspace c = false) (String.list_ascii_of_string s).

Global Instance isWord_dec s : Decision (isWord s).
Proof. unfold isWord. apply _. Defined.

(** The characters of a word, up to the next white space, and the rest. *)
Fixpoint readWord (l : list ascii) : list ascii * list ascii :=
  match l with
  | [] => ([], [])
  | c :: l' =>
      if isspace c then ([], l)
      else let r := readWord l' in (c :: r.1, r.2)
  end.

(** [inputStream >> word] into an empty string: skip white space, read a
    word.  At the end of the stream nothing is read and the string stays
    empty. *)
Definition extractWord (stream : list ascii) : string * list ascii :=
  let r := readWord (skipSpaces stream) in (String.string_of_list_ascii r.1, r.2).

Definition kMaximumHistorySize : nat := 50.

(** The update of the history buffer (server.cpp, lines 76-81). *)
Definition recordHistory (commandHistory : list string) (trimmedInputLine : string)
  : list string :=
  if decide (trimmedInputLine = "") then commandHistory
  else
    let h := commandHistory ++ [trimmedInputLine] in
    if decide (kMaximumHistorySize < length h) then tail h else h.

(** The replies of the front end. *)
Definition replySuccess : string :=
  "{ " +:+ quoted "success" +:+ ": true }" +:+ nl.

Definition replyError (message : string) : string :=
  "{ " +:+ quoted "success" +:+ ": false, " +:+ quoted "error" +:+ ": " +:+
  quoted message +:+ " }" +:+ nl.

Definition replyValue (retrievedValue : string) : string :=
  "{ " +:+ quoted "success" +:+ ": true, " +:+ quoted "value" +:+ ": " +:+
  quoted retrievedValue +:+ " }" +:+ nl.

Definition replyUnknown : string :=
  "{ " +:+ quoted "error" +:+ ": " +:+ quoted "Unknown command" +:+ " }" +:+ nl.

Definition helpText : string :=
  "Commands:" +:+ nl +:+
  "  PUT key value    - store key with value" +:+ nl +:+
  "  GET key          - retrieve value for key" +:+ nl +:+
  "  DEL key          - delete key" +:+ nl +:+
  "  LIST             - list all keys (most recent first)" +:+ nl +:+
  "  CLEAR            - remove all keys" +:+ nl +:+
  "  HISTORY          - show recent commands" +:+ nl +:+
  "  HELP             - show this message" +:+ nl +:+
  "  EXIT             - quit" +:+ nl.

Fixpoint historyLines (commandHistory : list string) : string :=
  match commandHistory with
  | [] => ""
  | command :: rest =>
      "  " +:+ quoted command +:+
      (match rest with [] => "" | _ :: _ => "," end) +:+ nl +:+ historyLines rest
  end.

Definition historyText (commandHistory : list string) : string :=
  "{ " +:+ quoted "history" +:+ ": [" +:+ nl +:+ historyLines commandHistory +:+
  "] }" +:+ nl.

(** The state of the loop of [main]. *)
Record Cli := mkCli {
  keyValueStore : Store;
  commandHistory : list string
}.

(** One iteration of the loop of [main] on a line read from standard input:
    whether the loop goes on, the state, and the text written after the
    prompt. *)
Definition processLine (hash : string → nat) (cli : Cli) (userInputLine : string)
  : option (bool * Cli * string) :=
  let trimmedInputLine := TrimWhitespace userInputLine in
  let history := recordHistory (commandHistory cli) trimmedInputLine in
  let st := keyValueStore cli in
  let keyword := extractWord (String.list_ascii_of_string trimmedInputLine) in
  let commandKeyword := keyword.1 in
  if decide (commandKeyword = "PUT") then
    let key := extractWord keyword.2 in
    let val := extractWord key.2 in
    if decide (key.1 = "" ∨ val.1 = "") then
      Some (true, mkCli st history, replyError "PUT requires key and value")
    else
      r ← put hash st key.1 val.1;
      Some (true, mkCli r.2 history, replySuccess)
  else if decide (commandKeyword = "GET") then
    let key := extractWord keyword.2 in
    if decide (key.1 = "") then
      Some (true, mkCli st history, replyError "GET requires key")
    else
      r ← get hash st key.1 "";
      Some (true, mkCli r.1.2 history,
            if (r.1.1 : bool) then replyValue r.2 else replyError "Key not found")
  else if decide (commandKeyword = "DEL") then
    let key := extractWord keyword.2 in
    if decide (key.1 = "") then
      Some (true, mkCli st history, replyError "DEL requires key")
    else
      r ← del hash st key.1;
      Some (true, mkCli r.2 history,
            if (r.1 : bool) then replySuccess else replyError "Key not found")
  else if decide (commandKeyword = "LIST") then
    text ← Store_list st; Some (true, mkCli st history, text)
  else if decide (commandKeyword = "CLEAR") then
    Some (true, mkCli (clear st) history, replySuccess)
  else if decide (commandKeyword = "HELP") then
    Some (true, mkCli st history, helpText)
  else if decide (commandKeyword = "HISTORY") then
    Some (true, mkCli st history, historyText history)
  else if decide (commandKeyword = "EXIT") then
    Some (false, mkCli st history, "")
  else if decide (commandKeyword = "") then
    Some (true, mkCli st history, "")
  else Some (true, mkCli st history, replyUnknown).

(** The loop of [main] over the lines of standard input; it ends at the end
    of the input, after one more prompt, or at an EXIT command. *)
Fixpoint cliLoop (hash : string → nat) (cli : Cli) (lines : list string)
  : option (Cli * string) :=
  match lines with
  | [] => Some (cli, "> ")
  | userInputLine :: rest =>
      r ← processLine hash cli userInputLine;
      if (r.1.1 : bool) then
        r' ← cliLoop hash r.1.2 rest; Some (r'.1, "> " +:+ r.2 +:+ r'.2)
      else Some (r.1.2, "> " +:+ r.2)
  end.

(** [main] of server.cpp: the final state and everything written. *)
Definition cliMain (hash : string → nat) (lines : list string) : option (Cli * string) :=
  r ← cliLoop hash (mkCli (newStore 100 16) []) lines;
  Some (r.1, "Store CLI started. Commands: PUT, GET, DEL, LIST, CLEAR, HELP, HISTORY, EXIT"
             +:+ nl +:+ r.2).

(** The command word of a line. *)
Definition commandOf (userInputLine : string) : string :=
  (extractWord (String.list_ascii_of_string (TrimWhitespace userInputLine))).1.

(** The lines that the loop of [main] reads: up to the first EXIT command,
    which is read too. *)
Fixpoint linesRead (lines : list string) : list string :=
  match lines with
  | [] => []
  | l :: rest => if decide (commandOf l = "EXIT") then [l] else l :: linesRead rest
  end.

(** What the loop of [main] keeps true. *)
Definition cliInv (hash : string → nat) (cli : Cli) : Prop :=
  builtInv hash 100 (keyValueStore cli) ∧
  length (commandHistory cli) ≤ kMaximumHistorySize.

(** The last [n] elements of a list. *)
Definition lastN {A : Type} (n : nat) (l : list A) : list A := drop (length l - n) l.

(** ** Facts about loops *)

Section Loops.
Context {S A : Type}.
Implicit Types (body : S → A → option S) (l : list A).

Lemma foldM_app body s l1 l2 :
  foldM body s (l1 ++ l2) = s' ← foldM body s l1; foldM body s' l2.
Proof.
  revert s. induction l1 as [|a l1 IH]; intros s; simpl; [done|].
  destruct (body s a) as [s'|]; simpl; [apply IH | done].
Qed.

(** A loop whose body is defined on, and preserves, an invariant runs to
    completion and establishes the invariant. *)
Lemma foldM_invariant (P : S → Prop) body s l :
  P s → (∀ s a, P s → ∃ s', body s a = Some s' ∧ P s') →
  ∃ s', foldM body s l = Some s' ∧ P s'.
Proof.
  intros Hs Hstep. revert s Hs. induction l as [|a l IH]; intros s Hs; simpl.
  - by exists s.
  - destruct (Hstep s a Hs) as (s' & -> & Hs'). simpl. by apply IH.
Qed.

(** Partial-correctness form: whatever the loop returns satisfies every
    invariant that the body preserves. *)
Lemma foldM_preserves (P : S → Prop) body s l s' :
  P s → (∀ s a s', P s → body s a = Some s' → P s') →
  foldM body s l = Some s' → P s'.
Proof.
  intros Hs Hstep. revert s Hs. induction l as [|a l IH]; intros s Hs; simpl.
  - by intros [= <-].
  - destruct (body s a) as [s1|] eqn:E; simpl; [|done]. apply IH. by eapply Hstep.
Qed.

End Loops.

(** ** Facts about the recency list *)

Section RecencyFacts.
Import Recency.

Lemma unlink_elem (n : node) (k : string) (l : t) :
  NoDup (nodes l) → (n, k) ∈ l →
  ∃ l1 l2, l = l1 ++ (n, k) :: l2 ∧ unlink n l = Some (k, l1 ++ l2).
Proof.
  unfold nodes. induction l as [|[m k'] l IH]; simpl; intros Hnd Hin.
  - by apply elem_of_nil in Hin.
  - apply NoDup_cons in Hnd as [Hm Hnd].
    apply elem_of_cons in Hin as [Heq|Hin].
    + injection Heq as <- <-. exists [], l. by rewrite decide_True.
    + rewrite decide_False.
      * destruct (IH Hnd Hin) as (l1 & l2 & -> & ->).
        by exists ((m, k') :: l1), l2.
      * intros ->. apply Hm. apply list_elem_of_fmap. by exists (n, k).
Qed.

Lemma unlink_Some (n : node) (k : string) (l r : t) :
  unlink n l = Some (k, r) →
  ∃ l1 l2, l = l1 ++ (n, k) :: l2 ∧ r = l1 ++ l2.
Proof.
  revert r. induction l as [|[m k'] l IH]; simpl; intros r H; [done|].
  case_decide as Hm.
  - injection H as <- <-. subst m. by exists [], l.
  - destruct (unlink n l) as [[k0 r0]|] eqn:E; simpl in H; [|done].
    injection H as <- <-.
    destruct (IH _ eq_refl) as (l1 & l2 & -> & ->).
    by exists ((m, k') :: l1), l2.
Qed.

Lemma fresh_node_not_in (l : t) : fresh_node l ∉ nodes l.
Proof.
  intros Hin. apply max_list_elem_of_le in Hin. unfold fresh_node in Hin. lia.
Qed.

Lemma back_app_cons (l : t) (n : node) (k : string) :
  back (l ++ [(n, k)]) = Some k.
Proof. unfold back. by rewrite last_snoc. Qed.

Lemma pop_back_app_cons (l : t) (x : node * string) :
  pop_back (l ++ [x]) = Some l.
Proof.
  unfold pop_back. rewrite removelast_last.
  by destruct l.
Qed.

Lemma nonempty_snoc (l : t) : l ≠ [] → ∃ l0 n k, l = l0 ++ [(n, k)].
Proof.
  intros Hne. destruct (exists_last Hne) as (l0 & [n k] & ->). eauto.
Qed.

End RecencyFacts.

(** ** The representation invariant *)

Section Invariant.
Import Recency.

Lemma wf_newShard (c : nat) : wf_shard (newShard c).
Proof.
  unfold wf_shard, newShard; simpl. split_and!.
  - constructor.
  - constructor.
  - apply map_Forall_empty.
  - constructor.
Qed.

Lemma wf_clearShard (sh : Shard) : wf_shard (clearShard sh).
Proof. apply (wf_newShard (capacity sh)). Qed.

(** The key set of the index is the key set of the recency list. *)
Lemma wf_dom (sh : Shard) :
  wf_shard sh → dom (store sh) = list_to_set (recencyKeys sh).
Proof.
  intros (_ & _ & Hidx & Hrec). apply set_eq. intros k.
  rewrite elem_of_dom, elem_of_list_to_set. unfold recencyKeys, keys.
  rewrite list_elem_of_fmap. split.
  - intros [e He]. specialize (Hidx k e He). unfold entryLinked in Hidx.
    destruct (recencyIt e) as [n|]; [|done]. by exists (n, k).
  - intros ([n k'] & -> & Hin). rewrite Forall_forall in Hrec.
    apply (Hrec _ Hin).
Qed.

Lemma wf_size (sh : Shard) :
  wf_shard sh → size (store sh) = length (recencyList sh).
Proof.
  intros Hwf. rewrite <- size_dom, (wf_dom sh Hwf).
  destruct Hwf as (_ & Hk & _). rewrite size_list_to_set by done.
  unfold recencyKeys, keys. by rewrite length_fmap.
Qed.

Lemma wf_key_in_list (sh : Shard) (k : string) :
  wf_shard sh → k ∈ recencyKeys sh ↔ is_Some (store sh !! k).
Proof.
  intros Hwf. rewrite <- elem_of_dom, (wf_dom sh Hwf). by rewrite elem_of_list_to_set.
Qed.

(** Relinking a node at the front, and storing a new value for its key. *)
Lemma wf_relink m l1 l2 n key v c :
  wf_shard (mkShard m (l1 ++ (n, key) :: l2) c) →
  wf_shard (mkShard (<[key := mkEntry v (Some n)]> m) ((n, key) :: l1 ++ l2) c).
Proof.
  unfold wf_shard; cbn [recencyList store]. intros (Hn & Hk & Hidx & Hrec).
  assert (Hp : (n, key) :: l1 ++ l2 ≡ₚ l1 ++ (n, key) :: l2)
    by apply Permutation_middle.
  split_and!.
  - unfold nodes in *. by rewrite Hp.
  - unfold keys in *. by rewrite Hp.
  - apply map_Forall_insert_2.
    + unfold entryLinked; simpl. apply elem_of_cons. by left.
    + eapply map_Forall_impl; [exact Hidx|]. intros k e. unfold entryLinked.
      destruct (recencyIt e); [|done]. by rewrite Hp.
  - rewrite Hp. eapply Forall_impl; [exact Hrec|]. intros [n' k'] Hs; simpl in *.
    rewrite lookup_insert_is_Some. destruct (decide (key = k')); auto.
Qed.

(** Unlinking a node and erasing its key. *)
Lemma wf_unlink m l1 l2 n key c :
  wf_shard (mkShard m (l1 ++ (n, key) :: l2) c) →
  wf_shard (mkShard (delete key m) (l1 ++ l2) c).
Proof.
  unfold wf_shard, nodes, keys; cbn [recencyList store].
  intros (Hn & Hk & Hidx & Hrec).
  rewrite fmap_app, fmap_cons in Hn. rewrite fmap_app, fmap_cons in Hk.
  cbn [fst snd] in Hn, Hk.
  assert (Hkey : key ∉ (l1 ++ l2).*2).
  { rewrite fmap_app. apply NoDup_app in Hk as (_ & H1 & H2).
    apply NoDup_cons in H2 as [H2 _]. intros [Hin|Hin]%elem_of_app; [|done].
    apply (H1 _ Hin). apply elem_of_cons. by left. }
  assert (Hne : ∀ n' k', (n', k') ∈ l1 ++ l2 → k' ≠ key).
  { intros n' k' Hin ->. apply Hkey. apply list_elem_of_fmap. by exists (n', key). }
  split_and!.
  - rewrite fmap_app. eapply sublist_NoDup; [exact Hn|].
    apply sublist_app; [done|]. by apply sublist_cons.
  - rewrite fmap_app. eapply sublist_NoDup; [exact Hk|].
    apply sublist_app; [done|]. by apply sublist_cons.
  - intros k e. rewrite lookup_delete_Some. intros [Hk' He].
    specialize (Hidx k e He). unfold entryLinked in *.
    destruct (recencyIt e) as [n'|]; [|done].
    rewrite elem_of_app, elem_of_cons in Hidx. rewrite elem_of_app.
    destruct Hidx as [?|[Heq|?]]; auto. congruence.
  - rewrite Forall_forall in Hrec. apply Forall_forall. intros [n' k'] Hin.
    cbn [snd]. rewrite lookup_delete_is_Some. split.
    + intros ->. by apply (Hne n' k').
    + apply (Hrec (n', k')). rewrite elem_of_app, elem_of_cons.
      apply elem_of_app in Hin as [?|?]; auto.
Qed.

(** Linking a fresh node that holds a new key. *)
Lemma wf_link m l key v c :
  wf_shard (mkShard m l c) → m !! key = None →
  wf_shard (mkShard (<[key := mkEntry v (begin (push_front key l))]> m)
                    (push_front key l) c).
Proof.
  unfold wf_shard, nodes, keys, push_front; cbn [recencyList store].
  intros (Hn & Hk & Hidx & Hrec) Hnone.
  rewrite Forall_forall in Hrec.
  split_and!.
  - rewrite fmap_cons. apply NoDup_cons. split; [apply fresh_node_not_in | done].
  - rewrite fmap_cons. apply NoDup_cons. split; [|done]. cbn [snd].
    intros ([n' k'] & Hk' & Hin)%list_elem_of_fmap. cbn [snd] in Hk'. subst k'.
    specialize (Hrec _ Hin). cbn [snd] in Hrec. rewrite Hnone in Hrec.
    by destruct Hrec.
  - apply map_Forall_insert_2.
    + unfold entryLinked; simpl. apply elem_of_cons. by left.
    + eapply map_Forall_impl; [exact Hidx|]. intros k e. unfold entryLinked.
      destruct (recencyIt e); [|done]. intros ?. apply elem_of_cons. by right.
  - apply Forall_cons. split.
    + cbn [snd]. rewrite lookup_insert_eq. by eexists.
    + apply Forall_forall. intros [n' k'] Hin. cbn [snd].
      rewrite lookup_insert_is_Some. destruct (decide (key = k')); [by left|right].
      split; [done|]. apply (Hrec (n', k') Hin).
Qed.

End Invariant.

(** ** Symbolic execution of the shard operations *)

Section ShardOps.
Import Recency.

(** Under the invariant, the iterator of an entry finds its node. *)
Lemma wf_entry_node (sh : Shard) (key : string) (e : Entry) :
  wf_shard sh → store sh !! key = Some e →
  ∃ n l1 l2, recencyIt e = Some n ∧ recencyList sh = l1 ++ (n, key) :: l2 ∧
             unlink n (recencyList sh) = Some (key, l1 ++ l2).
Proof.
  intros (Hn & _ & Hidx & _) He. specialize (Hidx key e He).
  unfold entryLinked in Hidx. destruct (recencyIt e) as [n|]; [|done].
  destruct (unlink_elem n key _ Hn Hidx) as (l1 & l2 & H1 & H2).
  by exists n, l1, l2.
Qed.

Lemma putInShard_existing (sh : Shard) (key v : string) (e : Entry) :
  wf_shard sh → store sh !! key = Some e →
  ∃ n l1 l2, recencyList sh = l1 ++ (n, key) :: l2 ∧
    putInShard sh key v =
      Some (true, mkShard (<[key := mkEntry v (Some n)]> (store sh))
                          ((n, key) :: l1 ++ l2) (capacity sh)).
Proof.
  intros Hwf He. destruct (wf_entry_node sh key e Hwf He) as (n & l1 & l2 & Hit & Hl & Hu).
  exists n, l1, l2. split; [done|].
  unfold putInShard, splice_begin. rewrite He, Hit. simpl. by rewrite Hu.
Qed.

Lemma getFromShard_present (sh : Shard) (key out : string) (e : Entry) :
  wf_shard sh → store sh !! key = Some e →
  ∃ n l1 l2, recencyList sh = l1 ++ (n, key) :: l2 ∧
    getFromShard sh key out =
      Some (true, mkShard (<[key := mkEntry (value e) (Some n)]> (store sh))
                          ((n, key) :: l1 ++ l2) (capacity sh), value e).
Proof.
  intros Hwf He. destruct (wf_entry_node sh key e Hwf He) as (n & l1 & l2 & Hit & Hl & Hu).
  exists n, l1, l2. split; [done|].
  unfold getFromShard, splice_begin. rewrite He, Hit. simpl. by rewrite Hu.
Qed.

Lemma getFromShard_absent (sh : Shard) (key out : string) :
  store sh !! key = None → getFromShard sh key out = Some (false, sh, out).
Proof. intros He. unfold getFromShard. by rewrite He. Qed.

Lemma delFromShard_present (sh : Shard) (key : string) (e : Entry) :
  wf_shard sh → store sh !! key = Some e →
  ∃ n l1 l2, recencyList sh = l1 ++ (n, key) :: l2 ∧
    delFromShard sh key =
      Some (true, mkShard (delete key (store sh)) (l1 ++ l2) (capacity sh)).
Proof.
  intros Hwf He. destruct (wf_entry_node sh key e Hwf He) as (n & l1 & l2 & Hit & Hl & Hu).
  exists n, l1, l2. split; [done|].
  unfold delFromShard, erase. rewrite He, Hit. simpl. by rewrite Hu.
Qed.

Lemma delFromShard_absent (sh : Shard) (key : string) :
  store sh !! key = None → delFromShard sh key = Some (false, sh).
Proof. intros He. unfold delFromShard. by rewrite He. Qed.

Lemma evictIfFull_room (sh : Shard) :
  size (store sh) < capacity sh → evictIfFull sh = Some sh.
Proof. intros Hlt. unfold evictIfFull. rewrite decide_False; [done|lia]. Qed.

Lemma evictIfFull_full (sh : Shard) (l0 : t) (n : node) (lru : string) :
  capacity sh ≤ size (store sh) → recencyList sh = l0 ++ [(n, lru)] →
  evictIfFull sh = Some (mkShard (delete lru (store sh)) l0 (capacity sh)).
Proof.
  intros Hle Hl. unfold evictIfFull. rewrite decide_True by done.
  rewrite Hl, back_app_cons, pop_back_app_cons. done.
Qed.

(** The eviction block never reads an empty list when sizes agree. *)
Lemma evict_list_nonempty (sh : Shard) :
  1 ≤ capacity sh → size (store sh) = length (recencyList sh) →
  capacity sh ≤ size (store sh) → recencyList sh ≠ [].
Proof. intros Hc Hs Hle Hnil. rewrite Hnil in Hs. simpl in Hs. lia. Qed.

Lemma evictIfFull_Some (sh sh1 : Shard) :
  evictIfFull sh = Some sh1 →
  (size (store sh) < capacity sh ∧ sh1 = sh) ∨
  (capacity sh ≤ size (store sh) ∧
   ∃ l0 n lru, recencyList sh = l0 ++ [(n, lru)] ∧
               sh1 = mkShard (delete lru (store sh)) l0 (capacity sh)).
Proof.
  unfold evictIfFull. case_decide as Hc.
  - intros H. right. split; [done|].
    destruct (decide (recencyList sh = [])) as [Hnil|Hne].
    { by rewrite Hnil in H. }
    destruct (nonempty_snoc _ Hne) as (l0 & n & lru & Hl).
    rewrite Hl, back_app_cons, pop_back_app_cons in H. simpl in H.
    injection H as <-. by exists l0, n, lru.
  - intros [= <-]. left. split; [lia|done].
Qed.

Lemma evictIfFull_defined (sh : Shard) :
  wf_shard sh → 1 ≤ capacity sh → is_Some (evictIfFull sh).
Proof.
  intros Hwf Hc. destruct (decide (capacity sh ≤ size (store sh))) as [Hle|Hlt].
  - pose proof (evict_list_nonempty sh Hc (wf_size sh Hwf) Hle) as Hne.
    destruct (nonempty_snoc _ Hne) as (l0 & n & lru & Hl).
    rewrite (evictIfFull_full sh l0 n lru Hle Hl). by eexists.
  - rewrite evictIfFull_room by lia. by eexists.
Qed.

Lemma evictIfFull_wf (sh sh1 : Shard) :
  wf_shard sh → evictIfFull sh = Some sh1 → wf_shard sh1.
Proof.
  intros Hwf [[_ ->]|(_ & l0 & n & lru & Hl & ->)]%evictIfFull_Some; [done|].
  rewrite <- (app_nil_r l0). apply (wf_unlink _ l0 [] n lru).
  destruct sh as [m l c]. simpl in *. by subst l.
Qed.

Lemma evictIfFull_capacity (sh sh1 : Shard) :
  evictIfFull sh = Some sh1 → capacity sh1 = capacity sh.
Proof. by intros [[_ ->]|(_ & l0 & n & lru & Hl & ->)]%evictIfFull_Some. Qed.

Lemma evictIfFull_keeps_absent (sh sh1 : Shard) (key : string) :
  evictIfFull sh = Some sh1 → store sh !! key = None → store sh1 !! key = None.
Proof.
  intros [[_ ->]|(_ & l0 & n & lru & Hl & ->)]%evictIfFull_Some Hk; [done|].
  simpl. rewrite lookup_delete_None. by right.
Qed.

Lemma putInShard_new (sh : Shard) (key v : string) :
  store sh !! key = None →
  putInShard sh key v =
    sh1 ← evictIfFull sh;
    Some (true,
          mkShard (<[key := mkEntry v (begin (push_front key (recencyList sh1)))]>
                     (store sh1))
                  (push_front key (recencyList sh1)) (capacity sh)).
Proof.
  intros He. unfold putInShard. rewrite He.
  destruct (evictIfFull sh) as [sh1|] eqn:E; [|done]. simpl.
  unfold emplace. rewrite (evictIfFull_keeps_absent _ _ _ E He).
  by rewrite (evictIfFull_capacity _ _ E).
Qed.

Lemma putInShard_wf (sh : Shard) (key v : string) (r : bool * Shard) :
  wf_shard sh → putInShard sh key v = Some r → wf_shard r.2.
Proof.
  intros Hwf. destruct (store sh !! key) as [e|] eqn:He.
  - destruct (putInShard_existing sh key v e Hwf He) as (n & l1 & l2 & Hl & ->).
    intros [= <-]. simpl. apply wf_relink.
    destruct sh as [m l c]. simpl in *. by subst l.
  - rewrite (putInShard_new sh key v He).
    destruct (evictIfFull sh) as [sh1|] eqn:E; [|done]. simpl. intros [= <-]. simpl.
    pose proof (evictIfFull_wf _ _ Hwf E) as Hwf1.
    pose proof (evictIfFull_keeps_absent _ _ _ E He) as He1.
    destruct sh1 as [m1 l1 c1]. simpl in *. by apply wf_link with (c := c1).
Qed.

Lemma putInShard_defined (sh : Shard) (key v : string) :
  wf_shard sh → 1 ≤ capacity sh → ∃ sh', putInShard sh key v = Some (true, sh').
Proof.
  intros Hwf Hc. destruct (store sh !! key) as [e|] eqn:He.
  - destruct (putInShard_existing sh key v e Hwf He) as (n & l1 & l2 & Hl & ->).
    by eexists.
  - rewrite (putInShard_new sh key v He).
    destruct (evictIfFull_defined sh Hwf Hc) as [sh1 ->]. by eexists.
Qed.

Lemma putInShard_capacity (sh : Shard) (key v : string) (r : bool * Shard) :
  putInShard sh key v = Some r → capacity r.2 = capacity sh.
Proof.
  unfold putInShard. destruct (store sh !! key).
  - destruct (splice_begin _ _); simpl; [|done]. by intros [= <-].
  - destruct (evictIfFull sh) as [sh1|] eqn:E; simpl; [|done]. intros [= <-].
    simpl. by apply evictIfFull_capacity.
Qed.

End ShardOps.

(** ** Preservation of the invariant and of the capacity bound *)

Section Preservation.
Import Recency.

Lemma getFromShard_wf (sh : Shard) (key out : string) (r : bool * Shard * string) :
  wf_shard sh → getFromShard sh key out = Some r → wf_shard r.1.2.
Proof.
  intros Hwf. destruct (store sh !! key) as [e|] eqn:He.
  - destruct (getFromShard_present sh key out e Hwf He) as (n & l1 & l2 & Hl & ->).
    intros [= <-]. simpl. apply wf_relink.
    destruct sh as [m l c]. simpl in *. by subst l.
  - rewrite (getFromShard_absent sh key out He). by intros [= <-].
Qed.

Lemma getFromShard_defined (sh : Shard) (key out : string) :
  wf_shard sh → is_Some (getFromShard sh key out).
Proof.
  intros Hwf. destruct (store sh !! key) as [e|] eqn:He.
  - destruct (getFromShard_present sh key out e Hwf He) as (n & l1 & l2 & Hl & ->).
    by eexists.
  - rewrite (getFromShard_absent sh key out He). by eexists.
Qed.

Lemma getFromShard_capacity (sh : Shard) (key out : string) (r : bool * Shard * string) :
  getFromShard sh key out = Some r → capacity r.1.2 = capacity sh.
Proof.
  unfold getFromShard. destruct (store sh !! key).
  - destruct (splice_begin _ _); simpl; [|done]. by intros [= <-].
  - by intros [= <-].
Qed.

Lemma getFromShard_size (sh : Shard) (key out : string) (r : bool * Shard * string) :
  getFromShard sh key out = Some r → size (store r.1.2) = size (store sh).
Proof.
  unfold getFromShard. destruct (store sh !! key) eqn:He.
  - destruct (splice_begin _ _); simpl; [|done]. intros [= <-]. simpl.
    apply map_size_insert_Some. by eexists.
  - by intros [= <-].
Qed.

Lemma delFromShard_wf (sh : Shard) (key : string) (r : bool * Shard) :
  wf_shard sh → delFromShard sh key = Some r → wf_shard r.2.
Proof.
  intros Hwf. destruct (store sh !! key) as [e|] eqn:He.
  - destruct (delFromShard_present sh key e Hwf He) as (n & l1 & l2 & Hl & ->).
    intros [= <-]. simpl. apply wf_unlink with (n := n).
    destruct sh as [m l c]. simpl in *. by subst l.
  - rewrite (delFromShard_absent sh key He). by intros [= <-].
Qed.

Lemma delFromShard_defined (sh : Shard) (key : string) :
  wf_shard sh → is_Some (delFromShard sh key).
Proof.
  intros Hwf. destruct (store sh !! key) as [e|] eqn:He.
  - destruct (delFromShard_present sh key e Hwf He) as (n & l1 & l2 & Hl & ->).
    by eexists.
  - rewrite (delFromShard_absent sh key He). by eexists.
Qed.

Lemma delFromShard_capacity (sh : Shard) (key : string) (r : bool * Shard) :
  delFromShard sh key = Some r → capacity r.2 = capacity sh.
Proof.
  unfold delFromShard. destruct (store sh !! key).
  - destruct (erase _ _); simpl; [|done]. by intros [= <-].
  - by intros [= <-].
Qed.

Lemma delFromShard_size (sh : Shard) (key : string) (r : bool * Shard) :
  delFromShard sh key = Some r → size (store r.2) ≤ size (store sh).
Proof.
  unfold delFromShard. destruct (store sh !! key) eqn:He.
  - destruct (erase _ _); simpl; [|done]. intros [= <-]. simpl.
    rewrite map_size_delete, He. simpl. lia.
  - by intros [= <-].
Qed.

(** An existing key is overwritten in place: the size does not change. *)
Lemma putInShard_size_existing (sh : Shard) (key v : string) (r : bool * Shard) :
  is_Some (store sh !! key) → putInShard sh key v = Some r →
  size (store r.2) = size (store sh).
Proof.
  intros [e He]. unfold putInShard. rewrite He.
  destruct (splice_begin _ _); simpl; [|done]. intros [= <-]. simpl.
  apply map_size_insert_Some. by eexists.
Qed.

(** The eviction block leaves room for one more key in a shard that
    respects its capacity. *)
Lemma evictIfFull_size (sh sh1 : Shard) :
  wf_shard sh → size (store sh) ≤ capacity sh →
  evictIfFull sh = Some sh1 → size (store sh1) < capacity sh.
Proof.
  intros Hwf Hle [[Hlt ->]|(Hge & l0 & n & lru & Hl & ->)]%evictIfFull_Some; [done|].
  simpl. assert (Hin : is_Some (store sh !! lru)).
  { apply (wf_key_in_list sh lru Hwf). unfold recencyKeys, keys.
    rewrite Hl, fmap_app. apply elem_of_app. right. simpl. apply elem_of_cons. by left. }
  rewrite (map_size_delete_Some _ _ Hin).
  pose proof (map_size_ne_0_lookup_2 _ _ Hin). lia.
Qed.

Lemma putInShard_size_le (sh : Shard) (key v : string) (r : bool * Shard) :
  wf_shard sh → size (store sh) ≤ capacity sh →
  putInShard sh key v = Some r → size (store r.2) ≤ capacity sh.
Proof.
  intros Hwf Hle Hput. destruct (store sh !! key) as [e|] eqn:He.
  - rewrite (putInShard_size_existing sh key v r); eauto.
  - rewrite (putInShard_new sh key v He) in Hput.
    destruct (evictIfFull sh) as [sh1|] eqn:E; [|done]. simpl in Hput.
    injection Hput as <-. simpl.
    pose proof (evictIfFull_size _ _ Hwf Hle E) as Hlt.
    rewrite map_size_insert_None; [lia|].
    by apply (evictIfFull_keeps_absent _ _ _ E).
Qed.

Lemma shardInv_new (C : nat) : shardInv C (newShard C).
Proof.
  split_and!; [apply wf_newShard | done |]. simpl. rewrite map_size_empty. lia.
Qed.

Lemma shardInv_put (C : nat) (sh : Shard) (key v : string) :
  1 ≤ C → shardInv C sh →
  ∃ sh', putInShard sh key v = Some (true, sh') ∧ shardInv C sh'.
Proof.
  intros HC (Hwf & Hc & Hs). subst C.
  destruct (putInShard_defined sh key v Hwf HC) as [sh' Hput].
  exists sh'. split; [done|]. split_and!.
  - apply (putInShard_wf _ _ _ _ Hwf Hput).
  - apply (putInShard_capacity _ _ _ _ Hput).
  - apply (putInShard_size_le _ _ _ _ Hwf Hs Hput).
Qed.

Lemma shardInv_step (C : nat) (sh : Shard) (op : ShardOp) :
  1 ≤ C → shardInv C sh → ∃ sh', stepShard sh op = Some sh' ∧ shardInv C sh'.
Proof.
  intros HC Hinv. destruct op as [key v|key|key|]; simpl.
  - destruct (shardInv_put C sh key v HC Hinv) as (sh' & -> & Hinv'). by exists sh'.
  - destruct Hinv as (Hwf & Hc & Hs).
    destruct (getFromShard_defined sh key "" Hwf) as [r Hr]. rewrite Hr. simpl.
    exists r.1.2. split; [done|]. split_and!.
    + apply (getFromShard_wf _ _ _ _ Hwf Hr).
    + by rewrite (getFromShard_capacity _ _ _ _ Hr).
    + by rewrite (getFromShard_size _ _ _ _ Hr).
  - destruct Hinv as (Hwf & Hc & Hs).
    destruct (delFromShard_defined sh key Hwf) as [r Hr]. rewrite Hr. simpl.
    exists r.2. split; [done|]. split_and!.
    + apply (delFromShard_wf _ _ _ Hwf Hr).
    + by rewrite (delFromShard_capacity _ _ _ Hr).
    + pose proof (delFromShard_size _ _ _ Hr). lia.
  - exists (clearShard sh). split; [done|]. destruct Hinv as (_ & <- & _).
    apply (shardInv_new (capacity sh)).
Qed.

End Preservation.

(** ** The recency order and the stored values after each operation *)

Section RecencyOrder.
Import Recency.

Lemma filter_ne_not_in (k : string) (ks : list string) :
  k ∉ ks → filter (λ x, x ≠ k) ks = ks.
Proof.
  induction ks as [|x ks IH]; [done|]. intros Hk.
  apply not_elem_of_cons in Hk as [Hx Hk].
  rewrite filter_cons_True by done. by rewrite IH.
Qed.

Lemma touch_middle (k : string) (ks1 ks2 : list string) :
  NoDup (ks1 ++ k :: ks2) → touch k (ks1 ++ k :: ks2) = k :: ks1 ++ ks2.
Proof.
  intros (_ & H1 & [H2 _]%NoDup_cons)%NoDup_app. unfold touch.
  rewrite filter_app, filter_cons_False by (intros H; by apply H).
  rewrite !filter_ne_not_in; [done|done|].
  intros Hin. apply (H1 _ Hin). apply elem_of_cons. by left.
Qed.

Lemma recencyKeys_middle (sh : Shard) l1 l2 n key :
  recencyList sh = l1 ++ (n, key) :: l2 →
  recencyKeys sh = keys l1 ++ key :: keys l2.
Proof. intros Hl. unfold recencyKeys, keys. by rewrite Hl, fmap_app. Qed.

(** [putInShard] on a key of the shard. *)
Lemma putInShard_existing_spec (sh : Shard) (key v : string) :
  wf_shard sh → is_Some (store sh !! key) →
  ∃ sh', putInShard sh key v = Some (true, sh') ∧
         recencyKeys sh' = touch key (recencyKeys sh) ∧
         valueOf sh' key = Some v ∧
         (∀ k, k ≠ key → valueOf sh' k = valueOf sh k) ∧
         dom (store sh') = dom (store sh) ∧
         size (store sh') = size (store sh).
Proof.
  intros Hwf [e He].
  destruct (putInShard_existing sh key v e Hwf He) as (n & l1 & l2 & Hl & Hput).
  eexists. split; [exact Hput|]. unfold valueOf; cbn [store]. split_and!.
  - rewrite (recencyKeys_middle sh l1 l2 n key Hl), touch_middle.
    + unfold recencyKeys, keys. simpl. by rewrite fmap_app.
    + rewrite <- (recencyKeys_middle sh l1 l2 n key Hl). apply Hwf.
  - by rewrite lookup_insert_eq.
  - intros k Hk. by rewrite lookup_insert_ne.
  - apply dom_insert_lookup_L. by eexists.
  - apply map_size_insert_Some. by eexists.
Qed.

(** [getFromShard] on a key of the shard. *)
Lemma getFromShard_present_spec (sh : Shard) (key out : string) :
  wf_shard sh → is_Some (store sh !! key) →
  ∃ sh' v, getFromShard sh key out = Some (true, sh', v) ∧
           valueOf sh key = Some v ∧
           recencyKeys sh' = touch key (recencyKeys sh) ∧
           (∀ k, valueOf sh' k = valueOf sh k).
Proof.
  intros Hwf [e He].
  destruct (getFromShard_present sh key out e Hwf He) as (n & l1 & l2 & Hl & Hget).
  eexists _, _. split; [exact Hget|]. unfold valueOf; cbn [store]. split_and!.
  - by rewrite He.
  - rewrite (recencyKeys_middle sh l1 l2 n key Hl), touch_middle.
    + unfold recencyKeys, keys. simpl. by rewrite fmap_app.
    + rewrite <- (recencyKeys_middle sh l1 l2 n key Hl). apply Hwf.
  - intros k. destruct (decide (k = key)) as [->|Hk].
    + by rewrite lookup_insert_eq, He.
    + by rewrite lookup_insert_ne.
Qed.

(** [putInShard] of a new key into a shard that has room. *)
Lemma putInShard_room_spec (sh : Shard) (key v : string) :
  store sh !! key = None → size (store sh) < capacity sh →
  ∃ sh', putInShard sh key v = Some (true, sh') ∧
         recencyKeys sh' = key :: recencyKeys sh ∧
         valueOf sh' key = Some v ∧
         (∀ k, k ≠ key → valueOf sh' k = valueOf sh k).
Proof.
  intros He Hlt. rewrite (putInShard_new sh key v He), (evictIfFull_room sh Hlt).
  eexists. split; [done|]. unfold valueOf; cbn [store]. split_and!.
  - done.
  - by rewrite lookup_insert_eq.
  - intros k Hk. by rewrite lookup_insert_ne.
Qed.

(** [putInShard] of a new key into a full shard: the key at the back of the
    recency sequence is evicted. *)
Lemma putInShard_full_spec (sh : Shard) (key v : string) :
  wf_shard sh → 1 ≤ capacity sh →
  store sh !! key = None → capacity sh ≤ size (store sh) →
  ∃ sh' ks lru, putInShard sh key v = Some (true, sh') ∧
         recencyKeys sh = ks ++ [lru] ∧
         recencyKeys sh' = key :: ks ∧
         valueOf sh' key = Some v ∧
         valueOf sh' lru = None ∧
         (∀ k, k ≠ key → k ≠ lru → valueOf sh' k = valueOf sh k).
Proof.
  intros Hwf Hc He Hle.
  pose proof (evict_list_nonempty sh Hc (wf_size sh Hwf) Hle) as Hne.
  destruct (nonempty_snoc _ Hne) as (l0 & n & lru & Hl).
  rewrite (putInShard_new sh key v He), (evictIfFull_full sh l0 n lru Hle Hl).
  assert (Hlru : lru ≠ key).
  { intros ->. assert (Hin : key ∈ recencyKeys sh).
    { unfold recencyKeys, keys. rewrite Hl, fmap_app. apply elem_of_app. right.
      apply elem_of_cons. by left. }
    apply (wf_key_in_list sh key Hwf) in Hin. rewrite He in Hin. by destruct Hin. }
  eexists _, (keys l0), lru. split; [done|]. unfold valueOf; cbn [store]. split_and!.
  - unfold recencyKeys, keys. by rewrite Hl, fmap_app.
  - done.
  - by rewrite lookup_insert_eq.
  - rewrite lookup_insert_ne by done. by rewrite lookup_delete_eq.
  - intros k Hk1 Hk2. rewrite lookup_insert_ne by done. by rewrite lookup_delete_ne.
Qed.

Lemma putBatch_snoc (sh : Shard) (kvs : list (string * string)) (kv : string * string) :
  putBatch sh (kvs ++ [kv]) =
    sh' ← putBatch sh kvs; r ← putInShard sh' kv.1 kv.2; Some r.2.
Proof.
  unfold putBatch. rewrite foldM_app. destruct (foldM _ sh kvs) as [sh'|]; [|done].
  simpl. by destruct (putInShard sh' kv.1 kv.2).
Qed.

(** Distinct keys put into an empty shard that has room for all of them:
    nothing is evicted, and the last key put is the most recently used. *)
Lemma putBatch_distinct_room (C : nat) (kvs : list (string * string)) :
  NoDup kvs.*1 → length kvs ≤ C →
  ∃ sh, putBatch (newShard C) kvs = Some sh ∧ wf_shard sh ∧ capacity sh = C ∧
        recencyKeys sh = reverse kvs.*1 ∧
        ∀ k v, (k, v) ∈ kvs → valueOf sh k = Some v.
Proof.
  induction kvs as [|[k v] kvs IH] using rev_ind; intros Hnd Hlen.
  - exists (newShard C). split_and!; try done.
    + apply wf_newShard.
    + intros k v Hin. by apply elem_of_nil in Hin.
  - rewrite fmap_app in Hnd. rewrite length_app in Hlen. simpl in Hnd, Hlen.
    apply NoDup_app in Hnd as (Hnd & Hk & _).
    destruct (IH Hnd ltac:(lia)) as (sh & Hsh & Hwf & Hc & Hks & Hv).
    assert (Hnew : store sh !! k = None).
    { apply eq_None_not_Some. rewrite <- (wf_key_in_list sh k Hwf), Hks.
      rewrite elem_of_reverse. intros Hin. apply (Hk _ Hin). apply elem_of_cons. by left. }
    assert (Hroom : size (store sh) < capacity sh).
    { rewrite (wf_size sh Hwf), Hc.
      assert (length (recencyKeys sh) = length kvs) as Hl
        by (by rewrite Hks, length_reverse, length_fmap).
      unfold recencyKeys, keys in Hl. rewrite length_fmap in Hl. lia. }
    destruct (putInShard_room_spec sh k v Hnew Hroom) as (sh' & Hput & Hks' & Hvk & Hvo).
    exists sh'. rewrite putBatch_snoc, Hsh. simpl. rewrite Hput. simpl.
    split_and!; try done.
    + apply (putInShard_wf sh k v _ Hwf Hput).
    + pose proof (putInShard_capacity sh k v _ Hput) as Hc'. simpl in Hc'. congruence.
    + rewrite Hks', Hks, fmap_app. change ([(k, v)].*1) with [k].
      by rewrite reverse_snoc.
    + intros k' v' [Hin|Hin]%elem_of_app.
      * rewrite Hvo; [by apply Hv|]. intros ->. apply (Hk k).
        -- apply list_elem_of_fmap. by exists (k, v').
        -- apply elem_of_cons. by left.
      * apply list_elem_of_singleton in Hin. by injection Hin as -> ->.
Qed.

(** One key more than the capacity: the first key put is the one evicted. *)
Lemma putBatch_distinct_overflow (C : nat) (k0 v0 : string)
    (rest : list (string * string)) :
  1 ≤ C → length rest = C → NoDup (k0 :: rest.*1) →
  ∃ sh, putBatch (newShard C) ((k0, v0) :: rest) = Some sh ∧
        recencyKeys sh = reverse rest.*1 ∧
        valueOf sh k0 = None ∧
        ∀ k v, (k, v) ∈ rest → valueOf sh k = Some v.
Proof.
  intros HC Hlen Hnd.
  destruct rest as [|kvl rest0 _] using rev_ind; [simpl in Hlen; lia|].
  destruct kvl as [kl vl]. rewrite length_app in Hlen. simpl in Hlen.
  rewrite fmap_app in Hnd. simpl in Hnd.
  assert (Hnd0 : NoDup (((k0, v0) :: rest0).*1) ∧ kl ∉ ((k0, v0) :: rest0).*1).
  { rewrite fmap_cons. simpl. rewrite app_comm_cons in Hnd.
    apply NoDup_app in Hnd as (Hnd & Hk & _). split; [done|].
    intros Hin. apply (Hk _ Hin). apply elem_of_cons. by left. }
  destruct Hnd0 as [Hnd0 Hkl].
  destruct (putBatch_distinct_room C ((k0, v0) :: rest0) Hnd0 ltac:(simpl; lia))
    as (sh & Hsh & Hwf & Hc & Hks & Hv).
  assert (Hnew : store sh !! kl = None).
  { apply eq_None_not_Some. rewrite <- (wf_key_in_list sh kl Hwf), Hks.
    by rewrite elem_of_reverse. }
  assert (Hfull : capacity sh ≤ size (store sh)).
  { rewrite (wf_size sh Hwf), Hc.
    assert (length (recencyKeys sh) = S (length rest0)) as Hl
      by (by rewrite Hks, length_reverse, length_fmap).
    unfold recencyKeys, keys in Hl. rewrite length_fmap in Hl. lia. }
  destruct (putInShard_full_spec sh kl vl Hwf ltac:(lia) Hnew Hfull)
    as (sh' & ks & lru & Hput & Hks0 & Hks' & Hvk & Hvl & Hvo).
  rewrite Hks, fmap_cons, reverse_cons in Hks0. simpl in Hks0.
  apply app_inj_tail in Hks0 as [<- <-].
  exists sh'. rewrite app_comm_cons, putBatch_snoc, Hsh. simpl. rewrite Hput. simpl.
  split_and!; try done.
  - rewrite Hks', fmap_app. change ([(kl, vl)].*1) with [kl].
    by rewrite reverse_snoc.
  - intros k v [Hin|Hin]%elem_of_app.
    + assert (Hkin : k ∈ rest0.*1) by (apply list_elem_of_fmap; by exists (k, v)).
      rewrite Hvo.
      * apply Hv. apply elem_of_cons. by right.
      * intros ->. apply Hkl. rewrite fmap_cons. apply elem_of_cons. by right.
      * intros ->. rewrite fmap_cons in Hnd0. simpl in Hnd0.
        by apply NoDup_cons in Hnd0 as [? _].
    + apply list_elem_of_singleton in Hin. by injection Hin as -> ->.
Qed.

End RecencyOrder.

(** ** The store: routing and delegation *)

Section StoreFacts.
Variable hash : string → nat.

Lemma shardIndex_Some (st : Store) (key : string) :
  shards st ≠ [] →
  shardIndex hash st key = Some (hash key mod length (shards st)) ∧
  hash key mod length (shards st) < length (shards st).
Proof.
  intros Hne. unfold shardIndex.
  assert (length (shards st) ≠ 0) by (by destruct (shards st)).
  rewrite decide_False by done. split; [done|]. by apply Nat.mod_upper_bound.
Qed.

Lemma shardIndex_None (st : Store) (key : string) :
  shards st = [] → shardIndex hash st key = None.
Proof. intros Hnil. unfold shardIndex. by rewrite Hnil. Qed.

Lemma shardIndex_lt (st : Store) (key : string) (i : nat) :
  shardIndex hash st key = Some i → i < length (shards st).
Proof.
  unfold shardIndex. case_decide; [done|]. intros [= <-].
  by apply Nat.mod_upper_bound.
Qed.

Lemma shardOf_defined (st : Store) (key : string) :
  shards st ≠ [] → ∃ i sh, shardIndex hash st key = Some i ∧
                            shards st !! i = Some sh ∧ shardOf hash st key = Some sh.
Proof.
  intros Hne. destruct (shardIndex_Some st key Hne) as [Hi Hlt].
  destruct (lookup_lt_is_Some_2 _ _ Hlt) as [sh Hsh].
  eexists _, sh. unfold shardOf. rewrite Hi. simpl. by rewrite Hsh.
Qed.

Lemma put_shard (st : Store) (key v : string) (i : nat) (sh : Shard) :
  shardIndex hash st key = Some i → shards st !! i = Some sh →
  put hash st key v =
    r ← putInShard sh key v; Some (r.1, mkStore (<[i := r.2]> (shards st))).
Proof. intros Hi Hsh. unfold put. rewrite Hi. simpl. by rewrite Hsh. Qed.

Lemma get_shard (st : Store) (key out : string) (i : nat) (sh : Shard) :
  shardIndex hash st key = Some i → shards st !! i = Some sh →
  get hash st key out =
    r ← getFromShard sh key out;
    Some (r.1.1, mkStore (<[i := r.1.2]> (shards st)), r.2).
Proof. intros Hi Hsh. unfold get. rewrite Hi. simpl. by rewrite Hsh. Qed.

Lemma del_shard (st : Store) (key : string) (i : nat) (sh : Shard) :
  shardIndex hash st key = Some i → shards st !! i = Some sh →
  del hash st key =
    r ← delFromShard sh key; Some (r.1, mkStore (<[i := r.2]> (shards st))).
Proof. intros Hi Hsh. unfold del. rewrite Hi. simpl. by rewrite Hsh. Qed.

(** The number of shards never changes. *)
Lemma put_length (st : Store) (key v : string) (r : bool * Store) :
  put hash st key v = Some r → length (shards r.2) = length (shards st).
Proof.
  unfold put. destruct (shardIndex hash st key) as [i|]; simpl; [|done].
  destruct (shards st !! i) as [sh|]; simpl; [|done].
  destruct (putInShard sh key v) as [r'|]; simpl; [|done].
  intros [= <-]. simpl. apply length_insert.
Qed.

Lemma get_length (st : Store) (key out : string) (r : bool * Store * string) :
  get hash st key out = Some r → length (shards r.1.2) = length (shards st).
Proof.
  unfold get. destruct (shardIndex hash st key) as [i|]; simpl; [|done].
  destruct (shards st !! i) as [sh|]; simpl; [|done].
  destruct (getFromShard sh key out) as [r'|]; simpl; [|done].
  intros [= <-]. simpl. apply length_insert.
Qed.

Lemma del_length (st : Store) (key : string) (r : bool * Store) :
  del hash st key = Some r → length (shards r.2) = length (shards st).
Proof.
  unfold del. destruct (shardIndex hash st key) as [i|]; simpl; [|done].
  destruct (shards st !! i) as [sh|]; simpl; [|done].
  destruct (delFromShard sh key) as [r'|]; simpl; [|done].
  intros [= <-]. simpl. apply length_insert.
Qed.

Lemma clear_length (st : Store) : length (shards (clear st)) = length (shards st).
Proof. unfold clear. simpl. apply length_fmap. Qed.

Lemma putManyShard_length bs (st st' : Store) (i : nat) :
  putManyShard bs st i = Some st' → length (shards st') = length (shards st).
Proof.
  unfold putManyShard. destruct (bs !! i) as [[|kv b]|]; simpl; [| |done].
  - by intros [= <-].
  - destruct (shards st !! i) as [sh|]; simpl; [|done].
    destruct (putBatch sh (kv :: b)) as [sh'|]; simpl; [|done].
    intros [= <-]. simpl. apply length_insert.
Qed.

Lemma putMany_length (st st' : Store) (kvs : list (string * string)) :
  putMany hash st kvs = Some st' → length (shards st') = length (shards st).
Proof.
  unfold putMany. destruct (assignBatches hash st kvs) as [bs|]; simpl; [|done].
  apply (foldM_preserves (λ s, length (shards s) = length (shards st))); [done|].
  intros s i s' Hs Hstep. rewrite <- Hs. by eapply putManyShard_length.
Qed.

Lemma stepStore_length (st st' : Store) (op : StoreOp) :
  stepStore hash st op = Some st' → length (shards st') = length (shards st).
Proof.
  destruct op as [key v|key|key|kvs|]; simpl.
  - destruct (put hash st key v) as [r|] eqn:E; simpl; [|done]. intros [= <-].
    by eapply put_length.
  - destruct (get hash st key "") as [r|] eqn:E; simpl; [|done]. intros [= <-].
    by eapply get_length.
  - destruct (del hash st key) as [r|] eqn:E; simpl; [|done]. intros [= <-].
    by eapply del_length.
  - apply putMany_length.
  - intros [= <-]. apply clear_length.
Qed.

Lemma runStore_length (st st' : Store) (ops : list StoreOp) :
  runStore hash st ops = Some st' → length (shards st') = length (shards st).
Proof.
  apply (foldM_preserves (λ s, length (shards s) = length (shards st))); [done|].
  intros s op s' Hs Hstep. rewrite <- Hs. by eapply stepStore_length.
Qed.

(** Routing depends on the key and on the number of shards only. *)
Lemma shardIndex_length (st1 st2 : Store) (key : string) :
  length (shards st1) = length (shards st2) →
  shardIndex hash st1 key = shardIndex hash st2 key.
Proof. intros Hlen. unfold shardIndex. by rewrite Hlen. Qed.

End StoreFacts.

(** ** The batched path against the single-key path *)

Section BatchEquivalence.
Variable hash : string → nat.

Lemma mapShardsFrom_id (k : nat) (l : list Shard) :
  mapShardsFrom (λ _ sh, Some sh) k l = Some l.
Proof. revert k. induction l as [|x l IH]; intros k; simpl; [done|]. by rewrite IH. Qed.

Lemma mapShardsFrom_ext f g (k : nat) (l : list Shard) :
  (∀ i sh, k ≤ i → f i sh = g i sh) → mapShardsFrom f k l = mapShardsFrom g k l.
Proof.
  revert k. induction l as [|x l IH]; intros k Hfg; simpl; [done|].
  rewrite (Hfg k x) by lia. destruct (g k x); simpl; [|done].
  rewrite (IH (S k)); [done|]. intros i sh Hi. apply Hfg. lia.
Qed.

(** Running one more step [h] on the shard [j] first. *)
Lemma mapShardsFrom_update f f' (h : Shard → option Shard) (k j : nat)
    (l : list Shard) (x : Shard) :
  l !! j = Some x →
  (∀ i sh, i ≠ k + j → f' i sh = f i sh) →
  (∀ sh, f' (k + j) sh = sh' ← h sh; f (k + j) sh') →
  mapShardsFrom f' k l = sh' ← h x; mapShardsFrom f k (<[j := sh']> l).
Proof.
  revert k j. induction l as [|a l IH]; intros k j; [done|].
  destruct j as [|j]; simpl.
  - intros [= ->] Hne Heq. rewrite Nat.add_0_r in Heq. rewrite Heq.
    destruct (h x) as [sh'|]; simpl; [|done].
    rewrite (mapShardsFrom_ext f' f (S k) l); [done|].
    intros i sh Hi. apply Hne. lia.
  - intros Hl Hne Heq. rewrite (Hne k) by lia.
    rewrite (IH (S k) j Hl).
    + destruct (f k a), (h x); simpl; done.
    + intros i sh Hi. apply Hne. lia.
    + intros sh. replace (S k + j) with (k + S j) by lia. apply Heq.
Qed.

Lemma batchOf_cons_eq (n : nat) (kv : string * string) kvs :
  batchOf hash n (hash kv.1 mod n) (kv :: kvs) = kv :: batchOf hash n (hash kv.1 mod n) kvs.
Proof. unfold batchOf. by rewrite filter_cons_True. Qed.

Lemma batchOf_cons_ne (n i : nat) (kv : string * string) kvs :
  i ≠ hash kv.1 mod n → batchOf hash n i (kv :: kvs) = batchOf hash n i kvs.
Proof. intros Hi. unfold batchOf. by rewrite filter_cons_False. Qed.

(** The first loop of [putMany] groups the pairs by shard, in input order. *)
Lemma assign_loop (st : Store) (bs : list (list (string * string))) kvs :
  shards st ≠ [] → length bs = length (shards st) →
  ∃ bs', foldM (λ shard_batches kv,
                  i ← shardIndex hash st kv.1;
                  b ← shard_batches !! i;
                  Some (<[i := b ++ [kv]]> shard_batches)) bs kvs = Some bs' ∧
         ∀ i b, bs !! i = Some b →
                bs' !! i = Some (b ++ batchOf hash (length (shards st)) i kvs).
Proof.
  intros Hne. revert bs. induction kvs as [|kv kvs IH]; intros bs Hlen; simpl.
  - exists bs. split; [done|]. intros i b Hb. by rewrite app_nil_r.
  - destruct (shardIndex_Some hash st kv.1 Hne) as [-> Hlt]. simpl.
    set (j := hash kv.1 mod length (shards st)) in *.
    destruct (lookup_lt_is_Some_2 bs j ltac:(lia)) as [bj Hbj]. rewrite Hbj. simpl.
    destruct (IH (<[j := bj ++ [kv]]> bs)) as (bs' & -> & Hbs').
    { by rewrite length_insert. }
    exists bs'. split; [done|]. intros i b Hb.
    destruct (decide (i = j)) as [->|Hij].
    + assert (b = bj) as -> by congruence.
      rewrite (Hbs' j (bj ++ [kv])).
      * subst j. rewrite batchOf_cons_eq. by rewrite <- app_assoc.
      * apply list_lookup_insert_eq. lia.
    + rewrite (Hbs' i b).
      * by rewrite batchOf_cons_ne.
      * by rewrite list_lookup_insert_ne.
Qed.

Lemma assignBatches_spec (st : Store) kvs :
  shards st ≠ [] →
  ∃ bs, assignBatches hash st kvs = Some bs ∧
        ∀ i, i < length (shards st) →
             bs !! i = Some (batchOf hash (length (shards st)) i kvs).
Proof.
  intros Hne. unfold assignBatches.
  destruct (assign_loop st (replicate (length (shards st)) []) kvs Hne)
    as (bs & Hbs & Hlook).
  { apply length_replicate. }
  exists bs. split; [done|]. intros i Hi.
  apply (Hlook i []). by apply lookup_replicate_2.
Qed.

(** One iteration of the second loop: an empty batch is skipped, which is
    what applying it would do. *)
Lemma putManyShard_batch bs (l : list Shard) (i : nat) (sh : Shard) b :
  bs !! i = Some b → l !! i = Some sh →
  putManyShard bs (mkStore l) i = sh' ← putBatch sh b; Some (mkStore (<[i := sh']> l)).
Proof.
  intros Hb Hsh. unfold putManyShard. rewrite Hb. simpl. destruct b as [|kv b].
  - simpl. by rewrite list_insert_id.
  - by rewrite Hsh.
Qed.

Lemma putMany_loop bs (B : nat → list (string * string)) (pre l : list Shard) :
  (∀ i, i < length (pre ++ l) → bs !! i = Some (B i)) →
  foldM (putManyShard bs) (mkStore (pre ++ l)) (seq (length pre) (length l)) =
    l' ← mapShardsFrom (λ i sh, putBatch sh (B i)) (length pre) l;
    Some (mkStore (pre ++ l')).
Proof.
  revert pre. induction l as [|x l IH]; intros pre Hbs; [done|].
  cbn [length seq foldM mapShardsFrom].
  rewrite (putManyShard_batch bs _ (length pre) x (B (length pre))).
  - destruct (putBatch x (B (length pre))) as [x'|]; simpl; [|done].
    rewrite insert_app_r_alt, Nat.sub_diag by lia.
    change (<[0:=x']> (x :: l)) with (x' :: l).
    rewrite (cons_middle x' pre l), app_assoc.
    replace (S (length pre)) with (length (pre ++ [x'])) by (rewrite length_app; simpl; lia).
    rewrite IH.
    + destruct (mapShardsFrom _ _ l) as [l'|]; simpl; [|done].
      by rewrite <- app_assoc.
    + intros i Hi. apply Hbs. rewrite !length_app in *. simpl in *. lia.
  - apply Hbs. rewrite length_app. simpl. lia.
  - by apply list_lookup_middle.
Qed.

Lemma putMany_per_shard (st : Store) kvs :
  shards st ≠ [] →
  putMany hash st kvs =
    l' ← mapShardsFrom
           (λ i sh, putBatch sh (batchOf hash (length (shards st)) i kvs)) 0 (shards st);
    Some (mkStore l').
Proof.
  intros Hne. unfold putMany.
  destruct (assignBatches_spec st kvs Hne) as (bs & -> & Hbs). simpl.
  destruct st as [l]. simpl in *.
  apply (putMany_loop bs (λ i, batchOf hash (length l) i kvs) [] l). done.
Qed.

Lemma putEach_per_shard (st : Store) kvs :
  shards st ≠ [] →
  putEach hash st kvs =
    l' ← mapShardsFrom
           (λ i sh, putBatch sh (batchOf hash (length (shards st)) i kvs)) 0 (shards st);
    Some (mkStore l').
Proof.
  revert st. induction kvs as [|kv kvs IH]; intros st Hne.
  - simpl. rewrite (mapShardsFrom_ext _ (λ _ sh, Some sh)) by done.
    rewrite mapShardsFrom_id. by destruct st.
  - unfold putEach. cbn [foldM].
    destruct (shardOf_defined hash st kv.1 Hne) as (j & sh & Hj & Hsh & _).
    rewrite (put_shard hash st kv.1 kv.2 j sh Hj Hsh).
    pose proof (shardIndex_Some hash st kv.1 Hne) as [Hj' _].
    assert (j = hash kv.1 mod length (shards st)) as Hjeq by congruence.
    rewrite (mapShardsFrom_update
               (λ i sh, putBatch sh (batchOf hash (length (shards st)) i kvs))
               _ (λ sh, r ← putInShard sh kv.1 kv.2; Some r.2) 0 j (shards st) sh Hsh).
    + destruct (putInShard sh kv.1 kv.2) as [r|]; simpl; [|done].
      fold (putEach hash (mkStore (<[j := r.2]> (shards st))) kvs).
      rewrite IH; simpl.
      * by rewrite length_insert.
      * intros Hnil. apply (f_equal length) in Hnil. rewrite length_insert in Hnil.
        destruct (shards st); [done|]. simpl in Hnil. lia.
    + intros i s Hi. simpl in Hi. rewrite batchOf_cons_ne; [done|]. congruence.
    + intros s. simpl. by rewrite Hjeq, batchOf_cons_eq.
Qed.

(** [putMany] and a sequence of [put]s agree on every store and every
    sequence of pairs, also on whether they are defined at all. *)
Lemma putMany_putEach (st : Store) kvs :
  putMany hash st kvs = putEach hash st kvs.
Proof.
  destruct (decide (shards st = [])) as [Hnil|Hne].
  - destruct kvs as [|kv kvs].
    + unfold putMany, putEach, assignBatches. simpl. by rewrite Hnil.
    + unfold putMany, putEach, assignBatches, put. simpl.
      by rewrite (shardIndex_None hash st kv.1 Hnil).
  - by rewrite putMany_per_shard, putEach_per_shard.
Qed.

End BatchEquivalence.

(** ** The invariant of the store *)

Section StoreInvariant.
Variable hash : string → nat.

Lemma wf_newStore (C n : nat) : 1 ≤ n → wf_store (newStore C n).
Proof.
  intros Hn. split.
  - simpl. destruct n; [lia|done].
  - simpl. apply Forall_replicate. apply wf_newShard.
Qed.

Lemma wf_store_insert (st : Store) (i : nat) (sh : Shard) :
  wf_store st → wf_shard sh → wf_store (mkStore (<[i := sh]> (shards st))).
Proof.
  intros [Hne Hall] Hwf. split; simpl.
  - intros Hnil. apply (f_equal length) in Hnil. rewrite length_insert in Hnil.
    destruct (shards st); [done|]. simpl in Hnil. lia.
  - by apply Forall_insert.
Qed.

Lemma wf_store_lookup (st : Store) (i : nat) (sh : Shard) :
  wf_store st → shards st !! i = Some sh → wf_shard sh.
Proof. intros [_ Hall] Hsh. by eapply Forall_lookup_1. Qed.

Lemma store_insert_id (st : Store) (i : nat) (sh : Shard) :
  shards st !! i = Some sh → mkStore (<[i := sh]> (shards st)) = st.
Proof. intros Hsh. rewrite list_insert_id by done. by destruct st. Qed.

Lemma storeInv_put (st : Store) (key v : string) :
  storeInv st → ∃ st', put hash st key v = Some (true, st') ∧ storeInv st'.
Proof.
  intros [Hwf Hpos]. destruct (shardOf_defined hash st key (proj1 Hwf))
    as (i & sh & Hi & Hsh & _).
  rewrite (put_shard hash st key v i sh Hi Hsh).
  pose proof (wf_store_lookup st i sh Hwf Hsh) as Hwfsh.
  assert (Hc : 1 ≤ capacity sh) by (by eapply (Forall_lookup_1 _ _ _ _ Hpos)).
  destruct (putInShard_defined sh key v Hwfsh Hc) as [sh' Hput]. rewrite Hput. simpl.
  eexists. split; [done|]. split.
  - apply wf_store_insert; [done|]. apply (putInShard_wf sh key v _ Hwfsh Hput).
  - apply Forall_insert; [done|].
    pose proof (putInShard_capacity sh key v _ Hput) as Hc'. simpl in Hc'. lia.
Qed.

Lemma storeInv_putEach (st : Store) (kvs : list (string * string)) :
  storeInv st → ∃ st', putEach hash st kvs = Some st' ∧ storeInv st'.
Proof.
  intros Hinv. apply foldM_invariant; [done|]. intros s kv Hs.
  destruct (storeInv_put s kv.1 kv.2 Hs) as (s' & -> & Hs'). by exists s'.
Qed.

End StoreInvariant.

(** [delFromShard] on a key of the shard. *)
Lemma delFromShard_present_spec (sh : Shard) (key : string) :
  wf_shard sh → is_Some (store sh !! key) →
  ∃ sh', delFromShard sh key = Some (true, sh') ∧
         store sh' = delete key (store sh) ∧
         recencyKeys sh' = filter (λ k, k ≠ key) (recencyKeys sh) ∧
         capacity sh' = capacity sh.
Proof.
  intros Hwf [e He].
  destruct (delFromShard_present sh key e Hwf He) as (n & l1 & l2 & Hl & Hdel).
  eexists. split; [exact Hdel|]. split_and!; try done.
  assert (Hnd : NoDup (Recency.keys l1 ++ key :: Recency.keys l2)).
  { rewrite <- (recencyKeys_middle sh l1 l2 n key Hl). apply Hwf. }
  pose proof (touch_middle _ _ _ Hnd) as Ht. unfold touch in Ht.
  injection Ht as Ht. rewrite (recencyKeys_middle sh l1 l2 n key Hl), Ht.
  unfold recencyKeys, Recency.keys. simpl. by rewrite fmap_app.
Qed.

Lemma stepShard_wf (sh sh' : Shard) (op : ShardOp) :
  wf_shard sh → stepShard sh op = Some sh' → wf_shard sh'.
Proof.
  intros Hwf. destruct op as [key v|key|key|]; simpl.
  - destruct (putInShard sh key v) as [r|] eqn:E; simpl; [|done]. intros [= <-].
    by eapply putInShard_wf.
  - destruct (getFromShard sh key "") as [r|] eqn:E; simpl; [|done]. intros [= <-].
    by eapply getFromShard_wf.
  - destruct (delFromShard sh key) as [r|] eqn:E; simpl; [|done]. intros [= <-].
    by eapply delFromShard_wf.
  - intros [= <-]. apply wf_clearShard.
Qed.

(** ** Routing invariant and reachable stores *)

Section Routing.
Variable hash : string → nat.

Lemma routed_lookup (st : Store) :
  routed hash st ↔
  ∀ i sh k, shards st !! i = Some sh → is_Some (store sh !! k) →
            hash k mod length (shards st) = i.
Proof.
  unfold routed. rewrite Forall_lookup. split.
  - intros H i sh k Hsh [e He].
    assert (Hl : imap pair (shards st) !! i = Some (i, sh))
      by (by rewrite list_lookup_imap, Hsh).
    exact (H i (i, sh) Hl k e He).
  - intros H i [j sh] Hl k e He. rewrite list_lookup_imap in Hl.
    destruct (shards st !! i) as [sh0|] eqn:Hsh; [|done]. injection Hl as <- <-.
    simpl. apply (H i sh0 k Hsh). by exists e.
Qed.

Lemma holds_lookup (st : Store) (key : string) :
  holds st key ↔ ∃ i sh, shards st !! i = Some sh ∧ is_Some (store sh !! key).
Proof.
  unfold holds. rewrite Exists_exists. split.
  - intros (sh & [i Hi]%list_elem_of_lookup & Hk). by exists i, sh.
  - intros (i & sh & Hi & Hk). exists sh. split; [|done].
    apply list_elem_of_lookup. by exists i.
Qed.

Lemma contains_holds (st : Store) (key : string) :
  contains hash st key → holds st key.
Proof.
  unfold contains, shardOf. destruct (shardIndex hash st key) as [i|]; simpl; [|done].
  destruct (shards st !! i) as [sh|] eqn:Hsh; simpl; [|done].
  intros Hk. apply holds_lookup. by exists i, sh.
Qed.

(** In a routed store a key is held, if at all, by the shard that owns it. *)
Lemma holds_contains (st : Store) (key : string) :
  routed hash st → holds st key → contains hash st key.
Proof.
  intros Hr (i & sh & Hsh & Hk)%holds_lookup.
  pose proof (proj1 (routed_lookup st) Hr i sh key Hsh Hk) as Hi.
  assert (Hne : shards st ≠ []) by (intros Hnil; by rewrite Hnil in Hsh).
  destruct (shardIndex_Some hash st key Hne) as [Hidx _].
  unfold contains, shardOf. rewrite Hidx, Hi. simpl. by rewrite Hsh.
Qed.

Lemma routed_newStore (C n : nat) : routed hash (newStore C n).
Proof.
  apply routed_lookup. intros i sh k Hsh. simpl in Hsh.
  apply lookup_replicate in Hsh as [-> _]. intros [e He]. simpl in He.
  by rewrite lookup_empty in He.
Qed.

Lemma routed_clear (st : Store) : routed hash (clear st).
Proof.
  apply routed_lookup. intros i sh k Hsh [e He]. simpl in Hsh.
  rewrite list_lookup_fmap in Hsh. destruct (shards st !! i); [|done].
  injection Hsh as <-. simpl in He. by rewrite lookup_empty in He.
Qed.

(** Replacing a shard by one that holds, besides keys it held, only keys
    that are routed to it. *)
Lemma routed_insert (st : Store) (i : nat) (sh sh' : Shard) :
  routed hash st → shards st !! i = Some sh →
  (∀ k, is_Some (store sh' !! k) →
        is_Some (store sh !! k) ∨ hash k mod length (shards st) = i) →
  routed hash (mkStore (<[i := sh']> (shards st))).
Proof.
  intros Hr Hsh Hdom. apply routed_lookup. simpl. rewrite length_insert.
  intros j s k Hs Hk. destruct (decide (j = i)) as [->|Hji].
  - rewrite list_lookup_insert_eq in Hs by by eapply lookup_lt_Some.
    injection Hs as <-. destruct (Hdom k Hk) as [Hold|Hi]; [|done].
    by apply (proj1 (routed_lookup st) Hr i sh k).
  - rewrite list_lookup_insert_ne in Hs by done.
    by apply (proj1 (routed_lookup st) Hr j s k).
Qed.

Lemma putInShard_keys (sh : Shard) (key v : string) (r : bool * Shard) (k : string) :
  putInShard sh key v = Some r → is_Some (store r.2 !! k) →
  is_Some (store sh !! k) ∨ k = key.
Proof.
  unfold putInShard. destruct (store sh !! key) as [e|] eqn:He.
  - destruct (Recency.splice_begin _ _); simpl; [|done]. intros [= <-]. simpl.
    rewrite lookup_insert_is_Some. intros [-> | [_ ?]]; auto.
  - destruct (evictIfFull sh) as [sh1|] eqn:E; simpl; [|done]. intros [= <-]. simpl.
    unfold emplace. rewrite (evictIfFull_keeps_absent _ _ _ E He).
    rewrite lookup_insert_is_Some. intros [-> | [_ Hk]]; [by right|left].
    apply evictIfFull_Some in E as [[_ ->]|(_ & l0 & n & lru & _ & ->)]; [done|].
    simpl in Hk. rewrite lookup_delete_is_Some in Hk. apply Hk.
Qed.

Lemma getFromShard_keys (sh : Shard) (key out : string) (r : bool * Shard * string)
    (k : string) :
  getFromShard sh key out = Some r → is_Some (store r.1.2 !! k) →
  is_Some (store sh !! k).
Proof.
  unfold getFromShard. destruct (store sh !! key) as [e|] eqn:He.
  - destruct (Recency.splice_begin _ _); simpl; [|done]. intros [= <-]. simpl.
    rewrite lookup_insert_is_Some. intros [<- | [_ ?]]; [by eexists | done].
  - by intros [= <-].
Qed.

Lemma delFromShard_keys (sh : Shard) (key : string) (r : bool * Shard) (k : string) :
  delFromShard sh key = Some r → is_Some (store r.2 !! k) → is_Some (store sh !! k).
Proof.
  unfold delFromShard. destruct (store sh !! key) as [e|] eqn:He.
  - destruct (Recency.erase _ _); simpl; [|done]. intros [= <-]. simpl.
    rewrite lookup_delete_is_Some. by intros [_ ?].
  - by intros [= <-].
Qed.

Lemma builtInv_insert (C : nat) (st : Store) (i : nat) (sh sh' : Shard) :
  builtInv hash C st → shards st !! i = Some sh →
  wf_shard sh' → capacity sh' = capacity sh →
  (∀ k, is_Some (store sh' !! k) →
        is_Some (store sh !! k) ∨ hash k mod length (shards st) = i) →
  builtInv hash C (mkStore (<[i := sh']> (shards st))).
Proof.
  intros (Hwf & Hr & Hc) Hsh Hwf' Hcap Hdom. split_and!.
  - by apply wf_store_insert.
  - by eapply routed_insert.
  - apply Forall_insert; [done|]. rewrite Hcap. by eapply (Forall_lookup_1 _ _ _ _ Hc).
Qed.

Lemma builtInv_put (C : nat) (st : Store) (key v : string) (r : bool * Store) :
  builtInv hash C st → put hash st key v = Some r → builtInv hash C r.2.
Proof.
  intros Hinv. unfold put. destruct (shardIndex hash st key) as [i|] eqn:Hi; simpl; [|done].
  destruct (shards st !! i) as [sh|] eqn:Hsh; simpl; [|done].
  destruct (putInShard sh key v) as [r'|] eqn:Hput; simpl; [|done]. intros [= <-]. simpl.
  pose proof (wf_store_lookup st i sh (proj1 Hinv) Hsh) as Hwfsh.
  apply (builtInv_insert C st i sh); try done.
  - by eapply putInShard_wf.
  - by eapply putInShard_capacity.
  - intros k Hk. destruct (putInShard_keys sh key v r' k Hput Hk) as [? | ->]; [by left|right].
    unfold shardIndex in Hi. case_decide; [done|]. by injection Hi.
Qed.

Lemma builtInv_get (C : nat) (st : Store) (key out : string) (r : bool * Store * string) :
  builtInv hash C st → get hash st key out = Some r → builtInv hash C r.1.2.
Proof.
  intros Hinv. unfold get. destruct (shardIndex hash st key) as [i|] eqn:Hi; simpl; [|done].
  destruct (shards st !! i) as [sh|] eqn:Hsh; simpl; [|done].
  destruct (getFromShard sh key out) as [r'|] eqn:Hget; simpl; [|done]. intros [= <-]. simpl.
  pose proof (wf_store_lookup st i sh (proj1 Hinv) Hsh) as Hwfsh.
  apply (builtInv_insert C st i sh); try done.
  - by eapply getFromShard_wf.
  - by eapply getFromShard_capacity.
  - intros k Hk. left. by eapply getFromShard_keys.
Qed.

Lemma builtInv_del (C : nat) (st : Store) (key : string) (r : bool * Store) :
  builtInv hash C st → del hash st key = Some r → builtInv hash C r.2.
Proof.
  intros Hinv. unfold del. destruct (shardIndex hash st key) as [i|] eqn:Hi; simpl; [|done].
  destruct (shards st !! i) as [sh|] eqn:Hsh; simpl; [|done].
  destruct (delFromShard sh key) as [r'|] eqn:Hdel; simpl; [|done]. intros [= <-]. simpl.
  pose proof (wf_store_lookup st i sh (proj1 Hinv) Hsh) as Hwfsh.
  apply (builtInv_insert C st i sh); try done.
  - by eapply delFromShard_wf.
  - by eapply delFromShard_capacity.
  - intros k Hk. left. by eapply delFromShard_keys.
Qed.

Lemma builtInv_clear (C : nat) (st : Store) : builtInv hash C st → builtInv hash C (clear st).
Proof.
  intros ([Hne Hwf] & Hr & Hc). split_and!.
  - split; simpl.
    + intros Hnil. apply fmap_nil_inv in Hnil. done.
    + apply Forall_fmap. eapply Forall_impl; [exact Hwf|]. intros sh _.
      apply wf_clearShard.
  - apply routed_clear.
  - simpl. apply Forall_fmap. eapply Forall_impl; [exact Hc|]. by intros sh.
Qed.

Lemma builtInv_putMany (C : nat) (st st' : Store) (kvs : list (string * string)) :
  builtInv hash C st → putMany hash st kvs = Some st' → builtInv hash C st'.
Proof.
  intros Hinv. rewrite putMany_putEach.
  apply (foldM_preserves (builtInv hash C)); [done|].
  intros s kv s' Hs Hstep. destruct (put hash s kv.1 kv.2) as [r|] eqn:E; [|done].
  simpl in Hstep. injection Hstep as <-. by eapply builtInv_put.
Qed.

Lemma builtInv_step (C : nat) (st st' : Store) (op : StoreOp) :
  builtInv hash C st → stepStore hash st op = Some st' → builtInv hash C st'.
Proof.
  intros Hinv. destruct op as [key v|key|key|kvs|]; simpl.
  - destruct (put hash st key v) as [r|] eqn:E; simpl; [|done]. intros [= <-].
    by eapply builtInv_put.
  - destruct (get hash st key "") as [r|] eqn:E; simpl; [|done]. intros [= <-].
    by eapply builtInv_get.
  - destruct (del hash st key) as [r|] eqn:E; simpl; [|done]. intros [= <-].
    by eapply builtInv_del.
  - by apply builtInv_putMany.
  - intros [= <-]. by apply builtInv_clear.
Qed.

(** Every store built from a new store with at least one shard satisfies
    the representation invariant of each shard and the routing invariant. *)
Lemma reachable_invariant (C n : nat) (st : Store) :
  1 ≤ n → reachable hash C n st → builtInv hash C st.
Proof.
  intros Hn [ops Hrun]. revert Hrun. apply (foldM_preserves (builtInv hash C)).
  - split_and!; [by apply wf_newStore | apply routed_newStore |].
    simpl. by apply Forall_replicate.
  - intros s op s' Hs Hstep. by eapply builtInv_step.
Qed.

(** With a positive capacity, the stores built by the public operations
    satisfy every invariant that the properties below assume. *)
Lemma reachable_storeInv (C n : nat) (st : Store) :
  1 ≤ C → 1 ≤ n → reachable hash C n st → storeInv st ∧ routed hash st.
Proof.
  intros HC Hn Hreach.
  destruct (reachable_invariant C n st Hn Hreach) as (Hwf & Hr & Hcap).
  split; [split|]; try done.
  eapply Forall_impl; [exact Hcap|]. intros sh ->. done.
Qed.

End Routing.

(** ** The tests of the repository, for every hash function *)

Section Tests.
Variable hash : string → nat.

(** With a single shard every key is routed to it. *)
Lemma put_single (sh : Shard) (key v : string) :
  put hash (mkStore [sh]) key v = r ← putInShard sh key v; Some (r.1, mkStore [r.2]).
Proof. unfold put, shardIndex. cbn [shards length]. by rewrite Nat.mod_1_r. Qed.

Lemma get_single (sh : Shard) (key out : string) :
  get hash (mkStore [sh]) key out =
    r ← getFromShard sh key out; Some (r.1.1, mkStore [r.1.2], r.2).
Proof. unfold get, shardIndex. cbn [shards length]. by rewrite Nat.mod_1_r. Qed.

Ltac run_put :=
  rewrite put_single;
  match goal with
  | |- context [putInShard ?sh ?k ?v] =>
      let r := eval vm_compute in (putInShard sh k v) in
      change (putInShard sh k v) with r
  end;
  cbn [mbind option_bind fst snd].

Ltac run_get :=
  rewrite get_single;
  match goal with
  | |- context [getFromShard ?sh ?k ?v] =>
      let r := eval vm_compute in (getFromShard sh k v) in
      change (getFromShard sh k v) with r
  end;
  cbn [mbind option_bind fst snd].

Lemma test_EvictLeastRecentlyUsed_passes :
  test_EvictLeastRecentlyUsed hash = Some [(false, ""); (true, "2"); (true, "3")].
Proof.
  unfold test_EvictLeastRecentlyUsed.
  change (newStore 2 1) with (mkStore [newShard 2]). cbv zeta.
  do 3 run_put. do 3 run_get. reflexivity.
Qed.

Lemma test_RecencyUpdatesOnGet_passes :
  test_RecencyUpdatesOnGet hash =
    Some [(true, "1"); (true, "1"); (false, "1"); (true, "3")].
Proof.
  unfold test_RecencyUpdatesOnGet.
  change (newStore 2 1) with (mkStore [newShard 2]). cbv zeta.
  do 2 run_put. run_get. run_put. do 3 run_get. reflexivity.
Qed.

Lemma test_RecencyUpdatesOnPut_passes :
  test_RecencyUpdatesOnPut hash = Some [(true, "10"); (false, "10"); (true, "3")].
Proof.
  unfold test_RecencyUpdatesOnPut.
  change (newStore 2 1) with (mkStore [newShard 2]). cbv zeta.
  do 4 run_put. do 3 run_get. reflexivity.
Qed.

End Tests.

(** * The properties of the specification *)

(** C1 (capacity invariant).  A shard constructed with a positive capacity
    [C] and fed any finite sequence of puts holds at most [C] keys after
    every prefix of the sequence: each prefix runs to completion, and the
    index (and with it the recency list) of the shard it leaves has at most
    [C] keys. *)
Theorem capacity_invariant (C : nat) (kvs : list (string * string)) (n : nat) :
  1 ≤ C →
  ∃ sh, putBatch (newShard C) (take n kvs) = Some sh ∧
        capacity sh = C ∧
        size (store sh) ≤ C ∧
        length (recencyList sh) ≤ C.
Proof.
  intros HC.
  destruct (foldM_invariant (shardInv C)
              (λ sh kv, r ← putInShard sh kv.1 kv.2; Some r.2)
              (newShard C) (take n kvs)) as (sh & Hrun & Hwf & Hcap & Hsize).
  - apply shardInv_new.
  - intros s kv Hs. destruct (shardInv_put C s kv.1 kv.2 HC Hs) as (s' & -> & Hs').
    by exists s'.
  - exists sh. split_and!; try done. by rewrite <- (wf_size sh Hwf).
Qed.

Lemma capacity_invariant_witness :
  1 ≤ 2 ∧
  ∃ sh, putBatch (newShard 2) (take 3 [("A", "1"); ("B", "2"); ("C", "3"); ("D", "4")])
          = Some sh ∧
        capacity sh = 2 ∧ size (store sh) ≤ 2 ∧ length (recencyList sh) ≤ 2.
Proof.
  split; [lia|].
  apply (capacity_invariant 2 [("A", "1"); ("B", "2"); ("C", "3"); ("D", "4")] 3). lia.
Defined.

(** C2 (LRU eviction order; put and get both count as a touch).
    - Putting [C + 1] distinct keys, with nothing in between, into an empty
      shard of capacity [C] evicts exactly the first key put: it is not
      found afterwards, every other key is found with its value, and the
      recency sequence is the other keys, last put first.
    - Capacity 2, put A, B, C: the shard is left with B and C, and A is not
      found.
    - Capacity 2, put A, put B, get A, put C: B is evicted, A and C remain.
    - The same two scenarios on a store of one shard of capacity 2, as the
      tests of the repository run them, for every hash function.
    - A successful [getFromShard] returns the stored value and moves the key
      to the most recently used end of the recency sequence. *)
Theorem lru_eviction_order :
  (∀ (C : nat) (k0 v0 : string) (rest : list (string * string)),
     1 ≤ C → length rest = C → NoDup (k0 :: rest.*1) →
     ∃ sh, putBatch (newShard C) ((k0, v0) :: rest) = Some sh ∧
           recencyKeys sh = reverse rest.*1 ∧
           dom (store sh) = list_to_set rest.*1 ∧
           (∀ out, getFromShard sh k0 out = Some (false, sh, out)) ∧
           (∀ k v out, (k, v) ∈ rest → observeGet sh k out = Some (true, v))) ∧
  (let after := putBatch (newShard 2) [("A", "1"); ("B", "2"); ("C", "3")] in
   recencyKeys <$> after = Some ["C"; "B"] ∧
   (sh ← after; observeGet sh "A" "") = Some (false, "") ∧
   (sh ← after; observeGet sh "B" "") = Some (true, "2") ∧
   (sh ← after; observeGet sh "C" "") = Some (true, "3")) ∧
  (let after := runShard (newShard 2)
                  [OpPut "A" "1"; OpPut "B" "2"; OpGet "A"; OpPut "C" "3"] in
   recencyKeys <$> after = Some ["C"; "A"] ∧
   (sh ← after; observeGet sh "A" "") = Some (true, "1") ∧
   (sh ← after; observeGet sh "B" "") = Some (false, "") ∧
   (sh ← after; observeGet sh "C" "") = Some (true, "3")) ∧
  (∀ hash, test_EvictLeastRecentlyUsed hash =
             Some [(false, ""); (true, "2"); (true, "3")]) ∧
  (∀ hash, test_RecencyUpdatesOnGet hash =
             Some [(true, "1"); (true, "1"); (false, "1"); (true, "3")]) ∧
  (∀ (sh : Shard) (key out : string),
     wf_shard sh → is_Some (store sh !! key) →
     ∃ sh' v, getFromShard sh key out = Some (true, sh', v) ∧
              valueOf sh key = Some v ∧
              recencyKeys sh' = key :: filter (λ k, k ≠ key) (recencyKeys sh)).
Proof.
  split_and!.
  - intros C k0 v0 rest HC Hlen Hnd.
    destruct (putBatch_distinct_overflow C k0 v0 rest HC Hlen Hnd)
      as (sh & Hrun & Hks & Hk0 & Hv).
    assert (Hwf : wf_shard sh).
    { revert Hrun. apply (foldM_preserves wf_shard); [apply wf_newShard|].
      intros s kv s' Hs Hstep. destruct (putInShard s kv.1 kv.2) as [r|] eqn:E; [|done].
      simpl in Hstep. injection Hstep as <-. by eapply putInShard_wf. }
    exists sh. split_and!; try done.
    + rewrite (wf_dom sh Hwf), Hks. apply set_eq. intros k.
      by rewrite !elem_of_list_to_set, elem_of_reverse.
    + intros out. apply getFromShard_absent. unfold valueOf in Hk0.
      by destruct (store sh !! k0).
    + intros k v out Hin. specialize (Hv k v Hin).
      assert (Hsome : is_Some (store sh !! k)).
      { unfold valueOf in Hv. destruct (store sh !! k); [by eexists | done]. }
      destruct (getFromShard_present_spec sh k out Hwf Hsome) as (sh' & v' & Hget & Hv' & _).
      unfold observeGet. rewrite Hget. simpl. congruence.
  - vm_compute. by split_and!.
  - vm_compute. by split_and!.
  - apply test_EvictLeastRecentlyUsed_passes.
  - apply test_RecencyUpdatesOnGet_passes.
  - intros sh key out Hwf Hsome.
    destruct (getFromShard_present_spec sh key out Hwf Hsome) as (sh' & v & Hget & Hv & Hks & _).
    by exists sh', v.
Qed.

Lemma lru_eviction_order_witness :
  (1 ≤ 2 ∧ NoDup ["A"; "B"; "C"] ∧
   ∃ sh, putBatch (newShard 2) [("A", "1"); ("B", "2"); ("C", "3")] = Some sh ∧
         recencyKeys sh = ["C"; "B"]) ∧
  (let sh := mkShard {["A" := mkEntry "1" (Some 1)]} [(1, "A")] 1 in
   wf_shard sh ∧ is_Some (store sh !! "A") ∧
   ∃ sh' v, getFromShard sh "A" "" = Some (true, sh', v) ∧ v = "1").
Proof.
  destruct lru_eviction_order as (Hgen & _ & _ & _ & _ & Hget). split.
  - assert (Hnd : NoDup ["A"; "B"; "C"]) by (apply (bool_decide_unpack _); vm_compute; exact I).
    split; [lia|]. split; [exact Hnd|].
    destruct (Hgen 2 "A" "1" [("B", "2"); ("C", "3")]) as (sh & Hrun & Hks & _);
      [lia | reflexivity | exact Hnd |].
    exists sh. split; [exact Hrun | exact Hks].
  - intros sh.
    assert (Hwf : wf_shard sh) by (apply (bool_decide_unpack _); vm_compute; exact I).
    assert (Hin : is_Some (store sh !! "A")) by (vm_compute; by eexists).
    split; [exact Hwf|]. split; [exact Hin|].
    destruct (Hget sh "A" "" Hwf Hin) as (sh' & v & Hg & Hv & _).
    exists sh', v. split; [exact Hg|].
    vm_compute in Hv. by injection Hv as <-.
Defined.

(** C3 (index/recency consistency).  Whatever shard a sequence of
    [putInShard], [getFromShard], [delFromShard] and clear operations leaves
    when started on an empty shard, its index and its recency list have the
    same number of keys and the same key set (and the list repeats no key);
    and with a positive capacity every such sequence runs to completion. *)
Theorem index_recency_consistent (C : nat) (ops : list ShardOp) :
  (∀ sh, runShard (newShard C) ops = Some sh →
         size (store sh) = length (recencyList sh) ∧
         dom (store sh) = list_to_set (recencyKeys sh) ∧
         NoDup (recencyKeys sh)) ∧
  (1 ≤ C → is_Some (runShard (newShard C) ops)).
Proof.
  split.
  - intros sh Hrun.
    assert (Hwf : wf_shard sh).
    { revert Hrun. apply (foldM_preserves wf_shard); [apply wf_newShard|].
      intros s op s' Hs Hstep. by eapply stepShard_wf. }
    split_and!; [by apply wf_size | by apply wf_dom | apply Hwf].
  - intros HC.
    destruct (foldM_invariant (shardInv C) stepShard (newShard C) ops)
      as (sh & Hrun & _).
    + apply shardInv_new.
    + intros s op Hs. by apply shardInv_step.
    + by exists sh.
Qed.

Lemma index_recency_consistent_witness :
  let ops := [OpPut "A" "1"; OpPut "B" "2"; OpGet "A"; OpPut "C" "3"; OpDel "A";
              OpClear; OpPut "D" "4"] in
  let sh := mkShard {["D" := mkEntry "4" (Some 1)]} [(1, "D")] 2 in
  1 ≤ 2 ∧
  is_Some (runShard (newShard 2) ops) ∧
  runShard (newShard 2) ops = Some sh ∧
  size (store sh) = length (recencyList sh).
Proof.
  intros ops sh.
  destruct (index_recency_consistent 2 ops) as [Hpartial Htotal].
  assert (Hrun : runShard (newShard 2) ops = Some sh) by (vm_compute; reflexivity).
  assert (HC : 1 ≤ 2) by lia.
  split; [exact HC|]. split; [exact (Htotal HC)|]. split; [exact Hrun|].
  exact (proj1 (Hpartial sh Hrun)).
Defined.

(** C4 (put of an existing key).  Putting a key that its shard already holds
    stores the new value, moves the key to the most recently used end of the
    recency sequence, evicts nothing (the key set and every other value are
    unchanged) and leaves the size unchanged, whatever the capacity; with
    capacity 2, put A=1, put B=2, put A=10, put C=3 evicts B and leaves A=10
    and C=3, on a shard and on a store of one shard for every hash
    function. *)
Theorem put_existing_refreshes :
  (∀ (sh : Shard) (key val : string),
     wf_shard sh → is_Some (store sh !! key) →
     ∃ sh', putInShard sh key val = Some (true, sh') ∧
            valueOf sh' key = Some val ∧
            recencyKeys sh' = key :: filter (λ k, k ≠ key) (recencyKeys sh) ∧
            dom (store sh') = dom (store sh) ∧
            (∀ k, k ≠ key → valueOf sh' k = valueOf sh k) ∧
            size (store sh') = size (store sh) ∧
            length (recencyList sh') = length (recencyList sh)) ∧
  (let after := putBatch (newShard 2) [("A", "1"); ("B", "2"); ("A", "10"); ("C", "3")] in
   recencyKeys <$> after = Some ["C"; "A"] ∧
   (sh ← after; observeGet sh "A" "") = Some (true, "10") ∧
   (sh ← after; observeGet sh "B" "") = Some (false, "") ∧
   (sh ← after; observeGet sh "C" "") = Some (true, "3")) ∧
  (∀ hash, test_RecencyUpdatesOnPut hash =
             Some [(true, "10"); (false, "10"); (true, "3")]).
Proof.
  split_and!.
  - intros sh key val Hwf Hsome.
    destruct (putInShard_existing_spec sh key val Hwf Hsome)
      as (sh' & Hput & Hks & Hv & Hvo & Hdom & Hsize).
    exists sh'. split_and!; try done.
    rewrite <- (wf_size sh Hwf), <- Hsize. symmetry. apply wf_size.
    apply (putInShard_wf sh key val _ Hwf Hput).
  - vm_compute. by split_and!.
  - apply test_RecencyUpdatesOnPut_passes.
Qed.

Lemma put_existing_refreshes_witness :
  let sh := mkShard {["A" := mkEntry "1" (Some 1)]} [(1, "A")] 1 in
  wf_shard sh ∧ is_Some (store sh !! "A") ∧
  ∃ sh', putInShard sh "A" "10" = Some (true, sh') ∧ valueOf sh' "A" = Some "10" ∧
         size (store sh') = size (store sh).
Proof.
  intros sh.
  assert (Hwf : wf_shard sh) by (apply (bool_decide_unpack _); vm_compute; exact I).
  assert (Hin : is_Some (store sh !! "A")) by (vm_compute; by eexists).
  split; [exact Hwf|]. split; [exact Hin|].
  destruct (proj1 put_existing_refreshes sh "A" "10" Hwf Hin)
    as (sh' & Hput & Hv & _ & _ & _ & Hsize & _).
  exists sh'. by split_and!.
Defined.

(** C5 (batch equivalence).  For pairs with pairwise distinct keys, on a
    store that satisfies its invariant, [putMany] runs to completion and
    leaves exactly the store that putting the pairs one at a time through
    [put], in the same order, leaves: the same shards, hence the same keys,
    values and recency order in every shard.  (The agreement itself, lemma
    [putMany_putEach], holds for every store and every sequence of pairs.) *)
Theorem batch_equivalence (hash : string → nat) (st : Store)
    (key_value_pairs : list (string * string)) :
  storeInv st → NoDup key_value_pairs.*1 →
  ∃ st', putMany hash st key_value_pairs = Some st' ∧
         putEach hash st key_value_pairs = Some st' ∧
         storeInv st'.
Proof.
  intros Hinv _.
  destruct (storeInv_putEach hash st key_value_pairs Hinv) as (st' & Heach & Hinv').
  exists st'. by rewrite putMany_putEach.
Qed.

Lemma batch_equivalence_witness :
  let kvs := [("A", "1"); ("BB", "2"); ("C", "3"); ("DDD", "4"); ("E", "5"); ("F", "6")] in
  storeInv (newStore 2 3) ∧ NoDup kvs.*1 ∧
  ∃ st', putMany lengthHash (newStore 2 3) kvs = Some st' ∧
         putEach lengthHash (newStore 2 3) kvs = Some st' ∧
         (recencyKeys <$> shards st') = [["DDD"]; ["F"; "E"]; ["BB"]].
Proof.
  intros kvs.
  assert (Hinv : storeInv (newStore 2 3)) by (apply (bool_decide_unpack _); vm_compute; exact I).
  assert (Hnd : NoDup kvs.*1) by (apply (bool_decide_unpack _); vm_compute; exact I).
  split; [exact Hinv|]. split; [exact Hnd|].
  destruct (batch_equivalence lengthHash (newStore 2 3) kvs Hinv Hnd)
    as (st' & Hmany & Heach & _).
  exists st'. split; [exact Hmany|]. split; [exact Heach|].
  assert (Hrun : (λ s, recencyKeys <$> shards s) <$> putMany lengthHash (newStore 2 3) kvs
                 = Some [["DDD"]; ["F"; "E"]; ["BB"]]) by (vm_compute; reflexivity).
  rewrite Hmany in Hrun. by injection Hrun.
Defined.

(** [del] in terms of the shard that owns the key. *)
Lemma del_owner_spec (hash : string → nat) (st : Store) (key : string) :
  wf_store st →
  ∃ i sh b st',
    shardIndex hash st key = Some i ∧ shards st !! i = Some sh ∧
    del hash st key = Some (b, st') ∧
    ((b = true) ↔ contains hash st key) ∧
    (contains hash st key →
       ∃ sh', st' = mkStore (<[i := sh']> (shards st)) ∧
              store sh' = delete key (store sh) ∧
              recencyKeys sh' = filter (λ k, k ≠ key) (recencyKeys sh)) ∧
    (¬ contains hash st key → b = false ∧ st' = st).
Proof.
  intros Hwf. destruct (shardOf_defined hash st key (proj1 Hwf))
    as (i & sh & Hi & Hsh & Hof).
  pose proof (wf_store_lookup st i sh Hwf Hsh) as Hwfsh.
  exists i, sh. unfold contains. rewrite Hof.
  rewrite (del_shard hash st key i sh Hi Hsh).
  destruct (store sh !! key) as [e|] eqn:He.
  - destruct (delFromShard_present_spec sh key Hwfsh ltac:(by eexists))
      as (sh' & Hdel & Hstore & Hks & Hcap).
    rewrite Hdel. simpl. eexists true, _. split_and!; try done.
    + intros _. by exists sh'.
    + intros Hno. destruct Hno. by eexists.
  - rewrite (delFromShard_absent sh key He). simpl. eexists false, _.
    split_and!; try done.
    intros _. split; [done|]. by apply store_insert_id.
Qed.

(** C6 (delete).  On a store that satisfies its invariants (those of every
    store built by the public operations), [del] returns true exactly when
    the key is present in the store.  When it is present, the key is removed
    from the index and from the recency sequence of its shard, whose other
    keys keep their order, and no shard holds the key afterwards.  When it is
    absent, [del] returns false and the store is unchanged. *)
Theorem del_reports_presence (hash : string → nat) (st : Store) (key : string) :
  wf_store st → routed hash st →
  ∃ b st',
    del hash st key = Some (b, st') ∧
    ((b = true) ↔ holds st key) ∧
    (holds st key →
       ∃ i sh sh',
         shardIndex hash st key = Some i ∧ shards st !! i = Some sh ∧
         st' = mkStore (<[i := sh']> (shards st)) ∧
         store sh' = delete key (store sh) ∧
         recencyKeys sh' = filter (λ k, k ≠ key) (recencyKeys sh) ∧
         (key ∉ recencyKeys sh') ∧
         ¬ holds st' key) ∧
    (¬ holds st key → b = false ∧ st' = st).
Proof.
  intros Hwf Hr.
  destruct (del_owner_spec hash st key Hwf)
    as (i & sh & b & st' & Hi & Hsh & Hdel & Hb & Hpresent & Habsent).
  assert (Hiff : holds st key ↔ contains hash st key).
  { split; [by apply holds_contains | apply contains_holds]. }
  exists b, st'. split_and!; [done | by rewrite Hiff | |].
  - intros Hh. destruct (Hpresent (proj1 Hiff Hh)) as (sh' & -> & Hstore & Hks).
    exists i, sh, sh'. split_and!; try done.
    + rewrite Hks. intros [Hk _]%list_elem_of_filter. by apply Hk.
    + intros Hh'. apply (holds_contains hash) in Hh'.
      * unfold contains, shardOf in Hh'.
        rewrite (shardIndex_length hash _ st key) in Hh' by (simpl; apply length_insert).
        rewrite Hi in Hh'. simpl in Hh'.
        rewrite list_lookup_insert_eq in Hh' by by eapply lookup_lt_Some.
        rewrite Hstore, lookup_delete_eq in Hh'. by destruct Hh'.
      * apply (routed_insert hash st i sh sh' Hr Hsh). intros k. rewrite Hstore.
        rewrite lookup_delete_is_Some. intros [_ ?]. by left.
  - intros Hno. apply Habsent. by rewrite <- Hiff.
Qed.

Lemma del_reports_presence_witness :
  wf_store exampleStore ∧ routed lengthHash exampleStore ∧
  ∃ st', del lengthHash exampleStore "A" = Some (true, st') ∧ ¬ holds st' "A".
Proof.
  assert (Hwf : wf_store exampleStore) by (apply (bool_decide_unpack _); vm_compute; exact I).
  assert (Hr : routed lengthHash exampleStore)
    by (apply (bool_decide_unpack _); vm_compute; exact I).
  assert (Hh : holds exampleStore "A") by (apply (bool_decide_unpack _); vm_compute; exact I).
  split; [exact Hwf|]. split; [exact Hr|].
  destruct (del_reports_presence lengthHash exampleStore "A" Hwf Hr)
    as (b & st' & Hdel & Hb & Hpresent & _).
  destruct (Hpresent Hh) as (i & sh & sh' & _ & _ & _ & _ & _ & _ & Hgone).
  exists st'. split; [|exact Hgone].
  rewrite Hdel. by rewrite (proj2 Hb Hh).
Defined.

(** C7 (get of an absent key).  On a store with at least one shard, [get] of
    a key that no shard holds returns found = false and the very store it
    was called on: no index, no recency list and no shard has changed. *)
Theorem get_absent_no_mutation (hash : string → nat) (st : Store) (key out : string) :
  shards st ≠ [] → ¬ holds st key →
  get hash st key out = Some (false, st, out).
Proof.
  intros Hne Hno. destruct (shardOf_defined hash st key Hne) as (i & sh & Hi & Hsh & Hof).
  assert (He : store sh !! key = None).
  { apply eq_None_not_Some. intros Hk. apply Hno. apply holds_lookup. by exists i, sh. }
  rewrite (get_shard hash st key out i sh Hi Hsh), (getFromShard_absent sh key out He).
  simpl. by rewrite (store_insert_id st i sh Hsh).
Qed.

Lemma get_absent_no_mutation_witness :
  shards exampleStore ≠ [] ∧ ¬ holds exampleStore "DD" ∧
  get lengthHash exampleStore "DD" "" = Some (false, exampleStore, "").
Proof.
  assert (Hne : shards exampleStore ≠ [])
    by (apply (bool_decide_unpack _); vm_compute; exact I).
  assert (Hno : ¬ holds exampleStore "DD")
    by (apply (bool_decide_unpack _); vm_compute; exact I).
  split; [exact Hne|]. split; [exact Hno|].
  apply (get_absent_no_mutation lengthHash exampleStore "DD" "" Hne Hno).
Defined.

(** C8 (deterministic routing).  The shard index of a key is a function of
    the key and of the number of shards only: two stores with the same
    number of shards route every key alike, whatever their shards hold.
    With a positive number of shards the index is defined and lies in
    [0, shardCount).  No operation changes the number of shards, so a key
    is routed to the same shard for the life of the store. *)
Theorem routing_deterministic (hash : string → nat) (st : Store) (key : string) :
  (∀ st2, length (shards st2) = length (shards st) →
          shardIndex hash st2 key = shardIndex hash st key) ∧
  (0 < length (shards st) →
   ∃ i, shardIndex hash st key = Some i ∧ 0 ≤ i < length (shards st)) ∧
  (∀ ops st', runStore hash st ops = Some st' →
              shardIndex hash st' key = shardIndex hash st key).
Proof.
  split_and!.
  - intros st2 Hlen. by apply shardIndex_length.
  - intros Hpos. assert (Hne : shards st ≠ []) by (destruct (shards st); [simpl in Hpos; lia | done]).
    destruct (shardIndex_Some hash st key Hne) as [Hi Hlt].
    eexists. split; [exact Hi|]. lia.
  - intros ops st' Hrun. apply shardIndex_length. by eapply runStore_length.
Qed.

Lemma routing_deterministic_witness :
  0 < length (shards (newStore 2 3)) ∧
  ∃ i, shardIndex lengthHash (newStore 2 3) "AB" = Some i ∧ 0 ≤ i < 3.
Proof.
  assert (Hpos : 0 < length (shards (newStore 2 3))) by (simpl; lia).
  split; [exact Hpos|].
  apply (proj1 (proj2 (routing_deterministic lengthHash (newStore 2 3) "AB")) Hpos).
Defined.

(** C9 (the eviction branch never reads an empty list).  For a shard whose
    capacity is at least 1 and whose index and recency list have the same
    size, whenever [putInShard] reaches its eviction block (the key is new
    and the index is at least as large as the capacity) the recency list is
    not empty: [back()] and [pop_back()] are defined, and so are the
    eviction block and the whole call. *)
Theorem eviction_reads_nonempty_list (sh : Shard) (key val : string) :
  1 ≤ capacity sh →
  size (store sh) = length (recencyList sh) →
  store sh !! key = None →
  capacity sh ≤ size (store sh) →
  recencyList sh ≠ [] ∧
  is_Some (Recency.back (recencyList sh)) ∧
  is_Some (Recency.pop_back (recencyList sh)) ∧
  is_Some (evictIfFull sh) ∧
  is_Some (putInShard sh key val).
Proof.
  intros Hc Hs Hnew Hfull.
  pose proof (evict_list_nonempty sh Hc Hs Hfull) as Hne.
  destruct (nonempty_snoc _ Hne) as (l0 & n & lru & Hl).
  split; [done|].
  rewrite (putInShard_new sh key val Hnew), (evictIfFull_full sh l0 n lru Hfull Hl).
  rewrite Hl, back_app_cons, pop_back_app_cons. by split_and!; eexists.
Qed.

Lemma eviction_reads_nonempty_list_witness :
  let sh := mkShard {["A" := mkEntry "1" (Some 1)]} [(1, "A")] 1 in
  1 ≤ capacity sh ∧
  size (store sh) = length (recencyList sh) ∧
  store sh !! "B" = None ∧
  capacity sh ≤ size (store sh) ∧
  recencyList sh ≠ [] ∧
  is_Some (Recency.back (recencyList sh)) ∧
  is_Some (Recency.pop_back (recencyList sh)) ∧
  is_Some (evictIfFull sh) ∧
  is_Some (putInShard sh "B" "2").
Proof.
  intros sh.
  assert (H1 : 1 ≤ capacity sh) by (simpl; lia).
  assert (H2 : size (store sh) = length (recencyList sh)) by (vm_compute; reflexivity).
  assert (H3 : store sh !! "B" = None) by (vm_compute; reflexivity).
  assert (H4 : capacity sh ≤ size (store sh)) by (vm_compute; lia).
  split; [exact H1|]. split; [exact H2|]. split; [exact H3|]. split; [exact H4|].
  apply (eviction_reads_nonempty_list sh "B" "2" H1 H2 H3 H4).
Defined.

(** C10 (the output parameter on not-found).  Whenever [get] returns
    found = false, the caller's output parameter holds what it held before
    the call, and the store is the one [get] was called on; the parameter is
    assigned only when [get] returns true, and then with the value stored
    for the key. *)
Theorem get_not_found_keeps_output (hash : string → nat) (st : Store)
    (key out : string) (found : bool) (st' : Store) (out' : string) :
  get hash st key out = Some (found, st', out') →
  (found = false → out' = out ∧ st' = st ∧ ¬ contains hash st key) ∧
  (found = true → ∃ sh e, shardOf hash st key = Some sh ∧
                          store sh !! key = Some e ∧ out' = value e).
Proof.
  unfold get, contains, shardOf.
  destruct (shardIndex hash st key) as [i|]; simpl; [|done].
  destruct (shards st !! i) as [sh|] eqn:Hsh; simpl; [|done].
  unfold getFromShard. destruct (store sh !! key) as [e|] eqn:He.
  - destruct (Recency.splice_begin _ _); simpl; [|done].
    intros [= <- <- <-]. split; [done|]. intros _. by exists sh, e.
  - simpl. intros [= <- <- <-]. split; [|done]. intros _.
    split_and!; [done | by apply store_insert_id | by intros [? ?]].
Qed.

Lemma get_not_found_keeps_output_witness :
  get lengthHash (newStore 2 3) "A" "old" = Some (false, newStore 2 3, "old") ∧
  "old" = "old".
Proof.
  assert (Hget : get lengthHash (newStore 2 3) "A" "old" = Some (false, newStore 2 3, "old"))
    by (vm_compute; reflexivity).
  split; [exact Hget|].
  exact (proj1 (proj1 (get_not_found_keeps_output lengthHash (newStore 2 3)
                         "A" "old" false (newStore 2 3) "old" Hget) eq_refl)).
Defined.

(** * Further properties of the code *)

(** ** Shard operations on the most recently used key *)

Lemma putInShard_atFront (sh : Shard) (key v : string) (r : bool * Shard) :
  wf_shard sh → putInShard sh key v = Some r → atFront r.2 key v.
Proof.
  intros Hwf. destruct (store sh !! key) as [e|] eqn:He.
  - destruct (putInShard_existing sh key v e Hwf He) as (n & l1 & l2 & Hl & ->).
    intros [= <-]. exists n, (l1 ++ l2). simpl. by rewrite lookup_insert_eq.
  - rewrite (putInShard_new sh key v He).
    destruct (evictIfFull sh) as [sh1|]; simpl; [|done]. intros [= <-].
    exists (Recency.fresh_node (recencyList sh1)), (recencyList sh1). simpl.
    by rewrite lookup_insert_eq.
Qed.

Lemma splice_begin_front (n : Recency.node) (key : string) (rest : Recency.t) :
  Recency.splice_begin ((n, key) :: rest) (Some n) = Some ((n, key) :: rest).
Proof. unfold Recency.splice_begin. simpl. by rewrite decide_True. Qed.

Lemma getFromShard_atFront (sh : Shard) (key v out : string) :
  atFront sh key v → getFromShard sh key out = Some (true, sh, v).
Proof.
  intros (n & rest & Hl & He). unfold getFromShard. rewrite He, Hl.
  cbn [recencyIt value]. rewrite splice_begin_front. simpl.
  rewrite insert_id by done.
  destruct sh as [m l c]. simpl in *. by subst l.
Qed.

Lemma putInShard_atFront_same (sh : Shard) (key v : string) :
  atFront sh key v → putInShard sh key v = Some (true, sh).
Proof.
  intros (n & rest & Hl & He). unfold putInShard. rewrite He, Hl.
  cbn [recencyIt value]. rewrite splice_begin_front. simpl.
  rewrite insert_id by done.
  destruct sh as [m l c]. simpl in *. by subst l.
Qed.

(** ** The store operations, inverted *)

Section StoreSteps.
Variable hash : string → nat.

Lemma put_inv (st : Store) (key v : string) (r : bool * Store) :
  put hash st key v = Some r →
  ∃ i sh sh', shardIndex hash st key = Some i ∧ shards st !! i = Some sh ∧
              putInShard sh key v = Some (r.1, sh') ∧
              r.2 = mkStore (<[i := sh']> (shards st)).
Proof.
  unfold put. destruct (shardIndex hash st key) as [i|]; simpl; [|done].
  destruct (shards st !! i) as [sh|] eqn:Hsh; simpl; [|done].
  destruct (putInShard sh key v) as [[b sh']|] eqn:Hput; simpl; [|done].
  intros [= <-]. by exists i, sh, sh'.
Qed.

Lemma get_inv (st : Store) (key out : string) (r : bool * Store * string) :
  get hash st key out = Some r →
  ∃ i sh sh', shardIndex hash st key = Some i ∧ shards st !! i = Some sh ∧
              getFromShard sh key out = Some (r.1.1, sh', r.2) ∧
              r.1.2 = mkStore (<[i := sh']> (shards st)).
Proof.
  unfold get. destruct (shardIndex hash st key) as [i|]; simpl; [|done].
  destruct (shards st !! i) as [sh|] eqn:Hsh; simpl; [|done].
  destruct (getFromShard sh key out) as [[[b sh'] o]|] eqn:Hget; simpl; [|done].
  intros [= <-]. by exists i, sh, sh'.
Qed.

Lemma del_inv (st : Store) (key : string) (r : bool * Store) :
  del hash st key = Some r →
  ∃ i sh sh', shardIndex hash st key = Some i ∧ shards st !! i = Some sh ∧
              delFromShard sh key = Some (r.1, sh') ∧
              r.2 = mkStore (<[i := sh']> (shards st)).
Proof.
  unfold del. destruct (shardIndex hash st key) as [i|]; simpl; [|done].
  destruct (shards st !! i) as [sh|] eqn:Hsh; simpl; [|done].
  destruct (delFromShard sh key) as [[b sh']|] eqn:Hdel; simpl; [|done].
  intros [= <-]. by exists i, sh, sh'.
Qed.

(** The owner of a key after one shard has been replaced. *)
Lemma shardOf_insert (st : Store) (i : nat) (sh' : Shard) (k : string) :
  i < length (shards st) →
  shardOf hash (mkStore (<[i := sh']> (shards st))) k =
    if decide (shardIndex hash st k = Some i) then Some sh' else shardOf hash st k.
Proof.
  intros Hi. unfold shardOf.
  rewrite (shardIndex_length hash _ st k) by (simpl; apply length_insert).
  destruct (shardIndex hash st k) as [j|] eqn:Hj; simpl.
  - case_decide as Hji.
    + injection Hji as ->. by rewrite list_lookup_insert_eq.
    + rewrite list_lookup_insert_ne; [done|]. congruence.
  - done.
Qed.

Lemma lookupStore_insert (st : Store) (i : nat) (sh' : Shard) (k : string) :
  i < length (shards st) →
  lookupStore hash (mkStore (<[i := sh']> (shards st))) k =
    if decide (shardIndex hash st k = Some i) then valueOf sh' k
    else lookupStore hash st k.
Proof.
  intros Hi. unfold lookupStore. rewrite shardOf_insert by done. by case_decide.
Qed.

Lemma lookupStore_owner (st : Store) (i : nat) (sh : Shard) (k : string) :
  shardIndex hash st k = Some i → shards st !! i = Some sh →
  lookupStore hash st k = valueOf sh k.
Proof. intros Hi Hsh. unfold lookupStore, shardOf. rewrite Hi. simpl. by rewrite Hsh. Qed.

End StoreSteps.

(** ** Round trips and frames of the single-key operations *)

Section StoreRoundTrips.
Variable hash : string → nat.

Lemma owner_after_insert (st : Store) (i : nat) (sh sh' : Shard) (key : string) :
  shardIndex hash st key = Some i → shards st !! i = Some sh →
  shardIndex hash (mkStore (<[i := sh']> (shards st))) key = Some i ∧
  shards (mkStore (<[i := sh']> (shards st))) !! i = Some sh'.
Proof.
  intros Hi Hsh. split.
  - rewrite (shardIndex_length hash _ st key); [done|]. simpl. apply length_insert.
  - simpl. apply list_lookup_insert_eq. by eapply lookup_lt_Some.
Qed.

Lemma getFromShard_touched (sh sh' : Shard) (key out v : string) :
  wf_shard sh → getFromShard sh key out = Some (true, sh', v) → atFront sh' key v.
Proof.
  intros Hwf. destruct (store sh !! key) as [e|] eqn:He.
  - destruct (getFromShard_present sh key out e Hwf He) as (n & l1 & l2 & Hl & ->).
    intros [= <- <-]. exists n, (l1 ++ l2). simpl. by rewrite lookup_insert_eq.
  - by rewrite (getFromShard_absent sh key out He).
Qed.

(** The sizes of the shards after a shard has been replaced by one of the
    same size. *)
Lemma totalKeys_insert_same (st : Store) (i : nat) (sh sh' : Shard) :
  shards st !! i = Some sh → size (store sh') = size (store sh) →
  totalKeys (mkStore (<[i := sh']> (shards st))) = totalKeys st.
Proof.
  intros Hsh Hsize. unfold totalKeys. simpl. rewrite list_fmap_insert, Hsize.
  rewrite list_insert_id; [done|]. by rewrite list_lookup_fmap, Hsh.
Qed.

End StoreRoundTrips.

(** A [get] right after a [put] of the same key. *)
Lemma put_then_get_store (hash : string → nat) (st : Store) (key val out : string) :
  storeInv st →
  ∃ st1, put hash st key val = Some (true, st1) ∧
         get hash st1 key out = Some (true, st1, val).
Proof.
  intros Hinv. destruct (storeInv_put hash st key val Hinv) as (st1 & Hput & _).
  exists st1. split; [done|].
  destruct (put_inv hash st key val _ Hput) as (i & sh & sh' & Hi & Hsh & Hps & Hst1).
  simpl in Hps, Hst1.
  pose proof (wf_store_lookup st i sh (proj1 Hinv) Hsh) as Hwf.
  pose proof (putInShard_atFront sh key val _ Hwf Hps) as Hfront. simpl in Hfront.
  destruct (owner_after_insert hash st i sh sh' key Hi Hsh) as [Hi1 Hsh1].
  rewrite <- Hst1 in Hi1, Hsh1.
  rewrite (get_shard hash st1 key out i sh' Hi1 Hsh1).
  rewrite (getFromShard_atFront sh' key val out Hfront). simpl.
  by rewrite (store_insert_id st1 i sh' Hsh1).
Qed.

(** X1 (put then get).  On a store that satisfies its invariant and has
    positive capacities, [put] succeeds, and a [get] of the same key right
    after it finds the value just put and leaves the store exactly as the
    [put] left it. *)
Theorem put_get_roundtrip (hash : string → nat) (st : Store) (key val out : string) :
  storeInv st →
  ∃ st1, put hash st key val = Some (true, st1) ∧
         get hash st1 key out = Some (true, st1, val).
Proof. apply put_then_get_store. Qed.

Lemma put_get_roundtrip_witness :
  storeInv exampleStore ∧
  ∃ st1, put lengthHash exampleStore "DD" "4" = Some (true, st1) ∧
         get lengthHash st1 "DD" "" = Some (true, st1, "4").
Proof.
  assert (Hinv : storeInv exampleStore)
    by (apply (bool_decide_unpack _); vm_compute; exact I).
  split; [exact Hinv|].
  apply (put_get_roundtrip lengthHash exampleStore "DD" "4" "" Hinv).
Defined.

(** X2 (touching the most recently used key again changes nothing).  On a
    store that satisfies its invariant, repeating a [put] of the same pair
    right after it, or repeating a successful [get], returns the same result
    and leaves the store exactly as it was. *)
Theorem repeated_touch_is_noop (hash : string → nat) (st : Store) (key : string) :
  wf_store st →
  (∀ val b st1, put hash st key val = Some (b, st1) →
                put hash st1 key val = Some (true, st1)) ∧
  (∀ out v st1, get hash st key out = Some (true, st1, v) →
                ∀ out', get hash st1 key out' = Some (true, st1, v)).
Proof.
  intros Hwf. split.
  - intros val b st1 Hput.
    destruct (put_inv hash st key val _ Hput) as (i & sh & sh' & Hi & Hsh & Hps & Hst1).
    simpl in Hps, Hst1.
    pose proof (wf_store_lookup st i sh Hwf Hsh) as Hwfsh.
    pose proof (putInShard_atFront sh key val _ Hwfsh Hps) as Hfront. simpl in Hfront.
    destruct (owner_after_insert hash st i sh sh' key Hi Hsh) as [Hi1 Hsh1].
    rewrite <- Hst1 in Hi1, Hsh1.
    rewrite (put_shard hash st1 key val i sh' Hi1 Hsh1).
    rewrite (putInShard_atFront_same sh' key val Hfront). simpl.
    by rewrite (store_insert_id st1 i sh' Hsh1).
  - intros out v st1 Hget out'.
    destruct (get_inv hash st key out _ Hget) as (i & sh & sh' & Hi & Hsh & Hgs & Hst1).
    simpl in Hgs, Hst1.
    pose proof (wf_store_lookup st i sh Hwf Hsh) as Hwfsh.
    pose proof (getFromShard_touched sh sh' key out v Hwfsh Hgs) as Hfront.
    destruct (owner_after_insert hash st i sh sh' key Hi Hsh) as [Hi1 Hsh1].
    rewrite <- Hst1 in Hi1, Hsh1.
    rewrite (get_shard hash st1 key out' i sh' Hi1 Hsh1).
    rewrite (getFromShard_atFront sh' key v out' Hfront). simpl.
    by rewrite (store_insert_id st1 i sh' Hsh1).
Qed.

Lemma repeated_touch_is_noop_witness :
  wf_store exampleStore ∧
  ∃ st1, get lengthHash exampleStore "A" "" = Some (true, st1, "1") ∧
         get lengthHash st1 "A" "x" = Some (true, st1, "1").
Proof.
  assert (Hwf : wf_store exampleStore)
    by (apply (bool_decide_unpack _); vm_compute; exact I).
  split; [exact Hwf|].
  destruct (get lengthHash exampleStore "A" "") as [[[b st1] v]|] eqn:Hget;
    [|by vm_compute in Hget].
  assert (Hb : (b, v) = (true, "1")).
  { assert (H : (λ r : bool * Store * string, (r.1.1, r.2))
                  <$> get lengthHash exampleStore "A" "" = Some (true, "1"))
      by (vm_compute; reflexivity).
    rewrite Hget in H. simpl in H. by injection H as -> ->. }
  injection Hb as -> ->. exists st1. split; [reflexivity|].
  apply (proj2 (repeated_touch_is_noop lengthHash exampleStore "A" Hwf) "" "1" st1 Hget "x").
Defined.

(** [get] in terms of the values of the store. *)
Lemma get_store_spec (hash : string → nat) (st : Store) (key out : string) :
  wf_store st →
  ∃ found st' out',
    get hash st key out = Some (found, st', out') ∧
    match lookupStore hash st key with
    | Some v => found = true ∧ out' = v
    | None => found = false ∧ out' = out ∧ st' = st
    end ∧
    (∀ k, lookupStore hash st' k = lookupStore hash st k) ∧
    totalKeys st' = totalKeys st ∧
    wf_store st'.
Proof.
  intros Hwf. destruct (shardOf_defined hash st key (proj1 Hwf))
    as (i & sh & Hi & Hsh & Hof).
  pose proof (wf_store_lookup st i sh Hwf Hsh) as Hwfsh.
  rewrite (get_shard hash st key out i sh Hi Hsh).
  rewrite (lookupStore_owner hash st i sh key Hi Hsh). unfold valueOf.
  destruct (store sh !! key) as [e|] eqn:He.
  - destruct (getFromShard_present_spec sh key out Hwfsh ltac:(by eexists))
      as (sh' & v & Hget & Hv & _ & Hvals).
    rewrite Hget. simpl. eexists true, _, v. split; [done|].
    unfold valueOf in Hv. rewrite He in Hv. simpl in Hv. injection Hv as <-.
    split_and!; try done.
    + intros k. rewrite lookupStore_insert by by eapply lookup_lt_Some.
      case_decide as Hk; [|done].
      by rewrite (lookupStore_owner hash st i sh k Hk Hsh).
    + apply (totalKeys_insert_same st i sh sh' Hsh).
      pose proof (getFromShard_size sh key out _ Hget) as Hs. done.
    + apply wf_store_insert; [done|].
      apply (getFromShard_wf sh key out _ Hwfsh Hget).
  - rewrite (getFromShard_absent sh key out He). simpl.
    rewrite (store_insert_id st i sh Hsh). eexists false, st, out.
    by split_and!.
Qed.

(** X3 (get is read-only but for recency).  On a store that satisfies its
    invariant, [get] always returns; it reports found exactly when the owner
    shard holds the key, with the stored value, and afterwards every key of
    the store has the value it had, and the store has as many keys. *)
Theorem get_preserves_contents (hash : string → nat) (st : Store) (key out : string) :
  wf_store st →
  ∃ found st' out',
    get hash st key out = Some (found, st', out') ∧
    match lookupStore hash st key with
    | Some v => found = true ∧ out' = v
    | None => found = false ∧ out' = out ∧ st' = st
    end ∧
    (∀ k, lookupStore hash st' k = lookupStore hash st k) ∧
    totalKeys st' = totalKeys st ∧
    wf_store st'.
Proof. apply get_store_spec. Qed.

Lemma get_preserves_contents_witness :
  wf_store exampleStore ∧
  ∃ found st' out',
    get lengthHash exampleStore "A" "" = Some (found, st', out') ∧
    lookupStore lengthHash st' "C" = lookupStore lengthHash exampleStore "C" ∧
    totalKeys st' = totalKeys exampleStore.
Proof.
  assert (Hwf : wf_store exampleStore)
    by (apply (bool_decide_unpack _); vm_compute; exact I).
  split; [exact Hwf|].
  destruct (get_preserves_contents lengthHash exampleStore "A" "" Hwf)
    as (found & st' & out' & Hget & _ & Hvals & Htotal & _).
  exists found, st', out'. split; [exact Hget|]. split; [apply Hvals | exact Htotal].
Defined.

(** ** Deleting, evicting and counting *)

Section StoreCounts.
Variable hash : string → nat.

Lemma totalKeys_insert (st : Store) (i : nat) (sh sh' : Shard) :
  shards st !! i = Some sh →
  totalKeys (mkStore (<[i := sh']> (shards st))) + size (store sh) =
    totalKeys st + size (store sh').
Proof.
  unfold totalKeys. destruct st as [l]. simpl. revert i.
  induction l as [|x l IH]; intros i Hsh; [done|]. destruct i as [|i]; simpl in *.
  - injection Hsh as ->. lia.
  - specialize (IH i Hsh). unfold fmap in IH. lia.
Qed.

Lemma totalKeys_bound (st : Store) (C : nat) :
  Forall (λ sh, size (store sh) ≤ C) (shards st) →
  totalKeys st ≤ length (shards st) * C.
Proof.
  unfold totalKeys. induction 1 as [|sh l Hsh _ IH]; simpl; [lia|].
  unfold fmap in IH. lia.
Qed.

End StoreCounts.

(** [del] in terms of the values of the store. *)
Lemma del_store_spec (hash : string → nat) (st : Store) (key out : string) :
  wf_store st →
  ∃ b st',
    del hash st key = Some (b, st') ∧
    ((b = true) ↔ is_Some (lookupStore hash st key)) ∧
    lookupStore hash st' key = None ∧
    (∀ k, k ≠ key → lookupStore hash st' k = lookupStore hash st k) ∧
    get hash st' key out = Some (false, st', out) ∧
    del hash st' key = Some (false, st') ∧
    totalKeys st' + (if b then 1 else 0) = totalKeys st ∧
    wf_store st'.
Proof.
  intros Hwf. destruct (shardOf_defined hash st key (proj1 Hwf))
    as (i & sh & Hi & Hsh & Hof).
  pose proof (wf_store_lookup st i sh Hwf Hsh) as Hwfsh.
  assert (Hlt : i < length (shards st)) by by eapply lookup_lt_Some.
  rewrite (del_shard hash st key i sh Hi Hsh).
  assert (Hres : ∃ b sh', delFromShard sh key = Some (b, sh') ∧
                   ((b = true) ↔ is_Some (store sh !! key)) ∧
                   store sh' !! key = None ∧ wf_shard sh' ∧
                   (∀ k, k ≠ key → valueOf sh' k = valueOf sh k) ∧
                   size (store sh') + (if b then 1 else 0) = size (store sh)).
  { destruct (store sh !! key) as [e|] eqn:He.
    - destruct (delFromShard_present_spec sh key Hwfsh ltac:(by eexists))
        as (sh' & Hdel & Hstore & _ & _).
      exists true, sh'. split_and!; try done.
      + rewrite Hstore. apply lookup_delete_eq.
      + apply (delFromShard_wf sh key _ Hwfsh Hdel).
      + intros k Hk. unfold valueOf. by rewrite Hstore, lookup_delete_ne.
      + rewrite Hstore, map_size_delete, He. simpl.
        pose proof (map_size_ne_0_lookup_2 (store sh) key ltac:(by eexists)). lia.
    - exists false, sh. rewrite (delFromShard_absent sh key He).
      split_and!; try done; lia. }
  destruct Hres as (b & sh' & Hdel & Hb & Hgone & Hwf' & Hvals & Hsize).
  rewrite Hdel. simpl. eexists b, _. split; [done|].
  destruct (owner_after_insert hash st i sh sh' key Hi Hsh) as [Hi1 Hsh1].
  split_and!.
  - rewrite (lookupStore_owner hash st i sh key Hi Hsh), Hb. unfold valueOf.
    by rewrite fmap_is_Some.
  - rewrite lookupStore_insert, decide_True by done. unfold valueOf. by rewrite Hgone.
  - intros k Hk. rewrite lookupStore_insert by done. case_decide as Hki; [|done].
    rewrite (lookupStore_owner hash st i sh k Hki Hsh). by apply Hvals.
  - rewrite (get_shard hash _ key out i sh' Hi1 Hsh1).
    rewrite (getFromShard_absent sh' key out Hgone).
    pose proof (store_insert_id _ i sh' Hsh1) as Hid. simpl in *. by rewrite Hid.
  - rewrite (del_shard hash _ key i sh' Hi1 Hsh1).
    rewrite (delFromShard_absent sh' key Hgone).
    pose proof (store_insert_id _ i sh' Hsh1) as Hid. simpl in *. by rewrite Hid.
  - pose proof (totalKeys_insert st i sh sh' Hsh). lia.
  - by apply wf_store_insert.
Qed.

(** X4 (delete).  On a store that satisfies its invariant, [del] always
    returns; afterwards the key is gone (a [get] reports not-found and a
    second [del] returns false, both leaving the store unchanged), every
    other key has the value it had, and [del] returned true, and the store
    has one key less, exactly when the key had a value. *)
Theorem del_removes_only_the_key (hash : string → nat) (st : Store) (key out : string) :
  wf_store st →
  ∃ b st',
    del hash st key = Some (b, st') ∧
    ((b = true) ↔ is_Some (lookupStore hash st key)) ∧
    lookupStore hash st' key = None ∧
    (∀ k, k ≠ key → lookupStore hash st' k = lookupStore hash st k) ∧
    get hash st' key out = Some (false, st', out) ∧
    del hash st' key = Some (false, st') ∧
    totalKeys st' + (if b then 1 else 0) = totalKeys st ∧
    wf_store st'.
Proof. apply del_store_spec. Qed.

Lemma del_removes_only_the_key_witness :
  wf_store exampleStore ∧
  ∃ b st',
    del lengthHash exampleStore "A" = Some (b, st') ∧
    lookupStore lengthHash st' "A" = None ∧
    lookupStore lengthHash st' "C" = lookupStore lengthHash exampleStore "C" ∧
    get lengthHash st' "A" "" = Some (false, st', "").
Proof.
  assert (Hwf : wf_store exampleStore)
    by (apply (bool_decide_unpack _); vm_compute; exact I).
  split; [exact Hwf|].
  destruct (del_removes_only_the_key lengthHash exampleStore "A" "" Hwf)
    as (b & st' & Hdel & _ & Hgone & Hvals & Hget & _).
  exists b, st'. split; [exact Hdel|]. split; [exact Hgone|].
  split; [|exact Hget]. apply Hvals. discriminate.
Defined.

(** [put] in terms of the values of the store. *)
Lemma put_store_spec (hash : string → nat) (st : Store) (key val : string) :
  storeInv st → routed hash st →
  ∃ st' victims,
    put hash st key val = Some (true, st') ∧
    lookupStore hash st' key = Some val ∧
    length victims ≤ 1 ∧
    (∀ k, k ≠ key →
          lookupStore hash st' k =
            if decide (k ∈ victims) then None else lookupStore hash st k) ∧
    (∀ k, k ∈ victims →
          is_Some (lookupStore hash st k) ∧
          shardIndex hash st k = shardIndex hash st key) ∧
    (is_Some (lookupStore hash st key) → victims = []) ∧
    (∀ sh, shardOf hash st key = Some sh → size (store sh) < capacity sh →
           victims = []) ∧
    totalKeys st ≤ totalKeys st' + length victims.
Proof.
  intros [Hwf Hpos] Hr. destruct (shardOf_defined hash st key (proj1 Hwf))
    as (i & sh & Hi & Hsh & Hof).
  pose proof (wf_store_lookup st i sh Hwf Hsh) as Hwfsh.
  assert (Hc : 1 ≤ capacity sh) by (by eapply (Forall_lookup_1 _ _ _ _ Hpos)).
  assert (Hlt : i < length (shards st)) by by eapply lookup_lt_Some.
  rewrite (put_shard hash st key val i sh Hi Hsh).
  rewrite (lookupStore_owner hash st i sh key Hi Hsh), Hof.
  assert (Hres : ∃ sh' victims, putInShard sh key val = Some (true, sh') ∧
             valueOf sh' key = Some val ∧ length victims ≤ 1 ∧
             (∀ k, k ≠ key → valueOf sh' k =
                               if decide (k ∈ victims) then None else valueOf sh k) ∧
             (∀ k, k ∈ victims → is_Some (store sh !! k)) ∧
             (is_Some (valueOf sh key) → victims = []) ∧
             (size (store sh) < capacity sh → victims = []) ∧
             size (store sh) ≤ size (store sh') + length victims).
  { destruct (store sh !! key) as [e|] eqn:He.
    - destruct (putInShard_existing_spec sh key val Hwfsh ltac:(by eexists))
        as (sh' & Hput & _ & Hv & Hvo & _ & Hsize).
      exists sh', []. split_and!; try done.
      + simpl. lia.
      + intros k Hk%elem_of_nil. done.
      + simpl. lia.
    - destruct (decide (capacity sh ≤ size (store sh))) as [Hfull|Hroom].
      + destruct (putInShard_full_spec sh key val Hwfsh Hc He Hfull)
          as (sh' & ks & lru & Hput & Hks & Hks' & Hv & Hvl & Hvo).
        assert (Hin : is_Some (store sh !! lru)).
        { apply (wf_key_in_list sh lru Hwfsh). rewrite Hks. apply elem_of_app.
          right. apply elem_of_cons. by left. }
        exists sh', [lru]. split_and!; try done.
        * intros k Hk. case_decide as Hkv.
          -- apply list_elem_of_singleton in Hkv. by subst k.
          -- apply Hvo; [done|]. intros ->. apply Hkv. apply elem_of_cons. by left.
        * intros k Hk%list_elem_of_singleton. by subst k.
        * unfold valueOf. rewrite He. by intros [? ?].
        * intros ?. lia.
        * assert (Hwf' : wf_shard sh') by apply (putInShard_wf sh key val _ Hwfsh Hput).
          rewrite (wf_size sh Hwfsh), (wf_size sh' Hwf').
          assert (H1 : length (recencyKeys sh) = S (length ks))
            by (rewrite Hks, length_app; simpl; lia).
          assert (H2 : length (recencyKeys sh') = S (length ks)) by by rewrite Hks'.
          unfold recencyKeys, Recency.keys in H1, H2. rewrite length_fmap in H1, H2.
          simpl. lia.
      + destruct (putInShard_room_spec sh key val He ltac:(lia))
          as (sh' & Hput & Hks & Hv & Hvo).
        exists sh', []. split_and!; try done.
        * simpl. lia.
        * intros k Hk%elem_of_nil. done.
        * assert (Hwf' : wf_shard sh') by apply (putInShard_wf sh key val _ Hwfsh Hput).
          rewrite (wf_size sh Hwfsh), (wf_size sh' Hwf').
          assert (H2 : length (recencyKeys sh') = S (length (recencyKeys sh)))
            by by rewrite Hks.
          unfold recencyKeys, Recency.keys in H2. rewrite !length_fmap in H2.
          simpl. lia. }
  destruct Hres as (sh' & victims & Hput & Hv & Hlen & Hvo & Hvin & Hpres & Hroom & Hsz).
  rewrite Hput. simpl. eexists _, victims. split; [done|]. split_and!; try done.
  - by rewrite lookupStore_insert, decide_True by done.
  - intros k Hk. rewrite lookupStore_insert by done. case_decide as Hki.
    + rewrite (lookupStore_owner hash st i sh k Hki Hsh). by apply Hvo.
    + case_decide as Hkv; [|done]. exfalso. apply Hki.
      pose proof (proj1 (routed_lookup hash st) Hr i sh k Hsh (Hvin k Hkv)) as Hrk.
      destruct (shardIndex_Some hash st k (proj1 Hwf)) as [-> _]. by rewrite Hrk.
  - intros k Hk.
    pose proof (proj1 (routed_lookup hash st) Hr i sh k Hsh (Hvin k Hk)) as Hrk.
    assert (Hki : shardIndex hash st k = Some i).
    { destruct (shardIndex_Some hash st k (proj1 Hwf)) as [-> _]. by rewrite Hrk. }
    split; [|by rewrite Hki, Hi].
    rewrite (lookupStore_owner hash st i sh k Hki Hsh). unfold valueOf.
    destruct (Hvin k Hk) as [e ->]. by eexists.
  - intros s [= <-]. apply Hroom.
  - pose proof (totalKeys_insert st i sh sh' Hsh). lia.
Qed.

(** X5 (what a put can cost).  On a store built by the public operations
    (it satisfies its invariants, with positive capacities), [put] stores
    the value for its key and changes the value of no other key; it removes
    at most one other key, a key of the same shard, and none at all when the
    key was already present or its shard still had room. *)
Theorem put_evicts_at_most_one (hash : string → nat) (st : Store) (key val : string) :
  storeInv st → routed hash st →
  ∃ st' victims,
    put hash st key val = Some (true, st') ∧
    lookupStore hash st' key = Some val ∧
    length victims ≤ 1 ∧
    (∀ k, k ≠ key →
          lookupStore hash st' k =
            if decide (k ∈ victims) then None else lookupStore hash st k) ∧
    (∀ k, k ∈ victims →
          is_Some (lookupStore hash st k) ∧
          shardIndex hash st k = shardIndex hash st key) ∧
    (is_Some (lookupStore hash st key) → victims = []) ∧
    (∀ sh, shardOf hash st key = Some sh → size (store sh) < capacity sh →
           victims = []) ∧
    totalKeys st ≤ totalKeys st' + length victims.
Proof. apply put_store_spec. Qed.

Lemma put_evicts_at_most_one_witness :
  storeInv exampleStore ∧ routed lengthHash exampleStore ∧
  ∃ st' (victims : list string),
    put lengthHash exampleStore "E" "5" = Some (true, st') ∧
    lookupStore lengthHash st' "E" = Some "5" ∧
    length victims ≤ 1.
Proof.
  assert (Hinv : storeInv exampleStore)
    by (apply (bool_decide_unpack _); vm_compute; exact I).
  assert (Hr : routed lengthHash exampleStore)
    by (apply (bool_decide_unpack _); vm_compute; exact I).
  split; [exact Hinv|]. split; [exact Hr|].
  destruct (put_evicts_at_most_one lengthHash exampleStore "E" "5" Hinv Hr)
    as (st' & victims & Hput & Hv & Hlen & _).
  exists st', victims. split; [exact Hput|]. split; [exact Hv | exact Hlen].
Defined.

(** ** The capacity bound of the whole store *)

Section StoreBound.
Variable hash : string → nat.

Lemma withinCapacity_insert (st : Store) (i : nat) (sh sh' : Shard) :
  withinCapacity st → shards st !! i = Some sh →
  capacity sh' = capacity sh → size (store sh') ≤ capacity sh →
  withinCapacity (mkStore (<[i := sh']> (shards st))).
Proof.
  intros Hb Hsh Hcap Hsize. apply Forall_insert; [done|]. by rewrite Hcap.
Qed.

Lemma withinCapacity_put (st : Store) (key v : string) (r : bool * Store) :
  wf_store st → withinCapacity st → put hash st key v = Some r →
  withinCapacity r.2.
Proof.
  intros Hwf Hb Hput.
  destruct (put_inv hash st key v r Hput) as (i & sh & sh' & _ & Hsh & Hps & ->).
  pose proof (wf_store_lookup st i sh Hwf Hsh) as Hwfsh.
  assert (Hle : size (store sh) ≤ capacity sh) by by eapply (Forall_lookup_1 _ _ _ _ Hb).
  apply (withinCapacity_insert st i sh sh' Hb Hsh).
  - apply (putInShard_capacity sh key v _ Hps).
  - apply (putInShard_size_le sh key v _ Hwfsh Hle Hps).
Qed.

Lemma withinCapacity_get (st : Store) (key out : string) (r : bool * Store * string) :
  withinCapacity st → get hash st key out = Some r → withinCapacity r.1.2.
Proof.
  intros Hb Hget.
  destruct (get_inv hash st key out r Hget) as (i & sh & sh' & _ & Hsh & Hgs & ->).
  assert (Hle : size (store sh) ≤ capacity sh) by by eapply (Forall_lookup_1 _ _ _ _ Hb).
  apply (withinCapacity_insert st i sh sh' Hb Hsh).
  - apply (getFromShard_capacity sh key out _ Hgs).
  - pose proof (getFromShard_size sh key out _ Hgs) as Hs. simpl in Hs. lia.
Qed.

Lemma withinCapacity_del (st : Store) (key : string) (r : bool * Store) :
  withinCapacity st → del hash st key = Some r → withinCapacity r.2.
Proof.
  intros Hb Hdel.
  destruct (del_inv hash st key r Hdel) as (i & sh & sh' & _ & Hsh & Hds & ->).
  assert (Hle : size (store sh) ≤ capacity sh) by by eapply (Forall_lookup_1 _ _ _ _ Hb).
  apply (withinCapacity_insert st i sh sh' Hb Hsh).
  - apply (delFromShard_capacity sh key _ Hds).
  - pose proof (delFromShard_size sh key _ Hds) as Hs. simpl in Hs. lia.
Qed.

Lemma withinCapacity_clear (st : Store) : withinCapacity (clear st).
Proof.
  unfold withinCapacity, clear. simpl. apply Forall_fmap, Forall_true.
  intros sh. simpl. rewrite map_size_empty. lia.
Qed.

Lemma totalKeys_clear (st : Store) : totalKeys (clear st) = 0.
Proof.
  unfold totalKeys, clear. destruct st as [l]. simpl.
  induction l as [|x l IH]; [done|]. simpl. rewrite map_size_empty. exact IH.
Qed.

Lemma withinCapacity_step (C : nat) (st st' : Store) (op : StoreOp) :
  builtInv hash C st ∧ withinCapacity st → stepStore hash st op = Some st' →
  builtInv hash C st' ∧ withinCapacity st'.
Proof.
  intros [Hinv Hb] Hstep. split; [by eapply builtInv_step|].
  destruct op as [key v|key|key|kvs|]; simpl in Hstep.
  - destruct (put hash st key v) as [r|] eqn:E; simpl in Hstep; [|done].
    injection Hstep as <-. by eapply withinCapacity_put; [apply Hinv|..].
  - destruct (get hash st key "") as [r|] eqn:E; simpl in Hstep; [|done].
    injection Hstep as <-. by eapply withinCapacity_get.
  - destruct (del hash st key) as [r|] eqn:E; simpl in Hstep; [|done].
    injection Hstep as <-. by eapply withinCapacity_del.
  - rewrite putMany_putEach in Hstep.
    refine (proj2 (foldM_preserves (λ s, builtInv hash C s ∧ withinCapacity s)
                     _ st kvs st' (conj Hinv Hb) _ Hstep)).
    intros s kv s' [Hs1 Hs2] Hs. destruct (put hash s kv.1 kv.2) as [r|] eqn:E; [|done].
    simpl in Hs. injection Hs as <-. split.
    + by eapply builtInv_put.
    + by eapply withinCapacity_put; [apply Hs1|..].
  - injection Hstep as <-. apply withinCapacity_clear.
Qed.

End StoreBound.

(** X6 (total capacity).  A store built by any sequence of public operations
    from [Store(C, n)] with at least one shard still has [n] shards, no
    shard holds more than [C] keys, and the store holds at most [n * C] keys
    in total. *)
Theorem total_keys_bounded (hash : string → nat) (C n : nat) (st : Store) :
  1 ≤ n → reachable hash C n st →
  length (shards st) = n ∧
  Forall (λ sh, size (store sh) ≤ C) (shards st) ∧
  totalKeys st ≤ n * C.
Proof.
  intros Hn [ops Hrun].
  assert (Hinv : builtInv hash C st ∧ withinCapacity st).
  { revert Hrun. apply (foldM_preserves (λ s, builtInv hash C s ∧ withinCapacity s)).
    - split; [split_and!|].
      + by apply wf_newStore.
      + apply routed_newStore.
      + simpl. by apply Forall_replicate.
      + unfold withinCapacity. simpl. apply Forall_replicate. simpl.
        rewrite map_size_empty. lia.
    - intros s op s' Hs Hstep. by eapply withinCapacity_step. }
  destruct Hinv as [(_ & _ & Hcap) Hb].
  assert (Hlen : length (shards st) = n).
  { rewrite (runStore_length hash _ st ops Hrun). simpl. apply length_replicate. }
  assert (Hall : Forall (λ sh, size (store sh) ≤ C) (shards st)).
  { apply Forall_lookup. intros i sh Hsh.
    pose proof (Forall_lookup_1 _ _ _ _ Hcap Hsh) as Hc. simpl in Hc.
    pose proof (Forall_lookup_1 _ _ _ _ Hb Hsh) as Hs. simpl in Hs. lia. }
  split; [done|]. split; [done|]. rewrite <- Hlen. by apply totalKeys_bound.
Qed.

Lemma total_keys_bounded_witness :
  1 ≤ 3 ∧ reachable lengthHash 2 3 exampleStore ∧ totalKeys exampleStore ≤ 3 * 2.
Proof.
  assert (Hn : 1 ≤ 3) by lia.
  assert (Hreach : reachable lengthHash 2 3 exampleStore).
  { exists [SPut "A" "1"; SPut "BB" "2"; SPut "C" "3"]. vm_compute. reflexivity. }
  split; [exact Hn|]. split; [exact Hreach|].
  exact (proj2 (proj2 (total_keys_bounded lengthHash 2 3 exampleStore Hn Hreach))).
Defined.

(** X7 (capacity 0).  With capacity 0 every [put] has undefined behaviour:
    the eviction block reads [back()] of an empty list.  A sequence of shard
    operations started on an empty shard of capacity 0 is defined exactly
    when it contains no put, and then leaves the shard empty; and on a new
    store of capacity 0 every [put] is undefined. *)
Theorem capacity_zero_put_undefined (hash : string → nat) :
  (∀ ops, runShard (newShard 0) ops =
            if forallb (λ op, negb (isPut op)) ops then Some (newShard 0) else None) ∧
  (∀ n key val, put hash (newStore 0 n) key val = None).
Proof.
  split.
  - induction ops as [|op ops IH]; [done|]. unfold runShard in *. cbn [foldM forallb].
    destruct op as [key v|key|key|]; simpl; try exact IH. done.
  - intros n key val. unfold put.
    destruct (shardIndex hash (newStore 0 n) key) as [i|]; simpl; [|done].
    destruct (replicate n (newShard 0) !! i) as [sh|] eqn:Hsh; simpl; [|done].
    apply lookup_replicate in Hsh as [-> _]. done.
Qed.

(** X8 (no shard).  A store constructed with zero shards cannot route any
    key: [put], [get] and [del] are undefined ([shardIndex] divides by the
    number of shards), and so is [putMany] unless the batch is empty; [clear]
    and [putMany] of no pair leave it as it is. *)
Theorem zero_shards_unusable (hash : string → nat) (st : Store)
    (key val out : string) (kvs : list (string * string)) :
  shards st = [] →
  put hash st key val = None ∧
  get hash st key out = None ∧
  del hash st key = None ∧
  putMany hash st kvs = (if kvs is [] then Some st else None) ∧
  clear st = st.
Proof.
  intros Hnil. unfold put, get, del. rewrite (shardIndex_None hash st key Hnil).
  split_and!; try done.
  - rewrite putMany_putEach. destruct kvs as [|kv kvs]; [done|].
    unfold putEach, put. simpl. by rewrite (shardIndex_None hash st kv.1 Hnil).
  - unfold clear. rewrite Hnil. destruct st as [l]. simpl in *. by subst l.
Qed.

Lemma zero_shards_unusable_witness :
  shards (newStore 100 0) = [] ∧
  put lengthHash (newStore 100 0) "A" "1" = None ∧
  putMany lengthHash (newStore 100 0) [("A", "1")] = None.
Proof.
  assert (Hnil : shards (newStore 100 0) = []) by reflexivity.
  split; [exact Hnil|].
  destruct (zero_shards_unusable lengthHash (newStore 100 0) "A" "1" "" [("A", "1")] Hnil)
    as (Hput & _ & _ & Hmany & _).
  split; [exact Hput | exact Hmany].
Defined.

(** X9 (clear).  After [clear], on any store with at least one shard and
    whatever state its shards were in, every [get] reports not-found and
    every [del] returns false (both leave the store unchanged), the store
    holds no key, it satisfies its invariants, and every shard has kept its
    capacity; clearing twice is clearing once. *)
Theorem clear_empties_store (hash : string → nat) (st : Store) (key out : string) :
  shards st ≠ [] →
  get hash (clear st) key out = Some (false, clear st, out) ∧
  del hash (clear st) key = Some (false, clear st) ∧
  totalKeys (clear st) = 0 ∧
  wf_store (clear st) ∧ routed hash (clear st) ∧
  capacity <$> shards (clear st) = capacity <$> shards st ∧
  clear (clear st) = clear st.
Proof.
  intros Hne.
  assert (Hne' : shards (clear st) ≠ []).
  { simpl. intros Hnil. by apply fmap_nil_inv in Hnil. }
  destruct (shardOf_defined hash (clear st) key Hne') as (i & sh & Hi & Hsh & _).
  assert (Hempty : store sh !! key = None).
  { simpl in Hsh. rewrite list_lookup_fmap in Hsh.
    destruct (shards st !! i); [|done]. by injection Hsh as <-. }
  split_and!.
  - rewrite (get_shard hash _ key out i sh Hi Hsh), (getFromShard_absent sh key out Hempty).
    simpl. pose proof (store_insert_id _ i sh Hsh) as Hid. simpl in Hid. by rewrite Hid.
  - rewrite (del_shard hash _ key i sh Hi Hsh), (delFromShard_absent sh key Hempty).
    simpl. pose proof (store_insert_id _ i sh Hsh) as Hid. simpl in Hid. by rewrite Hid.
  - apply totalKeys_clear.
  - split; [done|]. simpl. apply Forall_fmap, Forall_true. intros s. apply wf_clearShard.
  - apply routed_clear.
  - simpl. rewrite <- list_fmap_compose. done.
  - unfold clear. simpl. f_equal. rewrite <- list_fmap_compose. done.
Qed.

Lemma clear_empties_store_witness :
  shards exampleStore ≠ [] ∧
  get lengthHash (clear exampleStore) "A" "" = Some (false, clear exampleStore, "") ∧
  totalKeys (clear exampleStore) = 0.
Proof.
  assert (Hne : shards exampleStore ≠ [])
    by (apply (bool_decide_unpack _); vm_compute; exact I).
  split; [exact Hne|].
  destruct (clear_empties_store lengthHash exampleStore "A" "" Hne) as (Hget & _ & Htot & _).
  split; [exact Hget | exact Htot].
Defined.

(** ** The batched path, shard by shard *)

Lemma mapShardsFrom_lookup f (k : nat) (l l' : list Shard) :
  mapShardsFrom f k l = Some l' →
  length l' = length l ∧
  ∀ j sh, l !! j = Some sh → ∃ sh', l' !! j = Some sh' ∧ f (k + j) sh = Some sh'.
Proof.
  revert k l'. induction l as [|x l IH]; intros k l'; simpl.
  - intros [= <-]. split; [done|]. intros j sh Hj. by rewrite lookup_nil in Hj.
  - destruct (f k x) as [x'|] eqn:Hx; simpl; [|done].
    destruct (mapShardsFrom f (S k) l) as [r|] eqn:Hr; simpl; [|done].
    intros [= <-]. destruct (IH (S k) r Hr) as [Hlen Hlook]. split; [simpl; lia|].
    intros [|j] sh Hj; simpl in *.
    + injection Hj as <-. exists x'. by rewrite Nat.add_0_r.
    + destruct (Hlook j sh Hj) as (sh' & H1 & H2). exists sh'. split; [done|].
      by replace (k + S j) with (S k + j) by lia.
Qed.

(** X10 (putMany, shard by shard).  Whenever [putMany] returns, every shard
    of the result is the shard it was with exactly the pairs that are routed
    to it put one after the other, in the order of the input; a shard to
    which no pair is routed is left untouched. *)
Theorem putMany_groups_by_shard (hash : string → nat) (st st' : Store)
    (kvs : list (string * string)) :
  putMany hash st kvs = Some st' →
  length (shards st') = length (shards st) ∧
  ∀ i sh, shards st !! i = Some sh →
    ∃ sh', shards st' !! i = Some sh' ∧
           putBatch sh (filter (λ kv, shardIndex hash st kv.1 = Some i) kvs) = Some sh' ∧
           (Forall (λ kv, shardIndex hash st kv.1 ≠ Some i) kvs → sh' = sh).
Proof.
  intros Hmany. split; [by eapply putMany_length|]. intros i sh Hsh.
  assert (Hne : shards st ≠ []) by (intros Hnil; by rewrite Hnil in Hsh).
  rewrite (putMany_per_shard hash st kvs Hne) in Hmany.
  destruct (mapShardsFrom _ 0 (shards st)) as [l'|] eqn:Hmap; [|done].
  simpl in Hmany. injection Hmany as <-.
  destruct (mapShardsFrom_lookup _ 0 (shards st) l' Hmap) as [_ Hlook].
  destruct (Hlook i sh Hsh) as (sh' & Hsh' & Hbatch). simpl in Hbatch.
  assert (Hfilter : filter (λ kv, shardIndex hash st kv.1 = Some i) kvs =
                    batchOf hash (length (shards st)) i kvs).
  { unfold batchOf. apply list_filter_iff. intros kv.
    destruct (shardIndex_Some hash st kv.1 Hne) as [-> _]. split; congruence. }
  exists sh'. split; [done|]. rewrite Hfilter. split; [done|].
  intros Hnone. assert (Hnil : batchOf hash (length (shards st)) i kvs = []).
  { rewrite <- Hfilter. clear -Hnone. induction Hnone as [|kv l Hkv _ IH]; [done|].
    by rewrite filter_cons_False. }
  rewrite Hnil in Hbatch. simpl in Hbatch. by injection Hbatch.
Qed.

Lemma putMany_groups_by_shard_witness :
  let kvs := [("A", "1"); ("DDD", "4"); ("C", "3")] in
  ∃ st', putMany lengthHash (newStore 2 3) kvs = Some st' ∧
         length (shards st') = 3 ∧
         shards st' !! 2 = Some (newShard 2).
Proof.
  intros kvs.
  destruct (putMany lengthHash (newStore 2 3) kvs) as [st'|] eqn:Hmany;
    [|by vm_compute in Hmany].
  destruct (putMany_groups_by_shard lengthHash (newStore 2 3) st' kvs Hmany)
    as [Hlen Hshards].
  exists st'. split; [reflexivity|]. split; [exact Hlen|].
  destruct (Hshards 2 (newShard 2) eq_refl) as (sh' & Hsh' & _ & Hsame).
  rewrite Hsh'. f_equal. apply Hsame.
  apply (bool_decide_unpack _). vm_compute. exact I.
Defined.

(** X11 (the last pair of a batch).  On a store that satisfies its invariant
    with positive capacities, [putMany] of any batch, repeated keys
    included, returns, and the last pair of the batch can be read back: a
    [get] of its key finds its value. *)
Theorem putMany_last_pair_readable (hash : string → nat) (st : Store)
    (kvs : list (string * string)) (key val out : string) :
  storeInv st →
  ∃ st' st'', putMany hash st (kvs ++ [(key, val)]) = Some st' ∧
              get hash st' key out = Some (true, st'', val).
Proof.
  intros Hinv. rewrite putMany_putEach. unfold putEach. rewrite foldM_app.
  destruct (storeInv_putEach hash st kvs Hinv) as (st0 & Heach & Hinv0).
  unfold putEach in Heach. rewrite Heach. simpl.
  destruct (storeInv_put hash st0 key val Hinv0) as (st1 & Hput & _).
  rewrite Hput. simpl. exists st1, st1. split; [done|].
  destruct (put_inv hash st0 key val _ Hput) as (i & sh & sh' & Hi & Hsh & Hps & Hst1).
  simpl in Hps, Hst1.
  pose proof (wf_store_lookup st0 i sh (proj1 Hinv0) Hsh) as Hwf.
  pose proof (putInShard_atFront sh key val _ Hwf Hps) as Hfront. simpl in Hfront.
  destruct (owner_after_insert hash st0 i sh sh' key Hi Hsh) as [Hi1 Hsh1].
  rewrite <- Hst1 in Hi1, Hsh1.
  rewrite (get_shard hash st1 key out i sh' Hi1 Hsh1).
  rewrite (getFromShard_atFront sh' key val out Hfront). simpl.
  by rewrite (store_insert_id st1 i sh' Hsh1).
Qed.

Lemma putMany_last_pair_readable_witness :
  storeInv exampleStore ∧
  ∃ st' st'', putMany lengthHash exampleStore
                ([("A", "9"); ("E", "5"); ("A", "7")] ++ [("A", "8")]) = Some st' ∧
              get lengthHash st' "A" "" = Some (true, st'', "8").
Proof.
  assert (Hinv : storeInv exampleStore)
    by (apply (bool_decide_unpack _); vm_compute; exact I).
  split; [exact Hinv|].
  apply (putMany_last_pair_readable lengthHash exampleStore
           [("A", "9"); ("E", "5"); ("A", "7")] "A" "8" "" Hinv).
Defined.

(** ** [Store::list] *)


Lemma listEntries_render (index : gmap string Entry) (l : Recency.t) :
  Forall (λ nk, is_Some (index !! nk.2)) l →
  listEntries index l =
    Some (renderEntries ((λ nk, (nk.2, default "" (value <$> index !! nk.2))) <$> l)).
Proof.
  induction 1 as [|[n key] l [e He] _ IH]; [done|]. simpl in *.
  rewrite He, IH. simpl. by destruct l.
Qed.

Lemma listShard_render (i : nat) (sh : Shard) :
  wf_shard sh → listShard i sh = Some (blockOf i (shardPairs sh)).
Proof.
  intros (_ & _ & _ & Hrec). unfold listShard.
  rewrite (listEntries_render _ _ Hrec). simpl. unfold blockOf, shardPairs.
  unfold recencyKeys, Recency.keys, valueOf. by rewrite <- list_fmap_compose.
Qed.

Lemma listFrom_render (i : nat) (l : list Shard) :
  Forall wf_shard l → listFrom i l = Some (renderFrom i (shardPairs <$> l)).
Proof.
  intros Hall. revert i. induction Hall as [|sh l Hsh _ IH]; intros i; [done|].
  simpl. by rewrite (listShard_render i sh Hsh), IH.
Qed.



(** ** [KVStore] *)

(** X13 (KVStore: put then get).  After [KVStore::put] of a pair, a [get] of
    its key returns true and stores the value through the pointer; a later
    [put] of the same key replaces the value; every other key is read
    exactly as before; and a [get] of a present key through a null pointer
    is undefined (it dereferences the pointer). *)
Theorem kvstore_put_get (s : KVStore.t) (key val : string) :
  let s1 := (KVStore.put s key val).1.2 in
  (∀ out, KVStore.get s1 key (Some out) =
            Some (true, Some val, "Successfully read key: " +:+ key +:+ nl)) ∧
  (∀ k value, k ≠ key → KVStore.get s1 k value = KVStore.get s k value) ∧
  (∀ val', (KVStore.put s1 key val').1.2 = (KVStore.put s key val').1.2) ∧
  KVStore.get s1 key None = None.
Proof.
  simpl. unfold KVStore.get, KVStore.put. simpl. split_and!.
  - intros out. by rewrite lookup_insert_eq.
  - intros k value Hk. by rewrite lookup_insert_ne.
  - intros val'. by rewrite insert_insert_eq.
  - by rewrite lookup_insert_eq.
Qed.

Lemma kvstore_put_get_witness :
  let s1 := (KVStore.put KVStore.empty "A" "1").1.2 in
  "B" ≠ "A" ∧ KVStore.get s1 "B" (Some "") = KVStore.get KVStore.empty "B" (Some "").
Proof.
  intros s1. assert (Hne : "B" ≠ "A") by discriminate. split; [exact Hne|].
  apply (proj1 (proj2 (kvstore_put_get KVStore.empty "A" "1")) "B" (Some "") Hne).
Defined.

(** X14 (KVStore: delete).  [KVStore::del] returns true exactly when the key
    is present.  Afterwards a [get] of the key returns false and leaves the
    caller's string (or null pointer) alone, a second [del] returns false,
    and every other key is read exactly as before; deleting an absent key
    leaves the map unchanged. *)
Theorem kvstore_del (s : KVStore.t) (key : string) :
  let r := KVStore.del s key in
  ((r.1.1 = true) ↔ is_Some (KVStore.store_ s !! key)) ∧
  (∀ value, KVStore.get r.1.2 key value =
              Some (false, value, "Key not found: " +:+ key +:+ nl)) ∧
  (∀ k value, k ≠ key → KVStore.get r.1.2 k value = KVStore.get s k value) ∧
  (KVStore.del r.1.2 key).1.1 = false ∧
  (KVStore.store_ s !! key = None → r.1.2 = s).
Proof.
  simpl. unfold KVStore.get, KVStore.del. simpl. split_and!.
  - by rewrite bool_decide_eq_true.
  - intros value. by rewrite lookup_delete_eq.
  - intros k value Hk. by rewrite lookup_delete_ne.
  - rewrite lookup_delete_eq. apply bool_decide_eq_false. by intros [? ?].
  - intros Hnone. rewrite delete_id by done. by destruct s.
Qed.

Lemma kvstore_del_witness :
  let s := (KVStore.put KVStore.empty "A" "1").1.2 in
  KVStore.store_ s !! "B" = None ∧ (KVStore.del s "B").1.2 = s ∧
  (KVStore.del s "A").1.1 = true.
Proof.
  intros s. assert (Hnone : KVStore.store_ s !! "B" = None) by (vm_compute; reflexivity).
  destruct (kvstore_del s "B") as (_ & _ & _ & _ & Hsame).
  destruct (kvstore_del s "A") as (Htrue & _).
  split; [exact Hnone|]. split; [exact (Hsame Hnone)|].
  apply (proj2 Htrue). vm_compute. by eexists.
Defined.

(** ** The sharded store against the plain map *)

Section Simulation.
Variable hash : string → nat.

Lemma dom_insert_shard (K : gset string) (st : Store) (i : nat) (sh' : Shard) :
  Forall (λ sh, dom (store sh) ⊆ K) (shards st) → dom (store sh') ⊆ K →
  Forall (λ sh, dom (store sh) ⊆ K) (shards (mkStore (<[i := sh']> (shards st)))).
Proof. intros Hall Hsh'. simpl. by apply Forall_insert. Qed.

Lemma keyOp_simulation (C : nat) (K : gset string) (st : Store) (kv : KVStore.t)
    (op : KeyOp) :
  builtInv hash C st → size K ≤ C →
  Forall (λ sh, dom (store sh) ⊆ K) (shards st) →
  (∀ k, lookupStore hash st k = KVStore.store_ kv !! k) →
  (∀ key val, op = KPut key val → key ∈ K) →
  ∃ st', runKeyOp hash st op = Some (st', (runKeyOpKV kv op).2) ∧
         builtInv hash C st' ∧
         Forall (λ sh, dom (store sh) ⊆ K) (shards st') ∧
         (∀ k, lookupStore hash st' k = KVStore.store_ (runKeyOpKV kv op).1 !! k).
Proof.
  intros Hinv HK Hdom Hsim Hop. pose proof Hinv as (Hwf & Hr & Hcap).
  destruct op as [key val|key|key]; simpl.
  - assert (HinK : key ∈ K) by by eapply Hop.
    assert (HC : 1 ≤ C).
    { assert (size K ≠ 0); [|lia]. intros H0. apply size_empty_iff in H0.
      rewrite H0 in HinK. by apply not_elem_of_empty in HinK. }
    assert (Hpos : positiveCapacity st).
    { eapply Forall_impl; [exact Hcap|]. intros sh ->. exact HC. }
    destruct (put_store_spec hash st key val (conj Hwf Hpos) Hr)
      as (st' & victims & Hput & Hv & _ & Hvo & _ & Hpres & Hroom & _).
    assert (Hnov : victims = []).
    { destruct (lookupStore hash st key) as [v|] eqn:Hl; [apply Hpres; by eexists|].
      destruct (shardOf_defined hash st key (proj1 Hwf)) as (i & sh & Hi & Hsh & Hof).
      apply (Hroom sh Hof).
      rewrite (lookupStore_owner hash st i sh key Hi Hsh) in Hl.
      pose proof (Forall_lookup_1 _ _ _ _ Hcap Hsh) as Hc. simpl in Hc. rewrite Hc.
      pose proof (Forall_lookup_1 _ _ _ _ Hdom Hsh) as Hsub. simpl in Hsub.
      assert (Hnot : key ∉ dom (store sh)).
      { rewrite elem_of_dom. unfold valueOf in Hl.
        destruct (store sh !! key); [done|]. by intros [? ?]. }
      assert (Hsub' : dom (store sh) ⊆ K ∖ {[key]}) by set_solver.
      apply subseteq_size in Hsub'. rewrite size_dom in Hsub'.
      rewrite size_difference, size_singleton in Hsub' by set_solver.
      assert (size K ≠ 0); [|lia]. intros H0. apply size_empty_iff in H0.
      rewrite H0 in HinK. by apply not_elem_of_empty in HinK. }
    subst victims. exists st'. rewrite Hput. simpl. split; [done|]. split_and!.
    + apply (builtInv_put hash C st key val _ Hinv Hput).
    + destruct (put_inv hash st key val _ Hput) as (i & sh & sh' & _ & Hsh & Hps & Hst').
      simpl in Hst'. rewrite Hst'. apply dom_insert_shard; [done|].
      pose proof (Forall_lookup_1 _ _ _ _ Hdom Hsh) as Hsub. simpl in Hsub.
      intros k Hk%elem_of_dom.
      destruct (putInShard_keys sh key val _ k Hps Hk) as [Hold | ->]; [|done].
      apply Hsub. by apply elem_of_dom.
    + intros k. destruct (decide (k = key)) as [->|Hk].
      * by rewrite Hv, lookup_insert_eq.
      * rewrite (Hvo k Hk), lookup_insert_ne by done. rewrite decide_False; [apply Hsim|].
        by intros Hnil%elem_of_nil.
  - destruct (get_store_spec hash st key "" Hwf)
      as (found & st' & out' & Hget & Hres & Hvals & _ & _).
    exists st'. rewrite Hget. simpl. rewrite Hsim in Hres.
    unfold KVStore.get. split_and!.
    + destruct (KVStore.store_ kv !! key) as [v|]; simpl.
      * by destruct Hres as [-> ->].
      * by destruct Hres as (-> & -> & _).
    + apply (builtInv_get hash C st key "" _ Hinv Hget).
    + destruct (get_inv hash st key "" _ Hget) as (i & sh & sh' & _ & Hsh & Hgs & Hst').
      simpl in Hst'. rewrite Hst'. apply dom_insert_shard; [done|].
      pose proof (Forall_lookup_1 _ _ _ _ Hdom Hsh) as Hsub. simpl in Hsub.
      intros k Hk%elem_of_dom. apply Hsub, elem_of_dom.
      apply (getFromShard_keys sh key "" _ k Hgs Hk).
    + intros k. rewrite Hvals, Hsim. by destruct (KVStore.store_ kv !! key).
  - destruct (del_store_spec hash st key "" Hwf)
      as (b & st' & Hdel & Hb & Hgone & Hvals & _).
    exists st'. rewrite Hdel. simpl. rewrite Hsim in Hb. split_and!.
    + do 3 f_equal. destruct b.
      * symmetry. apply bool_decide_eq_true. by apply Hb.
      * symmetry. apply bool_decide_eq_false. intros H. by apply Hb in H.
    + apply (builtInv_del hash C st key _ Hinv Hdel).
    + destruct (del_inv hash st key _ Hdel) as (i & sh & sh' & _ & Hsh & Hds & Hst').
      simpl in Hst'. rewrite Hst'. apply dom_insert_shard; [done|].
      pose proof (Forall_lookup_1 _ _ _ _ Hdom Hsh) as Hsub. simpl in Hsub.
      intros k Hk%elem_of_dom. apply Hsub, elem_of_dom.
      apply (delFromShard_keys sh key _ k Hds Hk).
    + intros k. destruct (decide (k = key)) as [->|Hk].
      * by rewrite Hgone, lookup_delete_eq.
      * by rewrite (Hvals k Hk), lookup_delete_ne, Hsim.
Qed.

Lemma keyOps_simulation (C : nat) (K : gset string) (ops : list KeyOp) :
  ∀ (st : Store) (kv : KVStore.t),
    builtInv hash C st → size K ≤ C →
    Forall (λ sh, dom (store sh) ⊆ K) (shards st) →
    (∀ k, lookupStore hash st k = KVStore.store_ kv !! k) →
    putKeys ops ⊆ K →
    runKeyOps hash st ops = Some (runKeyOpsKV kv ops).
Proof.
  induction ops as [|op ops IH]; intros st kv Hinv HK Hdom Hsim Hops; [done|].
  assert (Hop : ∀ key val, op = KPut key val → key ∈ K).
  { intros key val ->. apply Hops. unfold putKeys. simpl. set_solver. }
  assert (Hops' : putKeys ops ⊆ K).
  { intros k Hk. apply Hops. unfold putKeys in *. destruct op; simpl; set_solver. }
  destruct (keyOp_simulation C K st kv op Hinv HK Hdom Hsim Hop)
    as (st' & Hstep & Hinv' & Hdom' & Hsim').
  cbn [runKeyOps runKeyOpsKV]. rewrite Hstep. simpl.
  by rewrite (IH st' _ Hinv' HK Hdom' Hsim' Hops').
Qed.

End Simulation.

(** X15 (the sharded store against the plain map).  As long as a sequence of
    single-key operations puts no more distinct keys than the capacity of one
    shard, a new [Store] with at least one shard answers every [put], [get]
    and [del] of the sequence exactly as a new [KVStore] does: same results,
    same values read.  (No eviction can happen, whatever the hash.) *)
Theorem sharded_store_agrees_with_kvstore (hash : string → nat) (C n : nat)
    (ops : list KeyOp) :
  1 ≤ n → size (putKeys ops) ≤ C →
  runKeyOps hash (newStore C n) ops = Some (runKeyOpsKV KVStore.empty ops).
Proof.
  intros Hn HC. apply (keyOps_simulation hash C (putKeys ops)); try done.
  - split_and!; [by apply wf_newStore | apply routed_newStore |].
    simpl. by apply Forall_replicate.
  - simpl. apply Forall_replicate. simpl. rewrite dom_empty_L. set_solver.
  - intros k. unfold lookupStore, shardOf. simpl.
    destruct (shardIndex hash (newStore C n) k) as [i|]; simpl; [|done].
    destruct (replicate n (newShard C) !! i) as [sh|] eqn:Hsh; simpl; [|done].
    apply lookup_replicate in Hsh as [-> _]. done.
Qed.

Lemma sharded_store_agrees_with_kvstore_witness :
  let ops := [KPut "A" "1"; KPut "B" "2"; KGet "A"; KDel "B"; KGet "B"; KPut "A" "3";
              KGet "A"; KDel "C"] in
  1 ≤ 3 ∧ size (putKeys ops) ≤ 2 ∧
  runKeyOps lengthHash (newStore 2 3) ops =
    Some [(true, ""); (true, ""); (true, "1"); (true, ""); (false, ""); (true, "");
          (true, "3"); (false, "")].
Proof.
  intros ops. assert (Hn : 1 ≤ 3) by lia.
  assert (HC : size (putKeys ops) ≤ 2) by (vm_compute; lia).
  split; [exact Hn|]. split; [exact HC|].
  rewrite (sharded_store_agrees_with_kvstore lengthHash 2 3 ops Hn HC).
  vm_compute. reflexivity.
Defined.

(** ** [TrimWhitespace] *)

Section Trim.

Lemma skipSpaces_split (l : list ascii) :
  ∃ lead, l = lead ++ skipSpaces l ∧ blank lead ∧
          ∀ c, head (skipSpaces l) = Some c → isspace c = false.
Proof.
  induction l as [|c l (lead & Hl & Hblank & Hhead)]; simpl.
  - exists []. split_and!; [done | constructor | done].
  - destruct (isspace c) eqn:Hc.
    + exists (c :: lead). split_and!; [simpl; by f_equal | by constructor | done].
    + exists []. split_and!; [done | constructor |]. by intros ? [= <-].
Qed.

Lemma skipSpaces_id (l : list ascii) :
  (∀ c, head l = Some c → isspace c = false) → skipSpaces l = l.
Proof. destruct l as [|c l]; [done|]. intros H. simpl. by rewrite (H c). Qed.

Lemma skipSpaces_blank (l : list ascii) : blank l → skipSpaces l = [].
Proof. induction 1 as [|c l Hc _ IH]; [done|]. simpl. by rewrite Hc. Qed.

Lemma skipSpaces_nil_blank (l : list ascii) : skipSpaces l = [] → blank l.
Proof.
  induction l as [|c l IH]; [constructor|]. simpl.
  destruct (isspace c) eqn:Hc; [|done]. intros H.
  constructor; [exact Hc | exact (IH H)].
Qed.

Lemma string_of_chars_app (a b : list ascii) :
  String.string_of_list_ascii (a ++ b) =
    String.string_of_list_ascii a +:+ String.string_of_list_ascii b.
Proof. induction a as [|c a IH]; [done|]. simpl. rewrite IH. reflexivity. Qed.

Lemma TrimWhitespace_chars (s : string) :
  String.list_ascii_of_string (TrimWhitespace s) =
    trimChars (String.list_ascii_of_string s).
Proof. unfold TrimWhitespace. by rewrite String.list_ascii_of_string_of_list_ascii. Qed.

Lemma head_skipSpaces_reverse (l : list ascii) (c : ascii) :
  (∀ c, head l = Some c → isspace c = false) →
  head (reverse (skipSpaces (reverse l))) = Some c → isspace c = false.
Proof.
  intros Hl. destruct (skipSpaces_split (reverse l)) as (trail & Hr & Hblank & _).
  destruct l as [|a l]; [done|]. intros Hc. apply (Hl c).
  apply (f_equal reverse) in Hr. rewrite reverse_involutive, reverse_app in Hr.
  destruct (reverse (skipSpaces (reverse (a :: l)))) as [|b k] eqn:Hk; [done|].
  simpl in Hc. injection Hc as ->. rewrite Hr. done.
Qed.

Lemma trimChars_split (l : list ascii) :
  ∃ lead trail,
    l = lead ++ trimChars l ++ trail ∧ blank lead ∧ blank trail ∧
    (∀ c, head (trimChars l) = Some c → isspace c = false) ∧
    (∀ c, last (trimChars l) = Some c → isspace c = false).
Proof.
  destruct (skipSpaces_split l) as (lead & Hl & Hlead & Hhead).
  destruct (skipSpaces_split (reverse (skipSpaces l))) as (trail & Hr & Htrail & Hlast).
  exists lead, (reverse trail). unfold trimChars. split_and!.
  - rewrite <- reverse_app, <- Hr, reverse_involutive. exact Hl.
  - done.
  - unfold blank. apply Forall_reverse. exact Htrail.
  - intros c. by apply head_skipSpaces_reverse.
  - intros c. rewrite last_reverse. apply Hlast.
Qed.

Lemma trimChars_id (l : list ascii) :
  (∀ c, head l = Some c → isspace c = false) →
  (∀ c, last l = Some c → isspace c = false) →
  trimChars l = l.
Proof.
  intros Hh Hl. unfold trimChars. rewrite (skipSpaces_id l Hh).
  rewrite skipSpaces_id; [apply reverse_involutive|].
  intros c. rewrite head_reverse. apply Hl.
Qed.

End Trim.

(** X16 (TrimWhitespace removes white space at both ends, and nothing
    else).  The input is the result between a run of leading and a run of
    trailing white space, and the result neither begins nor ends with a
    white-space character. *)
Theorem TrimWhitespace_spec (inputString : string) :
  ∃ lead trail,
    inputString =
      String.string_of_list_ascii lead +:+ TrimWhitespace inputString +:+
      String.string_of_list_ascii trail ∧
    blank lead ∧ blank trail ∧
    (∀ c, head (String.list_ascii_of_string (TrimWhitespace inputString)) = Some c →
          isspace c = false) ∧
    (∀ c, last (String.list_ascii_of_string (TrimWhitespace inputString)) = Some c →
          isspace c = false).
Proof.
  destruct (trimChars_split (String.list_ascii_of_string inputString))
    as (lead & trail & Hl & Hlead & Htrail & Hhead & Hlast).
  exists lead, trail. rewrite TrimWhitespace_chars. split_and!; try done.
  rewrite <- (String.string_of_list_ascii_of_string inputString) at 1.
  rewrite Hl at 1. unfold TrimWhitespace.
  by rewrite !string_of_chars_app.
Qed.

(** X17 (TrimWhitespace: fixed points).  Trimming twice is trimming once; a
    string that neither begins nor ends with white space is returned as it
    is; and the result is empty exactly when the input is all white space. *)
Theorem TrimWhitespace_idempotent (inputString : string) :
  TrimWhitespace (TrimWhitespace inputString) = TrimWhitespace inputString ∧
  ((∀ c, head (String.list_ascii_of_string inputString) = Some c → isspace c = false) →
   (∀ c, last (String.list_ascii_of_string inputString) = Some c → isspace c = false) →
   TrimWhitespace inputString = inputString) ∧
  (TrimWhitespace inputString = "" ↔ blank (String.list_ascii_of_string inputString)).
Proof.
  assert (Hid : ∀ s,
    (∀ c, head (String.list_ascii_of_string s) = Some c → isspace c = false) →
    (∀ c, last (String.list_ascii_of_string s) = Some c → isspace c = false) →
    TrimWhitespace s = s).
  { intros s Hh Hl. unfold TrimWhitespace. fold (trimChars (String.list_ascii_of_string s)).
    rewrite trimChars_id by done. apply String.string_of_list_ascii_of_string. }
  split_and!.
  - destruct (trimChars_split (String.list_ascii_of_string inputString))
      as (_ & _ & _ & _ & _ & Hhead & Hlast).
    apply Hid; intros c; rewrite TrimWhitespace_chars; [apply Hhead | apply Hlast].
  - apply Hid.
  - unfold TrimWhitespace. split.
    + intros H. apply (f_equal String.list_ascii_of_string) in H.
      rewrite String.list_ascii_of_string_of_list_ascii in H. simpl in H.
      apply (f_equal reverse) in H. rewrite reverse_involutive, reverse_nil in H.
      apply skipSpaces_nil_blank in H. apply Forall_reverse in H.
      rewrite reverse_involutive in H.
      destruct (skipSpaces_split (String.list_ascii_of_string inputString))
        as (lead & Hl & Hlead & _).
      rewrite Hl. apply Forall_app. split; [exact Hlead | exact H].
    + intros H. by rewrite (skipSpaces_blank _ H).
Qed.

Lemma TrimWhitespace_idempotent_witness :
  (∀ c, head (String.list_ascii_of_string "GET a") = Some c → isspace c = false) ∧
  (∀ c, last (String.list_ascii_of_string "GET a") = Some c → isspace c = false) ∧
  TrimWhitespace "GET a" = "GET a".
Proof.
  assert (Hh : ∀ c, head (String.list_ascii_of_string "GET a") = Some c → isspace c = false)
    by (by intros c [= <-]).
  assert (Hl : ∀ c, last (String.list_ascii_of_string "GET a") = Some c → isspace c = false)
    by (by intros c [= <-]).
  split; [exact Hh|]. split; [exact Hl|].
  apply (proj1 (proj2 (TrimWhitespace_idempotent "GET a")) Hh Hl).
Defined.

Lemma TrimWhitespace_spec_witness :
  ∃ lead trail,
    "  GET a " =
      String.string_of_list_ascii lead +:+ TrimWhitespace "  GET a " +:+
      String.string_of_list_ascii trail ∧
    blank lead ∧ blank trail.
Proof.
  destruct (TrimWhitespace_spec "  GET a ") as (lead & trail & H & Hl & Ht & _).
  exists lead, trail. split; [exact H|]. split; [exact Hl | exact Ht].
Defined.

(** ** The loop of [main] (server.cpp) *)

Section CliFacts.
Variable hash : string → nat.

Lemma recordHistory_length (h : list string) (t : string) :
  length h ≤ kMaximumHistorySize → length (recordHistory h t) ≤ kMaximumHistorySize.
Proof.
  intros Hh. unfold recordHistory. case_decide; [done|]. simpl.
  case_decide as Hlen.
  - assert (Ht : length (tail (h ++ [t])) = length (h ++ [t]) - 1)
      by (destruct (h ++ [t]); simpl; lia).
    rewrite Ht, length_app. simpl. lia.
  - lia.
Qed.

Lemma recordHistory_lastN (H : list string) (t : string) :
  t ≠ "" →
  recordHistory (lastN kMaximumHistorySize H) t = lastN kMaximumHistorySize (H ++ [t]).
Proof.
  intros Ht. unfold recordHistory, lastN. rewrite decide_False by done. simpl.
  rewrite !length_app, length_drop. simpl.
  destruct (decide (kMaximumHistorySize ≤ length H)) as [Hge|Hlt].
  - rewrite decide_True by lia.
    replace (length H + 1 - kMaximumHistorySize)
      with (S (length H - kMaximumHistorySize)) by lia.
    rewrite <- drop_app_le by lia.
    generalize (length H - kMaximumHistorySize). intros n.
    generalize (H ++ [t]). intros l. clear. revert n.
    induction l as [|x l IH]; intros [|n]; simpl; done.
  - rewrite decide_False by lia.
    replace (length H - kMaximumHistorySize) with 0 by lia.
    replace (length H + 1 - kMaximumHistorySize) with 0 by lia. done.
Qed.

Lemma storeInv_of_builtInv (C : nat) (st : Store) :
  1 ≤ C → builtInv hash C st → storeInv st.
Proof.
  intros HC (Hwf & _ & Hcap). split; [done|].
  eapply Forall_impl; [exact Hcap|]. intros sh ->. exact HC.
Qed.

(** One iteration is always defined, and keeps the invariant. *)
Lemma processLine_defined (cli : Cli) (line : string) :
  cliInv hash cli →
  ∃ b cli' out,
    processLine hash cli line = Some (b, cli', out) ∧
    cliInv hash cli' ∧
    commandHistory cli' = recordHistory (commandHistory cli) (TrimWhitespace line) ∧
    length (shards (keyValueStore cli')) = length (shards (keyValueStore cli)) ∧
    (b = false ↔ commandOf line = "EXIT").
Proof.
  intros [Hinv Hh].
  pose proof (recordHistory_length _ (TrimWhitespace line) Hh) as Hh'.
  pose proof (storeInv_of_builtInv 100 _ ltac:(lia) Hinv) as Hsi.
  unfold processLine, commandOf.
  set (keyword := extractWord _).
  assert (Hexit : ∀ b : bool, keyword.1 ≠ "EXIT" → b = true →
                    (b = false ↔ keyword.1 = "EXIT")).
  { intros b Hne ->. split; [done|]. intros Hx. by destruct Hne. }
  destruct (decide (keyword.1 = "PUT")) as [Hk|_].
  { case_decide.
    - eexists _, _, _. split; [done|]. split_and!; try done.
      apply Hexit; [|done]. by rewrite Hk.
    - destruct (storeInv_put hash (keyValueStore cli) (extractWord keyword.2).1
                  (extractWord (extractWord keyword.2).2).1 Hsi) as (st' & Hput & _).
      rewrite Hput. simpl. eexists _, _, _. split; [done|]. split_and!; try done.
      + split; [|done]. simpl. apply (builtInv_put hash 100 _ _ _ _ Hinv Hput).
      + apply (put_length hash _ _ _ _ Hput).
      + apply Hexit; [|done]. by rewrite Hk. }
  destruct (decide (keyword.1 = "GET")) as [Hk|_].
  { case_decide.
    - eexists _, _, _. split; [done|]. split_and!; try done.
      apply Hexit; [|done]. by rewrite Hk.
    - destruct (get_store_spec hash (keyValueStore cli) (extractWord keyword.2).1 ""
                  (proj1 Hinv)) as (found & st' & out' & Hget & _).
      rewrite Hget. simpl. eexists _, _, _. split; [done|]. split_and!; try done.
      + split; [|done]. simpl. apply (builtInv_get hash 100 _ _ _ _ Hinv Hget).
      + apply (get_length hash _ _ _ _ Hget).
      + apply Hexit; [|done]. by rewrite Hk. }
  destruct (decide (keyword.1 = "DEL")) as [Hk|_].
  { case_decide.
    - eexists _, _, _. split; [done|]. split_and!; try done.
      apply Hexit; [|done]. by rewrite Hk.
    - destruct (del_store_spec hash (keyValueStore cli) (extractWord keyword.2).1 ""
                  (proj1 Hinv)) as (b & st' & Hdel & _).
      rewrite Hdel. simpl. eexists _, _, _. split; [done|]. split_and!; try done.
      + split; [|done]. simpl. apply (builtInv_del hash 100 _ _ _ Hinv Hdel).
      + apply (del_length hash _ _ _ Hdel).
      + apply Hexit; [|done]. by rewrite Hk. }
  destruct (decide (keyword.1 = "LIST")) as [Hk|_].
  { unfold Store_list. rewrite (listFrom_render 0 _ (proj2 (proj1 Hinv))). simpl.
    eexists _, _, _. split; [done|]. split_and!; try done.
    apply Hexit; [|done]. by rewrite Hk. }
  destruct (decide (keyword.1 = "CLEAR")) as [Hk|_].
  { eexists _, _, _. split; [done|]. split_and!; try done.
    - split; [|done]. simpl. by apply builtInv_clear.
    - apply clear_length.
    - apply Hexit; [|done]. by rewrite Hk. }
  destruct (decide (keyword.1 = "HELP")) as [Hk|_].
  { eexists _, _, _. split; [done|]. split_and!; try done.
    apply Hexit; [|done]. by rewrite Hk. }
  destruct (decide (keyword.1 = "HISTORY")) as [Hk|_].
  { eexists _, _, _. split; [done|]. split_and!; try done.
    apply Hexit; [|done]. by rewrite Hk. }
  destruct (decide (keyword.1 = "EXIT")) as [Hk|Hne].
  { eexists _, _, _. split; [done|]. by split_and!. }
  case_decide; eexists _, _, _; (split; [done|]); split_and!; try done;
    by apply Hexit.
Qed.

Lemma cliLoop_defined (lines : list string) :
  ∀ cli, cliInv hash cli →
    ∃ cli' out, cliLoop hash cli lines = Some (cli', out) ∧ cliInv hash cli' ∧
      length (shards (keyValueStore cli')) = length (shards (keyValueStore cli)) ∧
      commandHistory cli' =
        foldl recordHistory (commandHistory cli) (TrimWhitespace <$> linesRead lines).
Proof.
  induction lines as [|line lines IH]; intros cli Hinv; simpl.
  - by exists cli, "> ".
  - destruct (processLine_defined cli line Hinv)
      as (b & cli1 & out & -> & Hinv1 & Hh & Hlen & Hb).
    simpl. destruct b.
    + rewrite decide_False by (intros Hx; apply Hb in Hx; done).
      destruct (IH cli1 Hinv1) as (cli' & out' & -> & Hinv' & Hlen' & Hh').
      simpl. eexists _, _. split; [done|]. split; [done|].
      split; [congruence|]. simpl. by rewrite <- Hh.
    + rewrite decide_True by by apply Hb.
      eexists _, _. split; [done|]. split; [done|]. split; [done|].
      simpl. by rewrite <- Hh.
Qed.

Lemma foldl_recordHistory (H : list string) (ts : list string) :
  foldl recordHistory (lastN kMaximumHistorySize H) ts =
    lastN kMaximumHistorySize (H ++ filter (λ t, t ≠ "") ts).
Proof.
  revert H. induction ts as [|t ts IH]; intros H; simpl.
  - by rewrite app_nil_r.
  - destruct (decide (t = "")) as [->|Ht].
    + rewrite filter_cons_False by (intros Hne; by apply Hne).
      unfold recordHistory at 2. rewrite decide_True by done. apply IH.
    + rewrite filter_cons_True by done. rewrite recordHistory_lastN by done.
      rewrite IH. by rewrite <- app_assoc.
Qed.

End CliFacts.

(** X18 (the front end never fails).  Whatever lines it reads, the loop of
    [main] runs to the end of the input or to an EXIT command: no store
    operation it issues is undefined and [list] never throws.  The store it
    ends with has its 16 shards of capacity 100, satisfies the
    representation and routing invariants, and the history holds at most 50
    commands. *)
Theorem cli_never_fails (hash : string → nat) (lines : list string) :
  ∃ cli out,
    cliMain hash lines = Some (cli, out) ∧
    wf_store (keyValueStore cli) ∧
    routed hash (keyValueStore cli) ∧
    length (shards (keyValueStore cli)) = 16 ∧
    Forall (λ sh, capacity sh = 100) (shards (keyValueStore cli)) ∧
    length (commandHistory cli) ≤ 50.
Proof.
  assert (Hinit : cliInv hash (mkCli (newStore 100 16) [])).
  { split; [|simpl; lia]. cbn [keyValueStore]. split_and!.
    - apply wf_newStore. lia.
    - apply routed_newStore.
    - change (shards (newStore 100 16)) with (replicate 16 (newShard 100)).
      by apply Forall_replicate. }
  destruct (cliLoop_defined hash lines _ Hinit)
    as (cli & out & Hloop & [Hinv Hh] & Hlen & _).
  unfold cliMain. rewrite Hloop. simpl. eexists _, _. split; [done|].
  destruct Hinv as (Hwf & Hr & Hcap). by split_and!.
Qed.

(** X19 (the command history).  The history that [main] keeps is the last
    50 of the lines it has read, trimmed, empty lines left out, in the order
    they were read; the lines read are those up to the first EXIT command,
    itself included. *)
Theorem cli_history_is_last_fifty (hash : string → nat) (lines : list string) :
  ∃ cli out,
    cliMain hash lines = Some (cli, out) ∧
    commandHistory cli =
      lastN 50 (filter (λ t, t ≠ "") (TrimWhitespace <$> linesRead lines)).
Proof.
  assert (Hinit : cliInv hash (mkCli (newStore 100 16) [])).
  { split; [|simpl; lia]. cbn [keyValueStore]. split_and!.
    - apply wf_newStore. lia.
    - apply routed_newStore.
    - change (shards (newStore 100 16)) with (replicate 16 (newShard 100)).
      by apply Forall_replicate. }
  destruct (cliLoop_defined hash lines _ Hinit) as (cli & out & Hloop & _ & _ & Hh).
  unfold cliMain. rewrite Hloop. simpl. eexists _, _. split; [done|].
  rewrite Hh. cbn [commandHistory].
  apply (foldl_recordHistory [] (TrimWhitespace <$> linesRead lines)).
Qed.

(** ** Parsing a command line *)

Section Parsing.
Variable hash : string → nat.

Lemma chars_app (s1 s2 : string) :
  String.list_ascii_of_string (s1 +:+ s2) =
    String.list_ascii_of_string s1 ++ String.list_ascii_of_string s2.
Proof. induction s1 as [|c s1 IH]; [done|]. simpl. f_equal. exact IH. Qed.

Lemma readWord_word (w rest : list ascii) :
  Forall (λ c, isspace c = false) w →
  (∀ c, head rest = Some c → isspace c = true) →
  readWord (w ++ rest) = (w, rest).
Proof.
  intros Hw Hrest. induction Hw as [|c w Hc _ IH]; simpl.
  - destruct rest as [|c rest]; [done|]. simpl. by rewrite (Hrest c).
  - by rewrite Hc, IH.
Qed.

Lemma extractWord_word (w : string) (rest : list ascii) :
  isWord w → (∀ c, head rest = Some c → isspace c = true) →
  extractWord (String.list_ascii_of_string w ++ rest) = (w, rest).
Proof.
  intros [Hne Hw] Hrest. unfold extractWord.
  rewrite skipSpaces_id.
  - rewrite (readWord_word _ rest Hw Hrest). simpl.
    by rewrite String.string_of_list_ascii_of_string.
  - destruct w as [|c w]; [done|]. simpl. intros ? [= <-].
    by apply Forall_cons in Hw as [? _].
Qed.

Lemma extractWord_space (l : list ascii) :
  extractWord (" "%char :: l) = extractWord l.
Proof. done. Qed.

(** A line made of words separated by single spaces is its own trimming. *)
Lemma TrimWhitespace_words (first : ascii) (middle w : string) :
  isspace first = false → isWord w →
  TrimWhitespace (String first (middle +:+ " " +:+ w)) =
    String first (middle +:+ " " +:+ w).
Proof.
  intros Hf [Hne Hw]. unfold TrimWhitespace.
  fold (trimChars (String.list_ascii_of_string (String first (middle +:+ " " +:+ w)))).
  rewrite trimChars_id; [apply String.string_of_list_ascii_of_string | |].
  - simpl. by intros ? [= <-].
  - intros c. simpl. rewrite !chars_app.
    change (String.list_ascii_of_string " ") with [" "%char].
    rewrite app_comm_cons, !app_assoc, last_app.
    destruct (last (String.list_ascii_of_string w)) as [c'|] eqn:Hl.
    + intros [= <-]. apply last_Some in Hl as [l' Hl]. rewrite Hl in Hw.
      apply Forall_app in Hw as [_ Hw]. by apply Forall_cons in Hw as [? _].
    + apply last_None in Hl. by destruct w.
Qed.

End Parsing.

(** X20 (PUT then GET through the front end).  On a store that satisfies
    its invariant with positive capacities, for a key and a value that are
    words (not empty, no white space), the line PUT key value is accepted,
    and the line GET key entered next is answered with that value. *)
Theorem cli_put_then_get (hash : string → nat) (cli : Cli) (key val : string) :
  storeInv (keyValueStore cli) → isWord key → isWord val →
  ∃ cli1 cli2,
    processLine hash cli ("PUT " +:+ key +:+ " " +:+ val) =
      Some (true, cli1, replySuccess) ∧
    processLine hash cli1 ("GET " +:+ key) = Some (true, cli2, replyValue val).
Proof.
  intros Hinv Hkey Hval.
  destruct (put_then_get_store hash (keyValueStore cli) key val "" Hinv)
    as (st1 & Hput & Hget).
  assert (Hsp : ∀ l c, head (" "%char :: l) = Some c → isspace c = true)
    by (by intros l c [= <-]).
  assert (Hend : ∀ c, head (@nil ascii) = Some c → isspace c = true) by done.
  assert (HPUT : isWord "PUT") by (apply (bool_decide_unpack _); vm_compute; exact I).
  assert (HGET : isWord "GET") by (apply (bool_decide_unpack _); vm_compute; exact I).
  assert (Hnokey : ¬ (key = "" ∨ val = "")).
  { intros [-> | ->]; [by destruct Hkey | by destruct Hval]. }
  eexists _, _. split.
  - unfold processLine.
    change ("PUT " +:+ key +:+ " " +:+ val)
      with (String "P" (("UT " +:+ key) +:+ " " +:+ val)).
    rewrite (TrimWhitespace_words "P" ("UT " +:+ key) val eq_refl Hval).
    change (String "P" (("UT " +:+ key) +:+ " " +:+ val))
      with ("PUT" +:+ " " +:+ key +:+ " " +:+ val).
    rewrite !chars_app. change (String.list_ascii_of_string " ") with [" "%char].
    cbn [app].
    rewrite (extractWord_word "PUT" _ HPUT (Hsp _)). cbn [fst snd].
    rewrite decide_True by done.
    rewrite extractWord_space, (extractWord_word key _ Hkey (Hsp _)). cbn [fst snd].
    rewrite extractWord_space.
    rewrite <- (app_nil_r (String.list_ascii_of_string val)).
    rewrite (extractWord_word val _ Hval Hend). cbn [fst snd].
    rewrite decide_False by done. cbn [keyValueStore]. rewrite Hput.
    reflexivity.
  - unfold processLine. cbn [keyValueStore commandHistory].
    change ("GET " +:+ key) with (String "G" ("ET" +:+ " " +:+ key)).
    rewrite (TrimWhitespace_words "G" "ET" key eq_refl Hkey).
    change (String "G" ("ET" +:+ " " +:+ key)) with ("GET" +:+ " " +:+ key).
    rewrite !chars_app. change (String.list_ascii_of_string " ") with [" "%char].
    cbn [app].
    rewrite (extractWord_word "GET" _ HGET (Hsp _)). cbn [fst snd].
    rewrite decide_False by done. rewrite decide_True by done.
    rewrite extractWord_space.
    rewrite <- (app_nil_r (String.list_ascii_of_string key)).
    rewrite (extractWord_word key _ Hkey Hend). cbn [fst snd].
    rewrite decide_False by (by destruct Hkey). rewrite Hget. reflexivity.
Qed.

Lemma cli_put_then_get_witness :
  let cli := mkCli exampleStore [] in
  storeInv (keyValueStore cli) ∧ isWord "user:1" ∧ isWord "Ada" ∧
  ∃ cli1 cli2,
    processLine lengthHash cli ("PUT " +:+ "user:1" +:+ " " +:+ "Ada") =
      Some (true, cli1, replySuccess) ∧
    processLine lengthHash cli1 ("GET " +:+ "user:1") = Some (true, cli2, replyValue "Ada").
Proof.
  intros cli.
  assert (Hinv : storeInv (keyValueStore cli))
    by (apply (bool_decide_unpack _); vm_compute; exact I).
  assert (Hk : isWord "user:1") by (apply (bool_decide_unpack _); vm_compute; exact I).
  assert (Hv : isWord "Ada") by (apply (bool_decide_unpack _); vm_compute; exact I).
  split; [exact Hinv|]. split; [exact Hk|]. split; [exact Hv|].
  apply (cli_put_then_get lengthHash cli "user:1" "Ada" Hinv Hk Hv).
Defined.

(** ** The shard as an LRU list *)

Section LruList.

Lemma shardPairs_length (sh : Shard) : length (shardPairs sh) = length (recencyList sh).
Proof. unfold shardPairs, recencyKeys, Recency.keys. by rewrite !length_fmap. Qed.

Lemma assoc_fmap (g : string → string) (key : string) (ks : list string) :
  assoc key ((λ k, (k, g k)) <$> ks) = if decide (key ∈ ks) then Some (g key) else None.
Proof.
  induction ks as [|k ks IH]; [done|]. rewrite fmap_cons. cbn [assoc].
  destruct (decide (k = key)) as [Hk|Hk].
  - subst k. rewrite decide_True; [done|]. apply elem_of_cons. by left.
  - rewrite IH. destruct (decide (key ∈ ks)) as [Hin|Hnin].
    + rewrite decide_True; [done|]. apply elem_of_cons. by right.
    + rewrite decide_False; [done|]. intros [-> | ?]%elem_of_cons; done.
Qed.

Lemma assoc_shardPairs (sh : Shard) (key : string) :
  wf_shard sh → assoc key (shardPairs sh) = valueOf sh key.
Proof.
  intros Hwf. unfold shardPairs. rewrite assoc_fmap.
  pose proof (wf_key_in_list sh key Hwf) as Hin. unfold valueOf in *.
  case_decide as Hk.
  - apply Hin in Hk as [e ->]. done.
  - destruct (store sh !! key) as [e|] eqn:He; [|done].
    destruct Hk. apply Hin. by eexists.
Qed.

Lemma without_fmap (g : string → string) (key : string) (ks : list string) :
  without key ((λ k, (k, g k)) <$> ks) =
    (λ k, (k, g k)) <$> filter (λ k, k ≠ key) ks.
Proof.
  unfold without. induction ks as [|k ks IH]; [done|]. rewrite fmap_cons.
  destruct (decide (k = key)) as [->|Hk].
  - rewrite !filter_cons_False by (intros Hne; by apply Hne). exact IH.
  - rewrite !filter_cons_True by done. rewrite fmap_cons. by rewrite IH.
Qed.

Lemma lruPut_refines (C : nat) (sh sh1 : Shard) (key val : string) :
  1 ≤ C → shardInv C sh → putInShard sh key val = Some (true, sh1) →
  shardPairs sh1 = lruPut C key val (shardPairs sh).
Proof.
  intros HC (Hwf & Hcap & Hsize) Hput. unfold lruPut.
  rewrite (assoc_shardPairs sh key Hwf), shardPairs_length, <- (wf_size sh Hwf).
  unfold valueOf. destruct (store sh !! key) as [e|] eqn:He; simpl.
  - destruct (putInShard_existing_spec sh key val Hwf ltac:(by eexists))
      as (sh2 & Hput2 & Hks & Hv & Hvo & _).
    rewrite Hput in Hput2. injection Hput2 as <-.
    unfold shardPairs at 1. rewrite Hks. unfold touch. rewrite fmap_cons, Hv. simpl.
    f_equal. unfold shardPairs. rewrite without_fmap.
    apply list_fmap_ext. intros i k Hk. f_equal. f_equal. apply Hvo.
    assert (Hin : k ∈ filter (λ k, k ≠ key) (recencyKeys sh))
      by (apply list_elem_of_lookup; by exists i).
    by apply list_elem_of_filter in Hin as [? _].
  - subst C. destruct (decide (capacity sh ≤ size (store sh))) as [Hfull|Hroom].
    + destruct (putInShard_full_spec sh key val Hwf HC He Hfull)
        as (sh2 & ks & lru & Hput2 & Hks & Hks2 & Hv & Hvl & Hvo).
      rewrite Hput in Hput2. injection Hput2 as <-.
      unfold shardPairs at 1. rewrite Hks2. rewrite fmap_cons, Hv. simpl. f_equal.
      unfold shardPairs. rewrite Hks, fmap_app. simpl. rewrite removelast_last.
      apply list_fmap_ext. intros i k Hk. f_equal. f_equal.
      assert (Hin : k ∈ ks) by (apply list_elem_of_lookup; by exists i).
      assert (Hnd : NoDup (ks ++ [lru])) by (rewrite <- Hks; apply Hwf).
      apply NoDup_app in Hnd as (_ & Hdis & _).
      apply Hvo.
      * intros ->. assert (Hin2 : key ∈ recencyKeys sh)
          by (rewrite Hks; apply elem_of_app; by left).
        apply (wf_key_in_list sh key Hwf) in Hin2. rewrite He in Hin2. by destruct Hin2.
      * intros ->. apply (Hdis lru Hin). apply elem_of_cons. by left.
    + destruct (putInShard_room_spec sh key val He ltac:(lia))
        as (sh2 & Hput2 & Hks & Hv & Hvo).
      rewrite Hput in Hput2. injection Hput2 as <-.
      unfold shardPairs at 1. rewrite Hks. rewrite fmap_cons, Hv. simpl. f_equal.
      apply list_fmap_ext. intros i k Hk. f_equal. f_equal. apply Hvo.
      intros ->. assert (Hin : key ∈ recencyKeys sh)
        by (apply list_elem_of_lookup; by exists i).
      apply (wf_key_in_list sh key Hwf) in Hin. rewrite He in Hin. by destruct Hin.
Qed.

Lemma lruGet_refines (sh : Shard) (key out : string) (r : bool * Shard * string) :
  wf_shard sh → getFromShard sh key out = Some r →
  shardPairs r.1.2 = (lruGet key (shardPairs sh)).2 ∧
  (if r.1.1 then Some r.2 else None) = (lruGet key (shardPairs sh)).1.
Proof.
  intros Hwf Hget. unfold lruGet. rewrite (assoc_shardPairs sh key Hwf).
  unfold valueOf. destruct (store sh !! key) as [e|] eqn:He; simpl.
  - destruct (getFromShard_present_spec sh key out Hwf ltac:(by eexists))
      as (sh2 & v & Hget2 & Hv & Hks & Hvo).
    rewrite Hget in Hget2. injection Hget2 as ->. simpl.
    unfold valueOf in Hv. rewrite He in Hv. simpl in Hv. injection Hv as <-.
    split; [|done]. unfold shardPairs at 1. rewrite Hks. unfold touch.
    rewrite fmap_cons, Hvo. unfold valueOf at 1. rewrite He. simpl. f_equal.
    unfold shardPairs. rewrite without_fmap.
    apply list_fmap_ext. intros i k Hk. by rewrite Hvo.
  - rewrite (getFromShard_absent sh key out He) in Hget. by injection Hget as <-.
Qed.

Lemma lruDel_refines (sh : Shard) (key : string) (r : bool * Shard) :
  wf_shard sh → delFromShard sh key = Some r →
  shardPairs r.2 = (lruDel key (shardPairs sh)).2 ∧
  r.1 = (lruDel key (shardPairs sh)).1.
Proof.
  intros Hwf Hdel. unfold lruDel. rewrite (assoc_shardPairs sh key Hwf). simpl.
  unfold valueOf. destruct (store sh !! key) as [e|] eqn:He; simpl.
  - destruct (delFromShard_present_spec sh key Hwf ltac:(by eexists))
      as (sh2 & Hdel2 & Hstore & Hks & _).
    rewrite Hdel in Hdel2. injection Hdel2 as ->. simpl. split.
    + unfold shardPairs at 1. rewrite Hks. unfold shardPairs. rewrite without_fmap.
      apply list_fmap_ext. intros i k Hk. f_equal. f_equal. unfold valueOf.
      rewrite Hstore, lookup_delete_ne; [done|].
      assert (Hin : k ∈ filter (λ k, k ≠ key) (recencyKeys sh))
        by (apply list_elem_of_lookup; by exists i).
      apply list_elem_of_filter in Hin as [Hne _]. by intros ->.
    + done.
  - rewrite (delFromShard_absent sh key He) in Hdel. injection Hdel as <-. simpl.
    split; [|done].
    unfold shardPairs. rewrite without_fmap. f_equal. symmetry.
    apply filter_ne_not_in.
    rewrite (wf_key_in_list sh key Hwf), He. by intros [? ?].
Qed.

End LruList.

(** X21 (the shard is an LRU list).  For every sequence of put, get, delete
    and clear operations on a new shard of positive capacity [C], the pairs
    of the shard in recency order are exactly those of an LRU cache kept as
    a list: a put or a successful get moves the pair to the front, a put of a
    new key into a full cache drops the pair at the back, a delete removes
    the pair and keeps the order of the others. *)
Theorem shard_is_lru_list (C : nat) (ops : list ShardOp) :
  1 ≤ C →
  ∃ sh, runShard (newShard C) ops = Some sh ∧ shardPairs sh = lruRun C ops.
Proof.
  intros HC. unfold lruRun, runShard.
  assert (Hgen : ∀ sh, shardInv C sh →
            ∃ sh1, foldM stepShard sh ops = Some sh1 ∧
                   shardPairs sh1 = foldl (lruStep C) (shardPairs sh) ops).
  { induction ops as [|op ops IH]; intros sh Hinv; simpl.
    - by exists sh.
    - destruct (shardInv_step C sh op HC Hinv) as (sh1 & Hstep & Hinv1).
      rewrite Hstep. simpl. destruct (IH sh1 Hinv1) as (sh2 & Hrun & Hpairs).
      exists sh2. split; [done|]. rewrite Hpairs. f_equal.
      destruct op as [key val|key|key|]; simpl in *.
      + destruct (putInShard sh key val) as [[b s]|] eqn:Hput; [|done].
        simpl in Hstep. injection Hstep as ->.
        destruct (shardInv_put C sh key val HC Hinv) as (s2 & Hput2 & _).
        rewrite Hput in Hput2. injection Hput2 as -> ->.
        by apply lruPut_refines.
      + destruct (getFromShard sh key "") as [r|] eqn:Hget; [|done].
        simpl in Hstep. injection Hstep as <-.
        apply (lruGet_refines sh key "" r (proj1 Hinv) Hget).
      + destruct (delFromShard sh key) as [r|] eqn:Hdel; [|done].
        simpl in Hstep. injection Hstep as <-.
        apply (lruDel_refines sh key r (proj1 Hinv) Hdel).
      + by injection Hstep as <-. }
  apply (Hgen (newShard C)). apply shardInv_new.
Qed.

Lemma shard_is_lru_list_witness :
  let ops := [OpPut "A" "1"; OpPut "B" "2"; OpGet "A"; OpPut "C" "3"; OpPut "A" "4";
              OpDel "C"; OpPut "D" "5"] in
  1 ≤ 2 ∧
  ∃ sh, runShard (newShard 2) ops = Some sh ∧ shardPairs sh = [("D", "5"); ("A", "4")].
Proof.
  intros ops. assert (HC : 1 ≤ 2) by lia. split; [exact HC|].
  destruct (shard_is_lru_list 2 ops HC) as (sh & Hrun & Hpairs).
  exists sh. split; [exact Hrun|]. rewrite Hpairs. vm_compute. reflexivity.
Defined.
